(** * Convex hull, voltage curve and metastable path sampler of matador

    A shallow embedding of [src/src/hull.py] ([QueryConvexHull]):
    the cutoff selection of [__init__], [binary_hull], [voltage_curve] and
    the closures of [metastable_voltage_profile].

    Numbers.  The NumPy/Python floats of the source are modelled by exact
    rationals ([Q], compared with [==]); rounding and the sign of zero are
    abstracted away.  Where the source can produce [inf] or [nan] the value
    lives in [xnum], the rationals extended with the IEEE special values.
    Python exceptions and [exit()] are results of type [result]. *)

From Stdlib Require Import QArith Qabs ZArith List String Lia Lqa Bool Sorted.
From Stdlib Require Import SetoidList SetoidPermutation.
From stdpp Require Import base list strings gmap.
From Equations Require Import Equations.

Open Scope Q_scope.

(** ** Exceptions *)

Inductive exn : Type :=
| IndexError        (* sequence index out of range *)
| KeyError          (* missing dictionary key *)
| ZeroDivisionError (* Python-level division by zero *)
| ValueError        (* np.random.randint(0, 0), list.index of an absent item *)
| SystemExit        (* exit() *)
| QhullError.       (* scipy.spatial.ConvexHull on a degenerate point set *)

Inductive result (A : Type) : Type :=
| Ok (a : A)
| Raise (e : exn).
Arguments Ok {A} a.
Arguments Raise {A} e.

Definition rbind {A B} (m : result A) (k : A -> result B) : result B :=
  match m with
  | Ok a => k a
  | Raise e => Raise e
  end.

Notation "'let*' x ':=' m 'in' k" := (rbind m (fun x => k))
  (at level 10, x pattern, m at level 100, k at level 200).

Definition of_option {A} (e : exn) (o : option A) : result A :=
  match o with
  | Some a => Ok a
  | None => Raise e
  end.

(** [for x in l: acc = f(acc, x)] where the body may raise. *)
Fixpoint fold_result {A S} (f : S -> A -> result S) (l : list A) (s : S) : result S :=
  match l with
  | [] => Ok s
  | a :: l' => let* s' := f s a in fold_result f l' s'
  end.

Fixpoint map_result {A B} (f : A -> result B) (l : list A) : result (list B) :=
  match l with
  | [] => Ok []
  | a :: l' => let* b := f a in let* bs := map_result f l' in Ok (b :: bs)
  end.

(** ** Extended rationals: the model of a float that may be [inf] or [nan] *)

Inductive xnum : Type :=
| Fin (q : Q)
| PInf
| NInf
| NaN.

Definition Qltb (x y : Q) : bool := negb (Qle_bool y x).

Module X.

Definition opp (a : xnum) : xnum :=
  match a with
  | Fin q => Fin (- q)
  | PInf => NInf
  | NInf => PInf
  | NaN => NaN
  end.

Definition add (a b : xnum) : xnum :=
  match a, b with
  | NaN, _ | _, NaN => NaN
  | Fin p, Fin q => Fin (p + q)
  | PInf, NInf | NInf, PInf => NaN
  | PInf, _ | _, PInf => PInf
  | NInf, _ | _, NInf => NInf
  end.

Definition sub (a b : xnum) : xnum := add a (opp b).

Definition mul (a b : xnum) : xnum :=
  match a, b with
  | NaN, _ | _, NaN => NaN
  | Fin p, Fin q => Fin (p * q)
  | Fin p, PInf | PInf, Fin p =>
      if Qeq_bool p 0 then NaN else if Qltb 0 p then PInf else NInf
  | Fin p, NInf | NInf, Fin p =>
      if Qeq_bool p 0 then NaN else if Qltb 0 p then NInf else PInf
  | PInf, PInf | NInf, NInf => PInf
  | PInf, NInf | NInf, PInf => NInf
  end.

(** NumPy division: a zero divisor gives [nan] or an infinity, no
    exception. *)
Definition div (a b : xnum) : xnum :=
  match a, b with
  | NaN, _ | _, NaN => NaN
  | Fin p, Fin q =>
      if Qeq_bool q 0
      then (if Qeq_bool p 0 then NaN else if Qltb 0 p then PInf else NInf)
      else Fin (p / q)
  | Fin _, (PInf | NInf) => Fin 0
  | (PInf | NInf), (PInf | NInf) => NaN
  | PInf, Fin q => if Qltb q 0 then NInf else PInf
  | NInf, Fin q => if Qltb q 0 then PInf else NInf
  end.

Definition abs (a : xnum) : xnum :=
  match a with
  | Fin q => Fin (Qabs q)
  | PInf | NInf => PInf
  | NaN => NaN
  end.

(** [a < b], [a <= b], [a == b]; every comparison with [nan] is false. *)
Definition ltb (a b : xnum) : bool :=
  match a, b with
  | NaN, _ | _, NaN => false
  | Fin p, Fin q => Qltb p q
  | _, NInf => false
  | NInf, _ => true
  | PInf, _ => false
  | Fin _, PInf => true
  end.

Definition eqb (a b : xnum) : bool :=
  match a, b with
  | Fin p, Fin q => Qeq_bool p q
  | PInf, PInf | NInf, NInf => true
  | _, _ => false
  end.

Definition leb (a b : xnum) : bool := ltb a b || eqb a b.

(** Equality of two stored values as [dict.__eq__] sees it: identical
    objects are equal, so a stored [nan] equals itself. *)
Definition same (a b : xnum) : bool :=
  match a, b with
  | NaN, NaN => true
  | _, _ => eqb a b
  end.

Definition sum (l : list xnum) : xnum := fold_left add l (Fin 0).

End X.

(** ** The cutoff chosen by [QueryConvexHull.__init__] (lines 31-38) *)

Inductive pyval : Type :=
| PyNone
| PyNum (q : Q).

(** [args.get(key)]: [None] for an absent key. *)
Definition args_get (args : gmap string pyval) (key : string) : pyval :=
  default PyNone (args !! key).

Definition K2eV : Q := 8.61733e-5.

Definition init_hull_cutoff (args : gmap string pyval) : Q :=
  match args_get args "hull_temp" with
  | PyNum t => t * K2eV
  | PyNone =>
      match args_get args "hull_cutoff" with
      | PyNum c => c
      | PyNone => 0
      end
  end.

(** A positive explicit chemical potential is negated (lines 40-46). *)
Definition init_chem_pots (chempots : option (list Q)) : option (list Q) :=
  option_map (map (fun pot => if Qltb 0 pot then -1 * pot else pot)) chempots.

(** ** Structure records

    A record of the query cursor is a Python dictionary.  The keys read by
    the hull code are fields; the keys the hull code adds ([enthalpy_per_b],
    [stoich], [num_a], [hull_distance], [capacity]) are optional fields, and
    reading an absent one is a [KeyError]. *)

Record doc : Type := mkDoc {
  text_id : string * string;
  stoichiometry : list (string * Z);
  num_fu : Z;
  enthalpy : Q;
  enthalpy_per_atom : Q;
  enthalpy_per_b : option Q;
  stoich : option Q;
  num_a : option xnum;
  hull_distance : option xnum;
  capacity : option xnum
}.

Definition set_enthalpy_per_b (v : Q) (d : doc) : doc :=
  mkDoc (text_id d) (stoichiometry d) (num_fu d) (enthalpy d) (enthalpy_per_atom d)
        (Some v) (stoich d) (num_a d) (hull_distance d) (capacity d).
Definition set_stoich (v : Q) (d : doc) : doc :=
  mkDoc (text_id d) (stoichiometry d) (num_fu d) (enthalpy d) (enthalpy_per_atom d)
        (enthalpy_per_b d) (Some v) (num_a d) (hull_distance d) (capacity d).
Definition set_num_a (v : xnum) (d : doc) : doc :=
  mkDoc (text_id d) (stoichiometry d) (num_fu d) (enthalpy d) (enthalpy_per_atom d)
        (enthalpy_per_b d) (stoich d) (Some v) (hull_distance d) (capacity d).
Definition set_hull_distance (v : xnum) (d : doc) : doc :=
  mkDoc (text_id d) (stoichiometry d) (num_fu d) (enthalpy d) (enthalpy_per_atom d)
        (enthalpy_per_b d) (stoich d) (num_a d) (Some v) (capacity d).
Definition set_capacity (v : xnum) (d : doc) : doc :=
  mkDoc (text_id d) (stoichiometry d) (num_fu d) (enthalpy d) (enthalpy_per_atom d)
        (enthalpy_per_b d) (stoich d) (num_a d) (hull_distance d) (Some v).

(** Python-level float division: a zero divisor raises. *)
Definition py_div (a b : Q) : result Q :=
  if Qeq_bool b 0 then Raise ZeroDivisionError else Ok (a / b).

(** [s1 in s2] on strings: substring test. *)
Definition py_in (s1 s2 : string) : bool :=
  match String.index 0 s1 s2 with
  | Some _ => true
  | None => false
  end.

(** ** [get_chempots] (lines 89-147)

    [repo_find elem] stands for the first record of the database query
    for single-element structures of [elem], sorted by ascending
    [enthalpy_per_atom]; [None] when the query is empty. *)

Definition custom_chempot (elem : string) (mu : Q) : doc :=
  mkDoc ("command", "line")%string [(elem, 1%Z)] 1 mu mu None None None None None.

Definition get_chempots (repo_find : string -> option doc)
    (chem_pots : option (list Q)) (elements : list string) : result (doc * doc) :=
  match chem_pots with
  | Some pots =>
      let* p0 := of_option IndexError (pots !! 0%nat) in
      let* e0 := of_option IndexError (elements !! 0%nat) in
      let* p1 := of_option IndexError (pots !! 1%nat) in
      let* e1 := of_option IndexError (elements !! 1%nat) in
      Ok (custom_chempot e0 p0, custom_chempot e1 p1)
  | None =>
      let* ms := map_result (fun elem => of_option SystemExit (repo_find elem)) elements in
      match ms with
      | [m0; m1] => Ok (m0, m1)
      | _ => Raise IndexError
      end
  end.

(** ** [binary_hull], first loop (lines 176-210): one cursor record *)

Record row : Type := mkRow {
  r_doc : doc;        (* the record, with the keys added by the loop *)
  r_enthalpy : Q;     (* enthalpy[ind] *)
  r_formation : Q;    (* formation[ind] *)
  r_stoich : Q        (* stoich[ind] *)
}.

(** The element of a chemical potential: [mu['stoichiometry'][0][0]]. *)
Definition mu_elem (mu : doc) : result string :=
  let* e := of_option IndexError (stoichiometry mu !! 0%nat) in Ok (fst e).

(** [for j in range(len(doc['stoichiometry']))]: subtract the share of [mu]. *)
Definition subtract_mu (atoms_per_fu : Z) (st : list (string * Z))
    (formation : Q) (mu : doc) : result Q :=
  fold_result (fun f (e : string * Z) =>
           let* m := mu_elem mu in
           if String.eqb m (fst e)
           then let* share := py_div (enthalpy_per_atom mu * inject_Z (snd e))
                                     (inject_Z atoms_per_fu) in
                Ok (f - share)
           else Ok f)
        st formation.

(** [for elem in doc['stoichiometry']: if x_elem in elem[0]: ...] *)
Definition annotate_stoich (x_elem : string) (atoms_per_fu : Z)
    (acc : Q * doc) (elem : string * Z) : result (Q * doc) :=
  if py_in x_elem (fst elem)
  then let* s := py_div (inject_Z (snd elem)) (inject_Z atoms_per_fu) in
       Ok (s, set_num_a (X.div (Fin s) (Fin (1 - s))) (set_stoich s (snd acc)))
  else Ok acc.

Definition process_doc (x_elem one_minus_x_elem : string) (mus : list doc)
    (d : doc) : result row :=
  let st := stoichiometry d in
  let* e0 := of_option IndexError (st !! 0%nat) in
  let* e1 := of_option IndexError (st !! 1%nat) in
  let atoms_per_fu := (snd e0 + snd e1)%Z in
  let* num_b :=
    if String.eqb (fst e0) one_minus_x_elem then Ok (snd e0)
    else if String.eqb (fst e1) one_minus_x_elem then Ok (snd e1)
    else Raise SystemExit in
  let* enth := py_div (enthalpy d) (inject_Z (num_b * num_fu d)) in
  let d1 := set_enthalpy_per_b enth d in
  let* formation := fold_result (subtract_mu atoms_per_fu st) mus (enthalpy_per_atom d) in
  let* sd := fold_result (annotate_stoich x_elem atoms_per_fu) st (0, d1) in
  Ok (mkRow (snd sd) enth formation (fst sd)).

(** ** Library primitives used by the second half of [binary_hull] *)

(** NumPy/Python indexing [a[i]]: a negative index counts from the end. *)
Definition np_index {A} (a : list A) (i : Z) : result A :=
  let n := Z.of_nat (length a) in
  if (0 <=? i)%Z
  then of_option IndexError (a !! Z.to_nat i)
  else if (- n <=? i)%Z
       then of_option IndexError (a !! Z.to_nat (n + i))
       else Raise IndexError.

(** [bisect.bisect_left(a, x)]: binary search for the leftmost insertion
    point.  [fuel] bounds the number of halvings; [hi - lo] suffices. *)
Fixpoint bisect_loop (fuel : nat) (a : list Q) (x : Q) (lo hi : nat) : nat :=
  match fuel with
  | O => lo
  | S fuel' =>
      if (lo <? hi)%nat
      then let mid := ((lo + hi) / 2)%nat in
           if Qltb (nth mid a 0) x
           then bisect_loop fuel' a x (S mid) hi
           else bisect_loop fuel' a x lo mid
      else lo
  end.

Definition bisect_left (a : list Q) (x : Q) : nat :=
  bisect_loop (length a) a x 0 (length a).

(** [np.argsort(a)]: the indices that sort [a], by insertion of
    (key, index) pairs; equal keys keep their order. *)
Fixpoint insert_key (p : Q * nat) (l : list (Q * nat)) : list (Q * nat) :=
  match l with
  | [] => [p]
  | q :: l' => if Qltb (fst p) (fst q) then p :: q :: l' else q :: insert_key p l'
  end.

Definition argsort (a : list Q) : list nat :=
  map snd (fold_left (fun acc p => insert_key p acc)
                     (combine a (seq 0 (length a))) []).

(** Fancy indexing [a[idx]] with an index array. *)
Definition gather (a : list Q) (idx : list nat) : list Q :=
  map (fun i => nth i a 0) idx.

(** ** [binary_hull], distance of one point to the hull (lines 249-259) *)

Definition hull_dist_at (hull_comp hull_energy : list Q) (p : Q * Q) : result xnum :=
  let i := Z.of_nat (bisect_left hull_comp (fst p)) in
  let* e0 := np_index hull_energy (i - 1) in
  let* e1 := np_index hull_energy i in
  let* c0 := np_index hull_comp (i - 1) in
  let* c1 := np_index hull_comp i in
  let gradient := X.div (Fin (e1 - e0)) (Fin (c1 - c0)) in
  let intercept :=
    X.div (X.sub (Fin (e1 + e0)) (X.mul gradient (Fin (c1 + c0)))) (Fin 2) in
  Ok (X.sub (Fin (snd p)) (X.add (X.mul gradient (Fin (fst p))) intercept)).

(** ** [binary_hull] (lines 149-345)

    [ConvexHull] stands for [scipy.spatial.ConvexHull(structures).vertices]:
    the indices of the hull vertices, or [QhullError].  The arrays that only
    feed the plots and the volume curve ([volume], [source_ind], [info],
    [stable_energy], [stable_vol], [stable_hull_dist]) are left out. *)

Record hull : Type := mkHull {
  cursor : list doc;                 (* self.cursor, annotated *)
  chempots : doc * doc;              (* self.match, annotated *)
  mu_enthalpy : Q * Q;
  structures : list (Q * Q);         (* rows (stoich, formation) *)
  vertices : list nat;               (* self.hull.vertices *)
  hull_comp : list Q;
  hull_energy : list Q;
  hull_dist : list xnum;
  hull_cursor : list doc;
  stable_comp : list Q;
  stable_enthalpy_per_b : list Q
}.

Definition annotate_chempot (na : xnum) (mu : doc) : doc :=
  set_num_a na (set_enthalpy_per_b (enthalpy_per_atom mu) (set_hull_distance (Fin 0) mu)).

(** [for ind in range(1, len(hull_dist)-1)]: records within the cutoff. *)
Definition near_hull (hull_cutoff : Q) (dcs : list (xnum * doc)) : list doc :=
  map (fun dc => set_hull_distance (fst dc) (snd dc))
      (filter (fun dc => X.leb (fst dc) (Fin (hull_cutoff + 1e-12)) = true) dcs).

(** The cursor after the loop: [hull_distance] is set on the kept records. *)
Definition mark_cursor (hull_cutoff : Q) (dcs : list (xnum * doc)) : list doc :=
  map (fun dc => if X.leb (fst dc) (Fin (hull_cutoff + 1e-12))
                 then set_hull_distance (fst dc) (snd dc) else snd dc) dcs.

Definition binary_hull_body (ConvexHull : list (Q * Q) -> result (list nat))
    (hull_cutoff : Q) (x_elem one_minus_x_elem : string)
    (mus : doc * doc) (cur : list doc) : result hull :=
  let mu_enth := (enthalpy_per_atom (fst mus), enthalpy_per_atom (snd mus)) in
  let* rows := map_result (process_doc x_elem one_minus_x_elem [fst mus; snd mus]) cur in
  let formation := [0] ++ map r_formation rows ++ [0] in
  let enth := [snd mu_enth] ++ map r_enthalpy rows ++ [fst mu_enth] in
  let stoich_arr := [0] ++ map r_stoich rows ++ [1] in
  let structs := combine stoich_arr formation in
  let* verts := ConvexHull structs in
  let* sel :=
    fold_result (fun acc v =>
             let* s := of_option IndexError (structs !! v) in
             if Qle_bool (snd s) 0
             then let* h := of_option IndexError (enth !! v) in
                  Ok (acc ++ [(snd s, h, fst s)])
             else Ok acc)
          verts [] in
  let hull_energy0 := map (fun t => fst (fst t)) sel in
  let hull_enthalpy0 := map (fun t => snd (fst t)) sel in
  let hull_comp0 := map snd sel in
  let hull_energy1 := gather hull_energy0 (argsort hull_comp0) in
  let hull_enthalpy1 := gather hull_enthalpy0 (argsort hull_comp0) in
  let hull_comp1 := gather hull_comp0 (argsort hull_comp0) in
  let* dist := map_result (hull_dist_at hull_comp1 hull_energy1) structs in
  let match0 := annotate_chempot PInf (fst mus) in
  let match1 := annotate_chempot (Fin 0) (snd mus) in
  let inner := combine (removelast (tl dist)) (map r_doc rows) in
  let hull_cur := [match1] ++ near_hull hull_cutoff inner ++ [match0] in
  Ok (mkHull (mark_cursor hull_cutoff inner) (match0, match1) mu_enth structs verts
             hull_comp1 hull_energy1 dist hull_cur
             (gather hull_comp1 (argsort hull_comp1))
             (gather hull_enthalpy1 (argsort hull_comp1))).

(** The entry point: the composition must name exactly two elements;
    otherwise the method returns without building anything. *)
Definition binary_hull (ConvexHull : list (Q * Q) -> result (list nat))
    (repo_find : string -> option doc) (chem_pots : option (list Q))
    (hull_cutoff : Q) (elements : list string) (cur : list doc)
    : result (option hull) :=
  match elements with
  | [x_elem; one_minus_x_elem] =>
      let* mus := get_chempots repo_find chem_pots elements in
      let* h := binary_hull_body ConvexHull hull_cutoff x_elem one_minus_x_elem mus cur in
      Ok (Some h)
  | _ => Ok None
  end.

(** ** [voltage_curve] (lines 347-370)

    [get_capacities] and [get_molar_mass] live in [chem_utils], outside the
    files at hand; they are parameters of the model. *)

(** The outcome of a loop that is run for a bounded number of passes. *)
Inductive outcome (A : Type) : Type :=
| Exited (a : A)       (* the loop was left *)
| Crashed (e : exn)    (* an exception or exit() *)
| Running (a : A).     (* still looping after the given number of passes *)
Arguments Exited {A} a.
Arguments Crashed {A} e.
Arguments Running {A} a.

Section Curves.

Variable get_capacities : xnum -> Q -> xnum.
Variable get_molar_mass : string -> Q.

Record curve : Type := mkCurve {
  voltages : list xnum;
  curve_x : list Q;
  curve_Q : list xnum
}.

(** The first loop: [stable_num], with [1e5] standing in at composition 1. *)
Definition stable_num_of (c : Q) : Q :=
  if Qeq_bool (1 - c) 0 then 1e5 else c / (1 - c).

(** One pass of the second loop, at index [i]. *)
Definition voltage_at (stable_enthalpy_per_b stable_num : list Q) (mu0 : Q)
    (i : nat) : result (xnum * Q) :=
  let* e1 := of_option IndexError (stable_enthalpy_per_b !! i) in
  let* e0 := of_option IndexError (stable_enthalpy_per_b !! (i - 1)%nat) in
  let* n1 := of_option IndexError (stable_num !! i) in
  let* n0 := of_option IndexError (stable_num !! (i - 1)%nat) in
  Ok (X.add (X.div (X.opp (Fin (e1 - e0))) (Fin (n1 - n0))) (Fin mu0), n1).

Definition voltage_curve (stable_enthalpy_per_b stable_comp : list Q)
    (mu_enthalpy : Q * Q) (elements : list string) : result curve :=
  let stable_num := map stable_num_of stable_comp in
  (* range(len(stable_num)-1, 0, -1) *)
  let idx := rev (seq 1 (length stable_num - 1)) in
  let* vx := map_result (voltage_at stable_enthalpy_per_b stable_num (fst mu_enthalpy)) idx in
  let V := map fst vx in
  let x := map snd vx in
  let* v_last := of_option IndexError (last V) in       (* V[-1] *)
  let V := V ++ [v_last] in
  let x := x ++ [0] in
  let* elem_b := of_option IndexError (elements !! 1%nat) in
  Ok (mkCurve V x (map (fun n => get_capacities (Fin n) (get_molar_mass elem_b)) x)).

(** ** [metastable_voltage_profile] (lines 372-479) *)

(** [np.random.randint(0, n)]: the draws come from a stream. *)
Record rng : Type := mkRng { draws : nat -> nat; pos : nat }.

Definition randint (n : nat) (g : rng) : result (nat * rng) :=
  if (n =? 0)%nat then Raise ValueError
  else Ok ((draws g (pos g) mod n)%nat, mkRng (draws g) (S (pos g))).

(** Dictionary equality, as used by [list.index]. *)
Definition option_eqb {A} (eqb : A -> A -> bool) (a b : option A) : bool :=
  match a, b with
  | Some x, Some y => eqb x y
  | None, None => true
  | _, _ => false
  end.

Fixpoint stoichiometry_eqb (a b : list (string * Z)) : bool :=
  match a, b with
  | [], [] => true
  | (e, n) :: a', (e', n') :: b' =>
      String.eqb e e' && (n =? n')%Z && stoichiometry_eqb a' b'
  | _, _ => false
  end.

Definition doc_eqb (a b : doc) : bool :=
  String.eqb (fst (text_id a)) (fst (text_id b))
  && String.eqb (snd (text_id a)) (snd (text_id b))
  && stoichiometry_eqb (stoichiometry a) (stoichiometry b)
  && (num_fu a =? num_fu b)%Z
  && Qeq_bool (enthalpy a) (enthalpy b)
  && Qeq_bool (enthalpy_per_atom a) (enthalpy_per_atom b)
  && option_eqb Qeq_bool (enthalpy_per_b a) (enthalpy_per_b b)
  && option_eqb Qeq_bool (stoich a) (stoich b)
  && option_eqb X.same (num_a a) (num_a b)
  && option_eqb X.same (hull_distance a) (hull_distance b)
  && option_eqb X.same (capacity a) (capacity b).

(** [l.index(d)] *)
Fixpoint index_of (d : doc) (l : list doc) : result nat :=
  match l with
  | [] => Raise ValueError
  | d' :: l' => if doc_eqb d' d then Ok O else let* i := index_of d l' in Ok (S i)
  end.

(** [pick_metastable_structure]: [fuel] is the number of draws left
    before [count > 1000]. *)
Fixpoint pick_loop (fuel : nat) (structs : list doc) (last : doc) (g : rng)
    : result (doc * rng) :=
  match fuel with
  | O => Raise SystemExit
  | S fuel' =>
      let* ig := randint (length structs) g in
      let* test := of_option IndexError (structs !! fst ig) in
      let* na_test := of_option KeyError (num_a test) in
      let* na_last := of_option KeyError (num_a last) in
      if X.ltb na_test na_last then Ok (test, snd ig)
      else pick_loop fuel' structs last (snd ig)
  end.

Definition pick_metastable_structure (structs : list doc) (last : doc) (g : rng)
    : result (doc * rng) :=
  pick_loop 1000 structs last g.

Definition get_voltage_profile_segment (mu0 : Q) (structure_new structure_old : doc)
    : result xnum :=
  let* e_new := of_option KeyError (enthalpy_per_b structure_new) in
  let* e_old := of_option KeyError (enthalpy_per_b structure_old) in
  let* n_new := of_option KeyError (num_a structure_new) in
  let* n_old := of_option KeyError (num_a structure_old) in
  let V := X.add (X.div (X.opp (Fin (e_new - e_old))) (X.sub n_new n_old)) (Fin mu0) in
  Ok (if X.eqb n_old PInf then Fin 0 else V).

(** [interp_steps]: each sample overwrites the grid points at or below
    its abscissa. *)
Definition interp_steps (xspace : list Q) (xy : list (xnum * xnum)) : list xnum :=
  fold_left (fun yspace s =>
               map (fun gy => if X.leb (Fin (fst gy)) (fst s) then snd s else snd gy)
                   (combine xspace yspace))
            xy (map (fun _ => Fin 0) xspace).

(** The inner loop [while not delithiated]. *)
Record path_state : Type := mkPath {
  prev : doc;
  path_structures : list doc;
  voltage_profile : list (xnum * xnum);
  visited : list doc;   (* ghost: the structures accepted so far, in order *)
  gen : rng
}.

(** One pass; [inl] when the path goes on, [inr] once delithiated. *)
Definition path_step (mu0 : Q) (s : path_state) : result (path_state + path_state) :=
  let* ng := pick_metastable_structure (path_structures s) (prev s) (gen s) in
  let next := fst ng in
  let* idx := index_of next (path_structures s) in
  let rest := take idx (path_structures s) in
  let* n_prev := of_option KeyError (num_a (prev s)) in
  let* vp :=
    if negb (X.eqb n_prev PInf)
    then let* c := of_option KeyError (capacity next) in
         let* v := get_voltage_profile_segment mu0 next (prev s) in
         Ok (voltage_profile s ++ [(c, v)])
    else Ok (voltage_profile s) in
  let* n_next := of_option KeyError (num_a next) in
  if X.eqb n_next (Fin 0)
  then Ok (inr (mkPath (prev s) rest vp (visited s ++ [next]) (snd ng)))
  else Ok (inl (mkPath next rest vp (visited s ++ [next]) (snd ng))).

Lemma index_of_lt d l i : index_of d l = Ok i -> (i < length l)%nat.
Proof.
  revert i. induction l as [|d' l IH]; intros i; simpl; [discriminate|].
  destruct (doc_eqb d' d).
  - intros [= <-]. lia.
  - destruct (index_of d l) as [j|e]; simpl; [|discriminate].
    intros [= <-]. specialize (IH j eq_refl). lia.
Qed.

(** Every pass shortens [path_structures]: the loop ends. *)
Lemma path_step_shrinks mu0 s s' :
  path_step mu0 s = Ok (inl s') ->
  (length (path_structures s') < length (path_structures s))%nat.
Proof.
  unfold path_step.
  destruct (pick_metastable_structure _ _ _) as [[next g']|e]; simpl; [|discriminate].
  destruct (index_of next (path_structures s)) as [idx|e] eqn:Hidx; simpl; [|discriminate].
  apply index_of_lt in Hidx.
  destruct (num_a (prev s)) as [n_prev|]; simpl; [|discriminate].
  destruct (if negb (X.eqb n_prev PInf) then _ else _) as [vp|e]; simpl; [|discriminate].
  destruct (num_a next) as [n_next|]; simpl; [|discriminate].
  destruct (X.eqb n_next (Fin 0)); [discriminate|].
  intros [= <-]. simpl. rewrite length_take. lia.
Qed.

Definition inspect {A} (a : A) : {b : A | a = b} := exist _ a eq_refl.

Equations? path_loop (mu0 : Q) (s : path_state) : result path_state
    by wf (length (path_structures s)) lt :=
  path_loop mu0 s with inspect (path_step mu0 s) := {
    | exist _ (Raise e) _ => Raise e
    | exist _ (Ok (inr s')) _ => Ok s'
    | exist _ (Ok (inl s')) Hstep => path_loop mu0 s' }.
Proof. exact (path_step_shrinks _ _ _ Hstep). Qed.

(** One sampled path: from the reference cathode through a fresh copy of
    the candidate list. *)
Definition sample_path (mu0 : Q) (reference_cathode : doc) (structs : list doc)
    (g : rng) : result path_state :=
  path_loop mu0 (mkPath reference_cathode structs [] [] g).

(** The outer loop [while not converged] (lines 443-479). *)
Definition num_divisions : nat := 100.
Definition convergence_window : nat := 3.
Definition tolerance : Q := 1e-9 * inject_Z (Z.of_nat num_divisions).

(** [np.linspace(0, 2000, num_divisions)] *)
Definition capacity_space : list Q :=
  map (fun k => inject_Z (Z.of_nat k) * (2000 / inject_Z (Z.of_nat (num_divisions - 1))))
      (seq 0 num_divisions).

Record sampler_state : Type := mkSampler {
  running_average_profile : list xnum;
  advanced_average_profile : list xnum;
  diff_average_profile : list xnum;
  all_voltage_profiles : list (list (xnum * xnum));
  converged : bool;
  last_converged : bool;
  num_contribs : nat;
  num_converged : nat;
  sgen : rng
}.

Definition nat_x (n : nat) : xnum := Fin (inject_Z (Z.of_nat n)).

(** One pass of the outer loop; [inr] when the loop is left. *)
Definition sampler_iter (num_trials : nat) (mu0 : Q) (reference_cathode : doc)
    (structs : list doc) (s : sampler_state)
    : result (sampler_state + sampler_state) :=
  let hit := X.ltb (X.sum (map X.abs (diff_average_profile s))) (Fin tolerance) in
  if hit && (convergence_window <? num_converged s)%nat
  then Ok (inr (mkSampler (running_average_profile s) (advanced_average_profile s)
                          (diff_average_profile s) (all_voltage_profiles s)
                          true (last_converged s) (num_contribs s) (num_converged s)
                          (sgen s)))
  else
    let lc1 := if hit then true else last_converged s in
    let nc1 := if hit
               then S (if last_converged s then num_converged s else 1%nat)
               else num_converged s in
    if (num_trials <? num_contribs s)%nat
    then Ok (inr (mkSampler (running_average_profile s) (advanced_average_profile s)
                            (diff_average_profile s) (all_voltage_profiles s)
                            false lc1 (num_contribs s) nc1 (sgen s)))
    else
      let* p := sample_path mu0 reference_cathode structs (sgen s) in
      match voltage_profile p with
      | [] =>
          Ok (inl (mkSampler (running_average_profile s) (advanced_average_profile s)
                             (diff_average_profile s) (all_voltage_profiles s)
                             false lc1 (num_contribs s) nc1 (gen p)))
      | vp =>
          let adv := map (fun ab => X.add (fst ab) (snd ab))
                         (combine (advanced_average_profile s)
                                  (interp_steps capacity_space vp)) in
          let n := S (num_contribs s) in
          let avg := map (fun a => X.div a (nat_x n)) adv in
          let diff := map (fun ab => X.sub (fst ab) (snd ab))
                          (combine avg (running_average_profile s)) in
          Ok (inl (mkSampler avg adv diff (all_voltage_profiles s ++ [vp])
                             false lc1 n nc1 (gen p)))
      end.

Fixpoint sampler_loop (fuel : nat) (num_trials : nat) (mu0 : Q)
    (reference_cathode : doc) (structs : list doc) (s : sampler_state)
    : outcome sampler_state :=
  match fuel with
  | O => Running s
  | S fuel' =>
      match sampler_iter num_trials mu0 reference_cathode structs s with
      | Raise e => Crashed e
      | Ok (inr s') => Exited s'
      | Ok (inl s') => sampler_loop fuel' num_trials mu0 reference_cathode structs s'
      end
  end.

(** [np.max] of a list of floats; [None] stands for an empty list. *)
Definition np_max (l : list xnum) : result xnum :=
  match l with
  | [] => Raise ValueError
  | a :: l' => Ok (fold_left (fun m b => if X.ltb m b then b else m) l' a)
  end.

Definition num_trials_default : nat := 100000.

(** The sampler, run for at most [fuel] passes of its outer loop. *)
Definition metastable_voltage_profile (fuel : nat) (hull_cur : list doc)
    (mu_enth : Q * Q) (elements : list string) (g : rng)
    : outcome sampler_state :=
  match
    (let* elem_b := of_option IndexError (elements !! 1%nat) in
     let* structs :=
       map_result (fun d => let* na := of_option KeyError (num_a d) in
                      Ok (set_capacity (get_capacities na (get_molar_mass elem_b)) d))
            (removelast hull_cur) in
     let* guest_atoms := map_result (fun d => of_option KeyError (num_a d)) structs in
     let* max_guest := np_max guest_atoms in
     let* reference_cathode := of_option IndexError (last hull_cur) in
     Ok (structs, reference_cathode))
  with
  | Raise e => Crashed e
  | Ok (structs, reference_cathode) =>
      let zeros := map (fun _ => Fin 0) capacity_space in
      let ones := map (fun _ => Fin 1) capacity_space in
      sampler_loop fuel num_trials_default (fst mu_enth) reference_cathode structs
                   (mkSampler zeros zeros ones [] false false 0 0 g)
  end.

End Curves.

(** ** [volume_curve] (lines 497-512)

    The last stable point (pure A) is dropped from both arrays; the rest is
    converted to [num_a] and paired with its volume. *)
Definition volume_curve (stable_comp stable_vol : list Q) : result (list xnum * list Q) :=
  let comp := removelast stable_comp in
  let vol := removelast stable_vol in
  let* xv := map_result (fun i => let* c := of_option IndexError (comp !! i) in
                                  let* v := of_option IndexError (vol !! i) in
                                  Ok (X.div (Fin c) (Fin (1 - c)), v))
                        (seq 0 (length comp)) in
  Ok (map fst xv, map snd xv).

(** ** The lower hull

    [binary_hull] relies on SciPy for the hull itself.  What the rest of the
    method needs is that the vertices with non-positive energy, in
    order of composition, are the lower hull of the point set: compositions
    increase strictly along the chain, the chain spans every composition of
    the set, and the line through two neighbours of the chain leaves no
    point of the set below it.  [lower_hull_ok] decides this. *)

(** Twice the signed area of the triangle [a b p]: non-negative exactly when
    [p] is on or above the line from [a] to [b] (for [a] left of [b]). *)
Definition line_gap (a b p : Q * Q) : Q :=
  (fst b - fst a) * (snd p - snd a) - (snd b - snd a) * (fst p - fst a).

Fixpoint strictly_increasing (l : list Q) : bool :=
  match l with
  | a :: (b :: _) as t => Qltb a b && strictly_increasing t
  | _ => true
  end.

Fixpoint edges {A} (l : list A) : list (A * A) :=
  match l with
  | a :: (b :: _) as t => (a, b) :: edges t
  | _ => []
  end.

Definition spans (chain : list (Q * Q)) (p : Q * Q) : bool :=
  match chain with
  | [] => false
  | a :: _ => Qle_bool (fst a) (fst p) && Qle_bool (fst p) (fst (List.last chain a))
  end.

Definition lower_hull_ok (pts chain : list (Q * Q)) : bool :=
  strictly_increasing (map fst chain)
  && forallb (fun p => spans chain p
                       && forallb (fun e => Qle_bool 0 (line_gap (fst e) (snd e) p))
                                  (edges chain))
             pts.

(** The chain that [binary_hull] extracted. *)
Definition hull_chain (h : hull) : list (Q * Q) :=
  combine (hull_comp h) (hull_energy h).

(** ** The contract of the hull routine, on its output

    For points in the plane, [scipy.spatial.ConvexHull(points).vertices]
    holds the indices of the vertices of the convex hull in counterclockwise
    order.  [ccw_hull_ok pts verts] decides that [verts] is such a list for
    [pts]: at least three valid indices; every point of the set is on or to
    the left of every edge, which runs from a vertex to the next one in the
    list and from the last to the first; every other vertex is strictly to
    the left of it.  That the vertices [binary_hull] keeps and sorts are
    then the lower hull ([lower_hull_ok]) is proved below. *)

(** The position after [k] in a cycle of length [m], and the one before. *)
Definition cnext (m k : nat) : nat := if (S k =? m)%nat then 0%nat else S k.

Definition cprev (m k : nat) : nat :=
  match k with O => (m - 1)%nat | S k' => k' end.

Definition ccw_hull_ok (pts : list (Q * Q)) (verts : list nat) : bool :=
  let m := length verts in
  let q := fun k => nth (nth k verts 0%nat) pts (0, 0) in
  (3 <=? m)%nat
  && forallb (fun v => (v <? length pts)%nat) verts
  && forallb (fun k =>
                forallb (fun p => Qle_bool 0 (line_gap (q k) (q (cnext m k)) p)) pts
                && forallb (fun j => (j =? k)%nat || (j =? cnext m k)%nat
                                     || Qltb 0 (line_gap (q k) (q (cnext m k)) (q j)))
                           (seq 0 m))
             (seq 0 m).

(** A cursor record that is a compound of both elements: two stoichiometry
    entries with positive counts, one named exactly as the second element,
    the other matched by the first element, which does not match the name
    of the second. *)
Definition binary_compound (x_elem one_minus_x_elem : string) (d : doc) : Prop :=
  exists ea na nb,
    (stoichiometry d = [(ea, na); (one_minus_x_elem, nb)]
     \/ stoichiometry d = [(one_minus_x_elem, nb); (ea, na)])
    /\ py_in x_elem ea = true /\ py_in x_elem one_minus_x_elem = false
    /\ (0 < na)%Z /\ (0 < nb)%Z.

(** A planar hull routine with the interface of
    [scipy.spatial.ConvexHull(points).vertices] (monotone chain; vertex
    indices in counterclockwise order; degenerate input is an error).  It is
    used to run [binary_hull] on concrete inputs. *)
Module Qhull.

Definition pt : Type := (Q * Q) * nat.

Definition lex_ltb (p q : pt) : bool :=
  Qltb (fst (fst p)) (fst (fst q))
  || (Qeq_bool (fst (fst p)) (fst (fst q)) && Qltb (snd (fst p)) (snd (fst q))).

Fixpoint insert_pt (p : pt) (l : list pt) : list pt :=
  match l with
  | [] => [p]
  | q :: l' => if lex_ltb p q then p :: q :: l' else q :: insert_pt p l'
  end.

Definition sort_pts (l : list pt) : list pt :=
  fold_left (fun acc p => insert_pt p acc) l [].

(** Push [p] on the stack (top first), popping while the turn is not a
    strict left turn. *)
Fixpoint push (p : pt) (stk : list pt) : list pt :=
  match stk with
  | b :: ((a :: _) as rest) =>
      if Qle_bool (line_gap (fst a) (fst b) (fst p)) 0 then push p rest else p :: stk
  | _ => p :: stk
  end.

Definition half (l : list pt) : list pt :=
  rev (fold_left (fun stk p => push p stk) l []).

Definition convex_hull (points : list (Q * Q)) : result (list nat) :=
  let sorted := sort_pts (combine points (seq 0 (length points))) in
  let lower := half sorted in
  let upper := half (rev sorted) in
  let vs := map snd (removelast lower ++ removelast upper) in
  if (length vs <? 3)%nat then Raise QhullError else Ok vs.

End Qhull.

(** ** Concrete inputs

    A binary system A-B with elemental references A (-1 eV/atom) and
    B (-2 eV/atom) and three compounds; [repo_find] returns the elemental
    references; capacities follow the usual linear conversion. *)
Module Scenario.

Open Scope string_scope.

Definition mk (id : string) (st : list (string * Z)) (H Hpa : Q) : doc :=
  mkDoc (id, "1") st 1 H Hpa None None None None None.

Definition A_ref : doc := mk "A" [("A", 1%Z)] (-1) (-1).
Definition B_ref : doc := mk "B" [("B", 1%Z)] (-2) (-2).
Definition AB : doc := mk "AB" [("A", 1%Z); ("B", 1%Z)] (-4) (-2).
Definition AB_high : doc := mk "AB-high" [("A", 1%Z); ("B", 1%Z)] (-3.6) (-1.8).
Definition A2B : doc := mk "A2B" [("A", 2%Z); ("B", 1%Z)] (-5.1) (-1.7).
Definition unstable : doc := mk "AB-unstable" [("A", 1%Z); ("B", 1%Z)] (-2) (-1).

(** A record of the B-C system: it holds B but not A. *)
Definition CB : doc := mk "CB" [("C", 1%Z); ("B", 1%Z)] (-6) (-3).

Definition repo_find (elem : string) : option doc :=
  if String.eqb elem "A" then Some A_ref
  else if String.eqb elem "B" then Some B_ref
  else None.

Definition elements : list string := ["A"; "B"].

Definition get_capacities (n : xnum) (m : Q) : xnum :=
  X.div (X.mul n (Fin 26801)) (Fin m).
Definition get_molar_mass (_ : string) : Q := 10.

Definition empty_hull : hull :=
  mkHull [] (A_ref, B_ref) (0, 0) [] [] [] [] [] [] [] [].

Definition run (hull_cutoff : Q) (cur : list doc) : hull :=
  match binary_hull Qhull.convex_hull repo_find None hull_cutoff elements cur with
  | Ok (Some h) => h
  | _ => empty_hull
  end.

(** Scenario 1 of the specification: one compound. *)
Definition hull1 : hull := Eval vm_compute in run 0 [AB].

(** Three compounds, two of them off the hull, cutoff 0.3 eV. *)
Definition hull3 : hull := Eval vm_compute in run 0.3 [AB; AB_high; A2B].

(** A system without any compound on or near the hull. *)
Definition hull0 : hull := Eval vm_compute in run 0 [unstable].

(** The candidate list of the sampler for [hull3]. *)
Definition candidates (h : hull) : list doc :=
  map (fun d => match num_a d with
                | Some na => set_capacity (get_capacities na (get_molar_mass "B")) d
                | None => d
                end)
      (removelast (hull_cursor h)).

Definition reference (h : hull) : doc := List.last (hull_cursor h) A_ref.

Definition stream : rng := mkRng (fun n => n * 7 + 3)%nat 0.

(** The first path sampled for [hull3] from [stream]. *)
Definition start3 : path_state :=
  mkPath (reference hull3) (candidates hull3) [] [] stream.

Definition path3 : path_state :=
  Eval vm_compute in
    match sample_path (-1) (reference hull3) (candidates hull3) stream with
    | Ok p => p
    | Raise _ => start3
    end.

End Scenario.

(** * Properties *)

(** ** Generic facts about [result] *)

Ltac bind_inv H :=
  match type of H with
  | rbind ?m _ = Ok _ =>
      let E := fresh "E" in
      destruct m eqn:E; cbn [rbind] in H; [|discriminate H]
  end.

Lemma of_option_ok {A} (e : exn) (o : option A) (a : A) :
  of_option e o = Ok a -> o = Some a.
Proof. destruct o; simpl; congruence. Qed.

Lemma map_result_length {A B} (f : A -> result B) l r :
  map_result f l = Ok r -> length r = length l.
Proof.
  revert r. induction l as [|a l IH]; intros r H; simpl in H.
  - injection H as <-. reflexivity.
  - bind_inv H. bind_inv H. injection H as <-. simpl. f_equal. auto.
Qed.

Lemma map_result_lookup {A B} (f : A -> result B) l r i y :
  map_result f l = Ok r -> r !! i = Some y ->
  exists x, l !! i = Some x /\ f x = Ok y.
Proof.
  revert r i. induction l as [|a l IH]; intros r i H Hi; simpl in H.
  - injection H as <-. discriminate Hi.
  - bind_inv H. bind_inv H. injection H as <-.
    destruct i as [|i]; simpl in Hi.
    + injection Hi as <-. exists a. split; [reflexivity | assumption].
    + destruct (IH _ _ eq_refl Hi) as (x & Hx & Hf). exists x. split; assumption.
Qed.

Lemma map_result_Forall {A B} (f : A -> result B) l r :
  map_result f l = Ok r -> Forall (fun x => exists y, f x = Ok y) l.
Proof.
  revert r. induction l as [|a l IH]; intros r H; simpl in H; [constructor|].
  bind_inv H. bind_inv H. constructor; eauto.
Qed.

(** ** C8: the cutoff *)

(** C8.  When both [hull_cutoff] and [hull_temp] are supplied, the
    temperature wins and the cutoff is the temperature times the constant
    [K2eV], which is 8.61733e-5; when only [hull_cutoff] is supplied the
    cutoff is [hull_cutoff] itself. *)
Theorem hull_cutoff_precedence (args : gmap string pyval) (c : Q) :
  args !! "hull_cutoff"%string = Some (PyNum c) ->
  K2eV = 8.61733e-5 /\
  (forall t, args !! "hull_temp"%string = Some (PyNum t) ->
             init_hull_cutoff args = t * K2eV) /\
  (args_get args "hull_temp" = PyNone -> init_hull_cutoff args = c).
Proof.
  intros Hc. split; [reflexivity|]. split.
  - intros t Ht. unfold init_hull_cutoff, args_get. rewrite Ht. reflexivity.
  - intros Hn. unfold init_hull_cutoff. rewrite Hn.
    unfold args_get. rewrite Hc. reflexivity.
Qed.

Lemma hull_cutoff_precedence_witness :
  init_hull_cutoff (<["hull_temp"%string := PyNum 300]>
                      {["hull_cutoff"%string := PyNum 0.05]}) = 300 * K2eV
  /\ init_hull_cutoff {["hull_cutoff"%string := PyNum 0.05]} = 0.05.
Proof.
  split.
  - apply (hull_cutoff_precedence
             (<["hull_temp"%string := PyNum 300]> {["hull_cutoff"%string := PyNum 0.05]})
             0.05); reflexivity.
  - apply (hull_cutoff_precedence {["hull_cutoff"%string := PyNum 0.05]} 0.05);
      reflexivity.
Defined.

(** ** The shape of a successful [binary_hull] run *)

Lemma binary_hull_inv CH repo cp cutoff elements cur h :
  binary_hull CH repo cp cutoff elements cur = Ok (Some h) ->
  exists x_elem one_minus_x_elem mus,
    elements = [x_elem; one_minus_x_elem]
    /\ get_chempots repo cp elements = Ok mus
    /\ binary_hull_body CH cutoff x_elem one_minus_x_elem mus cur = Ok h.
Proof.
  unfold binary_hull.
  destruct elements as [|x [|b [|? ?]]]; try discriminate.
  intros H. bind_inv H. bind_inv H. injection H as <-.
  exists x, b, a. auto.
Qed.

Lemma gather_length a idx : length (gather a idx) = length idx.
Proof. unfold gather. apply length_map. Qed.

Lemma binary_hull_body_inv CH cutoff x_elem one_minus_x_elem mus cur h :
  binary_hull_body CH cutoff x_elem one_minus_x_elem mus cur = Ok h ->
  exists rows,
    map_result (process_doc x_elem one_minus_x_elem [fst mus; snd mus]) cur = Ok rows
    /\ structures h = combine ([0] ++ map r_stoich rows ++ [1])
                              ([0] ++ map r_formation rows ++ [0])
    /\ CH (structures h) = Ok (vertices h)
    /\ map_result (hull_dist_at (hull_comp h) (hull_energy h)) (structures h)
       = Ok (hull_dist h)
    /\ length (hull_comp h) = length (hull_energy h)
    /\ hull_cursor h
       = [annotate_chempot (Fin 0) (snd mus)]
         ++ near_hull cutoff (combine (removelast (tl (hull_dist h))) (map r_doc rows))
         ++ [annotate_chempot PInf (fst mus)]
    /\ mu_enthalpy h = (enthalpy_per_atom (fst mus), enthalpy_per_atom (snd mus)).
Proof.
  unfold binary_hull_body. intros H.
  bind_inv H. rename a into rows. bind_inv H. rename a into verts.
  bind_inv H. rename a into sel. bind_inv H. rename a into dist.
  injection H as <-. cbn [structures vertices hull_comp hull_energy hull_dist
                          hull_cursor mu_enthalpy].
  exists rows. repeat split; try assumption; try reflexivity.
  rewrite !gather_length. reflexivity.
Qed.

(** ** C10: the ends of [hull_cursor] *)

(** C10.  Whatever the input and the cutoff, the [hull_cursor] of a run of
    [binary_hull] starts with the chemical potential of element B, carrying
    [num_a = 0], [hull_distance = 0] and [enthalpy_per_b] equal to its
    [enthalpy_per_atom], and ends with the chemical potential of element A,
    carrying [num_a = +inf] and [hull_distance = 0]; that last record is the
    one the sampler takes as its reference cathode. *)
Theorem hull_cursor_ends CH repo cp cutoff elements cur h :
  binary_hull CH repo cp cutoff elements cur = Ok (Some h) ->
  exists mu_a mu_b mid,
    get_chempots repo cp elements = Ok (mu_a, mu_b)
    /\ hull_cursor h = annotate_chempot (Fin 0) mu_b :: mid ++ [annotate_chempot PInf mu_a]
    /\ head (hull_cursor h) = Some (annotate_chempot (Fin 0) mu_b)
    /\ last (hull_cursor h) = Some (annotate_chempot PInf mu_a)
    /\ (forall d, head (hull_cursor h) = Some d ->
          num_a d = Some (Fin 0) /\ hull_distance d = Some (Fin 0)
          /\ enthalpy_per_b d = Some (enthalpy_per_atom mu_b)
          /\ text_id d = text_id mu_b /\ stoichiometry d = stoichiometry mu_b)
    /\ (forall d, last (hull_cursor h) = Some d ->
          num_a d = Some PInf /\ hull_distance d = Some (Fin 0)
          /\ text_id d = text_id mu_a /\ stoichiometry d = stoichiometry mu_a).
Proof.
  intros H.
  destruct (binary_hull_inv _ _ _ _ _ _ _ H) as (x & b & [mu_a mu_b] & -> & Hmu & Hbody).
  destruct (binary_hull_body_inv _ _ _ _ _ _ _ Hbody)
    as (rows & _ & _ & _ & _ & _ & Hcur & _).
  cbn [fst snd] in Hcur.
  exists mu_a, mu_b,
    (near_hull cutoff (combine (removelast (tl (hull_dist h))) (map r_doc rows))).
  assert (Hlast : last (hull_cursor h) = Some (annotate_chempot PInf mu_a)).
  { rewrite Hcur. cbn [app]. rewrite app_comm_cons. apply last_snoc. }
  rewrite Hlast, Hcur. cbn [app head].
  split; [assumption|]. split; [reflexivity|]. split; [reflexivity|].
  split; [reflexivity|].
  split; intros d [= <-]; repeat split; reflexivity.
Qed.

(** ** The inner loop of the sampler *)

Lemma path_loop_step mu0 s :
  path_loop mu0 s =
  match path_step mu0 s with
  | Raise e => Raise e
  | Ok (inr s') => Ok s'
  | Ok (inl s') => path_loop mu0 s'
  end.
Proof.
  funelim (path_loop mu0 s).
  - rewrite Hstep. reflexivity.
  - rewrite e. reflexivity.
  - rewrite e1. reflexivity.
Qed.

(** An invariant kept by every pass holds before the last pass. *)
Lemma path_loop_inv mu0 (Inv : path_state -> Prop) :
  (forall s s', Inv s -> path_step mu0 s = Ok (inl s') -> Inv s') ->
  forall s p, Inv s -> path_loop mu0 s = Ok p ->
              exists s0, Inv s0 /\ path_step mu0 s0 = Ok (inr p).
Proof.
  intros Hkeep s. funelim (path_loop mu0 s); intros p HI Hp.
  - eapply H; eauto.
  - injection Hp as <-. eauto.
  - discriminate.
Qed.

(** [num_a] of the first record is strictly below [num_a] of the second. *)
Definition num_a_ltb (d1 d2 : doc) : bool :=
  match num_a d1, num_a d2 with
  | Some a, Some b => X.ltb a b
  | _, _ => false
  end.

Lemma pick_loop_accepts fuel l last g t g' :
  pick_loop fuel l last g = Ok (t, g') -> In t l /\ num_a_ltb t last = true.
Proof.
  revert g. induction fuel as [|fuel IH]; intros g H; simpl in H; [discriminate|].
  bind_inv H. destruct a as [i g1]. bind_inv H. rename a into test.
  bind_inv H. bind_inv H. cbn [fst snd] in *.
  destruct (X.ltb a a0) eqn:Hlt.
  - injection H as <- <-. split.
    + apply of_option_ok in E0. apply list_elem_of_In.
      eapply list_elem_of_lookup_2; eauto.
    + unfold num_a_ltb. apply of_option_ok in E1, E2. rewrite E1, E2. exact Hlt.
  - eauto.
Qed.

(** What one pass does to the state. *)
Lemma path_step_spec mu0 s r :
  path_step mu0 s = Ok r ->
  exists next s',
    (r = inl s' /\ prev s' = next \/ r = inr s')
    /\ (exists idx, path_structures s' = take idx (path_structures s))
    /\ In next (path_structures s)
    /\ num_a_ltb next (prev s) = true
    /\ visited s' = visited s ++ [next]
    /\ (forall n_prev, num_a (prev s) = Some n_prev ->
          if X.eqb n_prev PInf
          then voltage_profile s' = voltage_profile s
          else exists c v, capacity next = Some c
                 /\ get_voltage_profile_segment mu0 next (prev s) = Ok v
                 /\ voltage_profile s' = voltage_profile s ++ [(c, v)]).
Proof.
  unfold path_step. intros H.
  bind_inv H. destruct a as [next g']. cbn [fst snd] in H.
  apply pick_loop_accepts in E. destruct E as [Hin Hlt].
  bind_inv H. rename a into idx. bind_inv H. rename a into n_prev.
  apply of_option_ok in E0.
  bind_inv H. rename a into vp. bind_inv H. rename a into n_next.
  assert (Hvp : forall n, num_a (prev s) = Some n ->
            if X.eqb n PInf then vp = voltage_profile s
            else exists c v, capacity next = Some c
                   /\ get_voltage_profile_segment mu0 next (prev s) = Ok v
                   /\ vp = voltage_profile s ++ [(c, v)]).
  { intros n Hn. rewrite E0 in Hn. injection Hn as <-.
    destruct (X.eqb n_prev PInf); cbn [negb] in E1.
    - injection E1 as <-. reflexivity.
    - bind_inv E1. bind_inv E1. injection E1 as <-.
      apply of_option_ok in E3. eauto. }
  destruct (X.eqb n_next (Fin 0)); injection H as <-; eexists next, _;
    (split; [first [right; reflexivity | left; split; reflexivity]
            |split; [exists idx; reflexivity
                    |split; [exact Hin|split; [exact Hlt|split; [reflexivity|exact Hvp]]]]]).
Qed.

Lemma edges_snoc {A} (l : list A) (d x : A) :
  l <> [] -> edges (l ++ [x]) = edges l ++ [(List.last l d, x)].
Proof.
  induction l as [|a l IH]; intros Hne; [congruence|].
  destruct l as [|b l]; [reflexivity|].
  change (edges ((a :: b :: l) ++ [x])) with ((a, b) :: edges ((b :: l) ++ [x])).
  rewrite IH by discriminate. reflexivity.
Qed.

Lemma last_cons_self {A} (l : list A) (a : A) : List.last (a :: l) a = List.last l a.
Proof. destruct l; reflexivity. Qed.

(** A list of records whose [num_a] strictly decreases from each record to
    the next. *)
Definition strictly_decreasing_num_a (l : list doc) : Prop :=
  Forall (fun e => num_a_ltb (snd e) (fst e) = true) (edges l).

(** ** C4: a sampled path never increases [num_a] *)

(** C4.  Every structure accepted by [pick_metastable_structure] has a
    [num_a] strictly below the [num_a] of the structure accepted before it
    (the reference cathode for the first one): along a sampled discharge
    path, reference cathode first, [num_a] strictly decreases; the accepted
    structures all come from the candidate list. *)
Theorem path_strictly_decreasing mu0 reference_cathode structs g p :
  sample_path mu0 reference_cathode structs g = Ok p ->
  strictly_decreasing_num_a (reference_cathode :: visited p)
  /\ Forall (fun d => In d structs) (visited p).
Proof.
  unfold sample_path. intros Hp.
  pose (Inv := fun s : path_state =>
    strictly_decreasing_num_a (reference_cathode :: visited s)
    /\ List.last (visited s) reference_cathode = prev s
    /\ Forall (fun d => In d structs) (visited s)
    /\ (forall d, In d (path_structures s) -> In d structs)).
  assert (Hstep : forall s r s', Inv s -> path_step mu0 s = Ok r ->
            r = inl s' \/ r = inr s' ->
            strictly_decreasing_num_a (reference_cathode :: visited s')
            /\ Forall (fun d => In d structs) (visited s')
            /\ (forall d, In d (path_structures s') -> In d structs)
            /\ (r = inl s' -> List.last (visited s') reference_cathode = prev s')).
  { intros s r s' (Hdec & Hlast & Hvis & Hsub) Hr Hs'.
    destruct (path_step_spec _ _ _ Hr)
      as (next & s1 & Hcase & [idx Hidx] & Hin & Hlt & Hv & _).
    assert (s1 = s') as ->.
    { destruct Hcase as [[-> _]| ->]; destruct Hs' as [Hs'|Hs']; congruence. }
    rewrite Hv. split; [|split; [|split]].
    - unfold strictly_decreasing_num_a. rewrite app_comm_cons.
      rewrite (edges_snoc _ reference_cathode) by discriminate.
      apply Forall_app. split; [exact Hdec|].
      constructor; [|constructor]. cbn [fst snd].
      rewrite last_cons_self, Hlast. exact Hlt.
    - apply Forall_app. split; [exact Hvis|]. constructor; [|constructor]. auto.
    - intros d Hd. rewrite Hidx in Hd. apply Hsub.
      apply list_elem_of_In. apply list_elem_of_In in Hd.
      exact (subseteq_take idx _ _ Hd).
    - intros ->. destruct Hcase as [[Heq Hprev]|Heq]; [|discriminate].
      rewrite List.last_last. symmetry. exact Hprev. }
  destruct (path_loop_inv mu0 Inv) with (s := mkPath reference_cathode structs [] [] g) (p := p)
    as (s0 & HI0 & Hlaststep).
  - intros s s' HI Hs.
    destruct (Hstep s (inl s') s' HI Hs (or_introl eq_refl)) as (H1 & H2 & H3 & H4).
    repeat split; auto.
  - repeat split; cbn; auto. constructor.
  - exact Hp.
  - destruct (Hstep s0 (inr p) p HI0 Hlaststep (or_intror eq_refl)) as (H1 & H2 & _).
    split; assumption.
Qed.

(** ** C7: the first step of a path *)

Lemma ltb_not_pinf a b : X.ltb a b = true -> X.eqb a PInf = false.
Proof. destruct a, b; simpl; congruence. Qed.

Lemma segment_from_infinity mu0 structure_new structure_old v :
  num_a structure_old = Some PInf ->
  get_voltage_profile_segment mu0 structure_new structure_old = Ok v -> v = Fin 0.
Proof.
  unfold get_voltage_profile_segment. intros Hold H.
  bind_inv H. bind_inv H. bind_inv H. bind_inv H.
  rewrite Hold in E2. injection E2 as <-. injection H as <-. reflexivity.
Qed.

(** C7, as the code has it.  [get_voltage_profile_segment] returns voltage 0
    for a transition from a structure whose [num_a] is [+inf]; but the loop
    of the sampler records a segment only when the previous structure has a
    finite [num_a], so the first accepted step, which leaves the reference
    cathode, adds nothing to the voltage profile: after it the profile is
    still empty, and a finished path holds one segment less than it has
    accepted structures. *)
Theorem first_step_adds_no_segment mu0 reference_cathode structs g p :
  num_a reference_cathode = Some PInf ->
  sample_path mu0 reference_cathode structs g = Ok p ->
  (forall structure_new v,
      get_voltage_profile_segment mu0 structure_new reference_cathode = Ok v ->
      v = Fin 0)
  /\ (forall r s', path_step mu0 (mkPath reference_cathode structs [] [] g) = Ok r ->
        r = inl s' \/ r = inr s' ->
        length (visited s') = 1%nat /\ voltage_profile s' = [])
  /\ S (length (voltage_profile p)) = length (visited p).
Proof.
  intros Hinf Hp. split; [|split].
  - intros n v. apply segment_from_infinity. exact Hinf.
  - intros r s' Hr Hs'.
    destruct (path_step_spec _ _ _ Hr) as (next & s1 & Hcase & _ & _ & _ & Hv & Hvp).
    assert (s1 = s') as ->.
    { destruct Hcase as [[-> _]| ->]; destruct Hs' as [Hs'|Hs']; congruence. }
    specialize (Hvp PInf Hinf). cbn in Hvp, Hv. rewrite Hv. split; [reflexivity|exact Hvp].
  - unfold sample_path in Hp.
    pose (Inv := fun s : path_state =>
      (visited s = [] /\ voltage_profile s = [] /\ num_a (prev s) = Some PInf)
      \/ (S (length (voltage_profile s)) = length (visited s)
          /\ exists a, num_a (prev s) = Some a /\ X.eqb a PInf = false)).
    assert (Hstep : forall s r s', Inv s -> path_step mu0 s = Ok r ->
              r = inl s' \/ r = inr s' ->
              S (length (voltage_profile s')) = length (visited s')
              /\ (r = inl s' -> exists a, num_a (prev s') = Some a /\ X.eqb a PInf = false)).
    { intros s r s' HI Hr Hs'.
      destruct (path_step_spec _ _ _ Hr) as (next & s1 & Hcase & _ & _ & Hlt & Hv & Hvp).
      assert (s1 = s') as ->.
      { destruct Hcase as [[-> _]| ->]; destruct Hs' as [Hs'|Hs']; congruence. }
      split.
      - rewrite Hv, length_app. cbn [length].
        destruct HI as [(Hv0 & Hp0 & Hn)|(Hlen & a & Ha & Hfin)].
        + specialize (Hvp _ Hn). cbn in Hvp. rewrite Hvp, Hp0, Hv0. reflexivity.
        + specialize (Hvp _ Ha). rewrite Hfin in Hvp.
          destruct Hvp as (c & v & _ & _ & ->). rewrite length_app. cbn [length]. lia.
      - intros ->. destruct Hcase as [[_ Hprev]|?]; [|discriminate].
        rewrite Hprev. unfold num_a_ltb in Hlt.
        destruct (num_a next) as [a|]; [|discriminate].
        destruct (num_a (prev s)) as [b|]; [|discriminate].
        exists a. split; [reflexivity|]. eapply ltb_not_pinf; eauto. }
    destruct (path_loop_inv mu0 Inv) with (s := mkPath reference_cathode structs [] [] g) (p := p)
      as (s0 & HI0 & Hlaststep).
    + intros s s' HI Hs. right.
      destruct (Hstep s (inl s') s' HI Hs (or_introl eq_refl)) as [H1 H2]. auto.
    + left. cbn. auto.
    + exact Hp.
    + destruct (Hstep s0 (inr p) p HI0 Hlaststep (or_intror eq_refl)) as [H1 _]. exact H1.
Qed.

(** ** List bookkeeping *)

Lemma lookup_nth_lt {A} (l : list A) (i : nat) (d : A) :
  (i < length l)%nat -> l !! i = Some (nth i l d).
Proof.
  intros Hi. destruct (nth_lookup_or_length l i d) as [H|H]; [exact H | lia].
Qed.

Lemma lookup_map {A B} (f : A -> B) (l : list A) (i : nat) :
  map f l !! i = option_map f (l !! i).
Proof.
  revert i. induction l as [|a l IH]; intros [|i]; simpl; auto.
Qed.

Lemma map_result_total {A B} (f : A -> result B) (g : A -> B) (l : list A) :
  (forall x, In x l -> f x = Ok (g x)) -> map_result f l = Ok (map g l).
Proof.
  induction l as [|a l IH]; intros H; simpl; [reflexivity|].
  rewrite (H a) by (left; reflexivity). cbn [rbind].
  rewrite IH by (intros x Hx; apply H; right; exact Hx). reflexivity.
Qed.

Lemma lookup_rev_seq (m k : nat) :
  (k < m)%nat -> rev (seq 1 m) !! k = Some (m - k)%nat.
Proof.
  intros Hk.
  rewrite (lookup_nth_lt _ _ 0%nat) by (rewrite length_rev, length_seq; lia).
  rewrite rev_nth by (rewrite length_seq; lia).
  rewrite length_seq, seq_nth by lia. f_equal. lia.
Qed.

(** ** C3: the voltage curve *)

(** The conversion and the voltage as the specification words them:
    [num_a = stoich/(1-stoich)], [+inf] at composition 1. *)
Definition spec_num_a (c : Q) : xnum :=
  if Qeq_bool c 1 then PInf else Fin (c / (1 - c)).

Definition spec_voltage (stable_enthalpy_per_b stable_comp : list Q) (mu_a : Q)
    (i : nat) : xnum :=
  X.add (X.div (X.opp (Fin (nth i stable_enthalpy_per_b 0
                            - nth (i - 1) stable_enthalpy_per_b 0)))
               (X.sub (spec_num_a (nth i stable_comp 0))
                      (spec_num_a (nth (i - 1) stable_comp 0))))
        (Fin mu_a).

(** The voltage as [voltage_curve] computes it, with the finite [1e5] of
    [stable_num_of] at composition 1. *)
Definition code_voltage (stable_enthalpy_per_b stable_comp : list Q) (mu_a : Q)
    (i : nat) : xnum :=
  X.add (X.div (X.opp (Fin (nth i stable_enthalpy_per_b 0
                            - nth (i - 1) stable_enthalpy_per_b 0)))
               (Fin (stable_num_of (nth i stable_comp 0)
                     - stable_num_of (nth (i - 1) stable_comp 0))))
        (Fin mu_a).

(** C3, as the code has it.  For a list of [n >= 2] stable points,
    [voltage_curve] converts each composition to [num_a = stoich/(1-stoich)],
    with the finite value 1e5, not [+inf], at composition 1; going from the
    A-richest point (index [n-1]) down to index 1 it produces the voltage
    [-(E[i] - E[i-1]) / (num[i] - num[i-1]) + mu_A] together with
    [num[i]]; it then appends a terminal point that repeats the last
    voltage at [x = 0]. *)
Theorem voltage_curve_steps get_capacities get_molar_mass
    (stable_enthalpy_per_b stable_comp : list Q) (mu : Q * Q)
    (elements : list string) (elem_b : string) :
  length stable_enthalpy_per_b = length stable_comp ->
  (2 <= length stable_comp)%nat ->
  elements !! 1%nat = Some elem_b ->
  let n := length stable_comp in
  (forall c, c == 1 -> stable_num_of c = 1e5)
  /\ (forall c, ~ c == 1 -> stable_num_of c = c / (1 - c))
  /\ exists c,
      voltage_curve get_capacities get_molar_mass stable_enthalpy_per_b stable_comp
                    mu elements = Ok c
      /\ length (voltages c) = n /\ length (curve_x c) = n
      /\ (forall k, (k < n - 1)%nat ->
            voltages c !! k
            = Some (code_voltage stable_enthalpy_per_b stable_comp (fst mu) (n - 1 - k))
            /\ curve_x c !! k = Some (stable_num_of (nth (n - 1 - k) stable_comp 0)))
      /\ voltages c !! (n - 1)%nat = voltages c !! (n - 2)%nat
      /\ curve_x c !! (n - 1)%nat = Some 0
      /\ curve_Q c = map (fun x => get_capacities (Fin x) (get_molar_mass elem_b))
                         (curve_x c).
Proof.
  intros Hlen Hn Helem n.
  assert (Hn' : n = length stable_comp) by reflexivity. clearbody n.
  split; [|split].
  - intros c Hc. unfold stable_num_of.
    assert (H : Qeq_bool (1 - c) 0 = true) by (apply Qeq_bool_iff; lra).
    rewrite H. reflexivity.
  - intros c Hc. unfold stable_num_of.
    destruct (Qeq_bool (1 - c) 0) eqn:H; [|reflexivity].
    apply Qeq_bool_iff in H. exfalso. apply Hc. lra.
  - unfold voltage_curve.
    set (nums := map stable_num_of stable_comp).
    assert (Hnums : length nums = n) by (rewrite Hn'; apply length_map).
    rewrite Hnums.
    set (idx := rev (seq 1 (n - 1))).
    set (g := fun i => (code_voltage stable_enthalpy_per_b stable_comp (fst mu) i,
                        stable_num_of (nth i stable_comp 0))).
    assert (Hmap : map_result (voltage_at stable_enthalpy_per_b nums (fst mu)) idx
                   = Ok (map g idx)).
    { apply map_result_total. intros i Hi.
      apply in_rev, in_seq in Hi. unfold voltage_at.
      rewrite (lookup_nth_lt stable_enthalpy_per_b i 0) by lia.
      rewrite (lookup_nth_lt stable_enthalpy_per_b (i - 1) 0) by lia.
      unfold nums. rewrite !lookup_map.
      rewrite (lookup_nth_lt stable_comp i 0) by lia.
      rewrite (lookup_nth_lt stable_comp (i - 1) 0) by lia.
      reflexivity. }
    rewrite Hmap. cbn [rbind].
    assert (Hidx_len : length idx = (n - 1)%nat)
      by (unfold idx; rewrite length_rev, length_seq; reflexivity).
    assert (Hlast : last (map fst (map g idx)) = Some (fst (g 1%nat))).
    { unfold idx. replace (n - 1)%nat with (S (n - 2)) by lia.
      cbn [seq rev]. rewrite !map_app. cbn [map]. apply last_snoc. }
    rewrite Hlast. cbn [of_option rbind]. rewrite Helem. cbn [of_option rbind].
    eexists. split; [reflexivity|].
    cbn [voltages curve_x curve_Q].
    split; [rewrite length_app, !length_map, Hidx_len; cbn; lia|].
    split; [rewrite length_app, !length_map, Hidx_len; cbn; lia|].
    assert (Hk : forall k, (k < n - 1)%nat ->
              (map fst (map g idx) ++ [fst (g 1%nat)]) !! k
              = Some (fst (g (n - 1 - k)%nat))).
    { intros k Hk. rewrite lookup_app_l by (rewrite !length_map; lia).
      rewrite !lookup_map. unfold idx. rewrite lookup_rev_seq by lia. reflexivity. }
    split; [|split; [|split]].
    + intros k Hk'. split; [apply Hk; exact Hk'|].
      rewrite lookup_app_l by (rewrite !length_map; lia).
      rewrite !lookup_map. unfold idx. rewrite lookup_rev_seq by lia. reflexivity.
    + rewrite (Hk (n - 2)%nat) by lia.
      rewrite lookup_app_r by (rewrite !length_map; lia).
      rewrite !length_map, Hidx_len, Nat.sub_diag. cbn.
      do 3 f_equal. lia.
    + rewrite lookup_app_r by (rewrite !length_map; lia).
      rewrite !length_map, Hidx_len, Nat.sub_diag. reflexivity.
    + reflexivity.
Qed.

Lemma voltage_curve_steps_witness :
  exists c,
    voltage_curve Scenario.get_capacities Scenario.get_molar_mass
                  (stable_enthalpy_per_b Scenario.hull1) (stable_comp Scenario.hull1)
                  (mu_enthalpy Scenario.hull1) Scenario.elements = Ok c
    /\ voltages c !! 2%nat = voltages c !! 1%nat
    /\ curve_x c !! 2%nat = Some 0.
Proof.
  destruct (voltage_curve_steps Scenario.get_capacities Scenario.get_molar_mass
              (stable_enthalpy_per_b Scenario.hull1) (stable_comp Scenario.hull1)
              (mu_enthalpy Scenario.hull1) Scenario.elements "B"%string
              eq_refl (le_S 2 2 (le_n 2)) eq_refl)
    as (_ & _ & c & Hc & _ & _ & _ & Hv & Hx & _).
  exists c. split; [exact Hc|]. split; [exact Hv | exact Hx].
Defined.

(** The specification's formula, with [+inf] at composition 1, is not what
    [voltage_curve] returns: for scenario 1 the first voltage of the code
    is [-3/99999 - 1], the formula gives [-1]. *)
Lemma voltage_curve_counterexample :
  exists c v,
    voltage_curve Scenario.get_capacities Scenario.get_molar_mass
                  (stable_enthalpy_per_b Scenario.hull1) (stable_comp Scenario.hull1)
                  (mu_enthalpy Scenario.hull1) Scenario.elements = Ok c
    /\ voltages c !! 0%nat = Some v
    /\ X.eqb v (Fin (-3 / 99999 - 1)) = true
    /\ X.eqb (spec_voltage (stable_enthalpy_per_b Scenario.hull1)
                           (stable_comp Scenario.hull1)
                           (fst (mu_enthalpy Scenario.hull1)) 2) (Fin (-1)) = true
    /\ X.eqb v (spec_voltage (stable_enthalpy_per_b Scenario.hull1)
                             (stable_comp Scenario.hull1)
                             (fst (mu_enthalpy Scenario.hull1)) 2) = false.
Proof.
  eexists _, _. split; [vm_compute; reflexivity|].
  split; [vm_compute; reflexivity|].
  repeat split; vm_compute; reflexivity.
Qed.

Lemma path_strictly_decreasing_witness :
  strictly_decreasing_num_a (Scenario.reference Scenario.hull3 :: visited Scenario.path3)
  /\ Forall (fun d => In d (Scenario.candidates Scenario.hull3)) (visited Scenario.path3).
Proof.
  apply (path_strictly_decreasing (-1) _ _ Scenario.stream).
  vm_compute. reflexivity.
Defined.

Lemma first_step_adds_no_segment_witness :
  num_a (Scenario.reference Scenario.hull3) = Some PInf
  /\ S (length (voltage_profile Scenario.path3)) = length (visited Scenario.path3).
Proof.
  split; [reflexivity|].
  apply (first_step_adds_no_segment (-1) (Scenario.reference Scenario.hull3)
           (Scenario.candidates Scenario.hull3) Scenario.stream Scenario.path3).
  - reflexivity.
  - vm_compute. reflexivity.
Defined.

(** The first pass from the reference cathode leaves the voltage profile
    empty, and the finished path (three accepted structures, two segments)
    holds no segment with voltage 0. *)
Lemma first_step_counterexample :
  num_a (prev Scenario.start3) = Some PInf
  /\ (exists s', path_step (-1) Scenario.start3 = Ok (inl s')
                 /\ length (visited s') = 1%nat /\ voltage_profile s' = [])
  /\ sample_path (-1) (Scenario.reference Scenario.hull3)
                 (Scenario.candidates Scenario.hull3) Scenario.stream
     = Ok Scenario.path3
  /\ length (visited Scenario.path3) = 3%nat
  /\ length (voltage_profile Scenario.path3) = 2%nat
  /\ forallb (fun seg => negb (X.eqb (snd seg) (Fin 0)))
             (voltage_profile Scenario.path3) = true.
Proof.
  split; [reflexivity|]. split.
  - eexists. split; [vm_compute; reflexivity|]. split; reflexivity.
  - repeat split; vm_compute; reflexivity.
Qed.

Lemma hull_cursor_ends_witness :
  binary_hull Qhull.convex_hull Scenario.repo_find None 0.3 Scenario.elements
              [Scenario.AB; Scenario.AB_high; Scenario.A2B] = Ok (Some Scenario.hull3)
  /\ exists mu_a mu_b mid,
       hull_cursor Scenario.hull3
       = annotate_chempot (Fin 0) mu_b :: mid ++ [annotate_chempot PInf mu_a].
Proof.
  split; [vm_compute; reflexivity|].
  destruct (hull_cursor_ends Qhull.convex_hull Scenario.repo_find None 0.3
              Scenario.elements [Scenario.AB; Scenario.AB_high; Scenario.A2B]
              Scenario.hull3) as (mu_a & mu_b & mid & _ & H & _).
  - vm_compute. reflexivity.
  - exists mu_a, mu_b, mid. exact H.
Defined.

(** ** C9: records with a single-element stoichiometry *)

Lemma process_doc_short x_elem one_minus_x_elem mus d :
  (length (stoichiometry d) < 2)%nat ->
  process_doc x_elem one_minus_x_elem mus d = Raise IndexError.
Proof.
  unfold process_doc. destruct (stoichiometry d) as [|e0 [|e1 st]]; simpl; intros H.
  - reflexivity.
  - reflexivity.
  - lia.
Qed.

Lemma map_result_raise {A B} (f : A -> result B) pre d post e :
  Forall (fun x => exists y, f x = Ok y) pre ->
  f d = Raise e ->
  map_result f (pre ++ d :: post) = Raise e.
Proof.
  intros Hpre Hd. induction Hpre as [|a pre [y Hy] _ IH]; simpl.
  - rewrite Hd. reflexivity.
  - rewrite Hy. cbn [rbind]. rewrite IH. reflexivity.
Qed.

Lemma map_result_all_ok {A B} (f : A -> result B) l r x :
  map_result f l = Ok r -> In x l -> exists y, f x = Ok y.
Proof.
  intros H Hx. apply map_result_Forall in H.
  rewrite List.Forall_forall in H. auto.
Qed.

(** C9, as the code has it.  The first loop of [binary_hull] reads
    [stoichiometry[0]] and [stoichiometry[1]] of every cursor record.  A
    record with a single-element stoichiometry therefore raises
    [IndexError] when its turn comes, and [binary_hull] builds no hull for a
    cursor that holds such a record. *)
Theorem single_element_record_raises CH repo cp cutoff elements pre d post :
  length (stoichiometry d) = 1%nat ->
  (forall x_elem one_minus_x_elem mus,
      Forall (fun d' => exists r,
                process_doc x_elem one_minus_x_elem [fst mus; snd mus] d' = Ok r) pre ->
      binary_hull_body CH cutoff x_elem one_minus_x_elem mus (pre ++ d :: post)
      = Raise IndexError)
  /\ (forall h, binary_hull CH repo cp cutoff elements (pre ++ d :: post) <> Ok (Some h)).
Proof.
  intros Hlen. split.
  - intros x b mus Hpre. unfold binary_hull_body.
    rewrite (map_result_raise _ pre d post IndexError Hpre); [reflexivity|].
    apply process_doc_short. lia.
  - intros h H.
    destruct (binary_hull_inv _ _ _ _ _ _ _ H) as (x & b & mus & _ & _ & Hbody).
    destruct (binary_hull_body_inv _ _ _ _ _ _ _ Hbody) as (rows & Hrows & _).
    destruct (map_result_all_ok _ _ _ d Hrows) as [r Hr].
    + apply in_elt.
    + rewrite process_doc_short in Hr by lia. discriminate.
Qed.

Lemma single_element_record_raises_witness :
  length (stoichiometry Scenario.A_ref) = 1%nat
  /\ binary_hull_body Qhull.convex_hull 0 "A" "B" (Scenario.A_ref, Scenario.B_ref)
                      ([Scenario.AB] ++ Scenario.A_ref :: []) = Raise IndexError.
Proof.
  split; [reflexivity|].
  apply (single_element_record_raises Qhull.convex_hull Scenario.repo_find None 0
           Scenario.elements [Scenario.AB] Scenario.A_ref [] eq_refl).
  constructor; [|constructor].
  eexists. vm_compute. reflexivity.
Defined.

(** A cursor with the elemental record of A after a compound: the whole
    analysis stops with [IndexError]. *)
Lemma single_element_record_counterexample :
  length (stoichiometry Scenario.A_ref) = 1%nat
  /\ binary_hull Qhull.convex_hull Scenario.repo_find None 0 Scenario.elements
                 [Scenario.AB; Scenario.A_ref] = Raise IndexError.
Proof. split; [reflexivity | vm_compute; reflexivity]. Qed.

(** ** C6: step interpolation *)

(** The sample [s] reaches the grid point [g]: [g <= x_val]. *)
Definition covers (g : Q) (s : xnum * xnum) : bool := X.leb (Fin g) (fst s).

(** The value the specification words: the voltage of the largest-capacity
    sample that is at or below the grid point ([None] without such a
    sample). *)
Definition spec_step_value (g : Q) (xy : list (xnum * xnum)) : option xnum :=
  option_map snd
    (fold_left (fun best s =>
                  if X.leb (fst s) (Fin g)
                  then match best with
                       | Some b => if X.ltb (fst b) (fst s) then Some s else Some b
                       | None => Some s
                       end
                  else best)
               xy None).

Lemma lookup_combine {A B} (l1 : list A) (l2 : list B) i a b :
  l1 !! i = Some a -> l2 !! i = Some b -> combine l1 l2 !! i = Some (a, b).
Proof.
  revert l2 i. induction l1 as [|x l1 IH]; intros [|y l2] [|i]; simpl;
    try discriminate; try congruence. apply IH.
Qed.

Lemma interp_steps_pointwise xspace xy k g :
  xspace !! k = Some g ->
  interp_steps xspace xy !! k
  = Some (fold_left (fun acc s => if covers g s then snd s else acc) xy (Fin 0)).
Proof.
  intros Hg. unfold interp_steps.
  assert (Hgen : forall ys y0, ys !! k = Some y0 ->
            fold_left (fun yspace s =>
                         map (fun gy => if X.leb (Fin (fst gy)) (fst s)
                                        then snd s else snd gy)
                             (combine xspace yspace)) xy ys !! k
            = Some (fold_left (fun acc s => if covers g s then snd s else acc) xy y0)).
  { induction xy as [|s xy IH]; intros ys y0 Hy; simpl; [exact Hy|].
    apply IH. rewrite lookup_map, (lookup_combine _ _ _ _ _ Hg Hy). reflexivity. }
  apply Hgen. rewrite lookup_map, Hg. reflexivity.
Qed.

Lemma fold_uncovered g xy y :
  Forall (fun s => covers g s = false) xy ->
  fold_left (fun acc s => if covers g s then snd s else acc) xy y = y.
Proof.
  revert y. induction xy as [|s xy IH]; intros y H; simpl; [reflexivity|].
  inversion H as [|? ? Hs Hxy]; subst. rewrite Hs. apply IH. exact Hxy.
Qed.

Lemma xltb_not_leb a b : X.ltb a b = true -> X.leb b a = false.
Proof.
  unfold X.leb. destruct a as [p| | |], b as [q| | |]; simpl; try congruence.
  unfold Qltb. rewrite !negb_true_iff. intros H.
  assert (Hlt : p < q).
  { apply Qnot_le_lt. intros Hle. apply Qle_bool_iff in Hle. congruence. }
  apply orb_false_iff. split.
  - apply negb_false_iff. apply Qle_bool_iff. lra.
  - destruct (Qeq_bool q p) eqn:He; [|reflexivity].
    apply Qeq_bool_iff in He. lra.
Qed.

(** C6, as the code has it.  For a grid point [g] of [xspace], the value
    [interp_steps] assigns is the voltage of the last sample of the list
    whose capacity is at or above [g], and 0 when no sample reaches [g];
    for a list in strictly decreasing capacity, as the samples of a path
    are, that is the sample of smallest capacity among those at or above
    [g]: later, smaller samples win for the grid points at or below their
    capacity. *)
Theorem interp_steps_last_covering (xspace : list Q) (xy : list (xnum * xnum))
    (k : nat) (g : Q) :
  xspace !! k = Some g ->
  (Forall (fun s => covers g s = false) xy ->
   interp_steps xspace xy !! k = Some (Fin 0))
  /\ (forall pre s post,
        xy = pre ++ s :: post -> covers g s = true ->
        Forall (fun s' => covers g s' = false) post ->
        interp_steps xspace xy !! k = Some (snd s))
  /\ (forall s,
        StronglySorted (fun a b => X.ltb (fst b) (fst a) = true) xy ->
        In s xy -> covers g s = true ->
        (forall s', In s' xy -> covers g s' = true -> X.leb (fst s) (fst s') = true) ->
        interp_steps xspace xy !! k = Some (snd s)).
Proof.
  intros Hg. rewrite (interp_steps_pointwise _ _ _ _ Hg).
  assert (Hlast : forall pre s post,
            xy = pre ++ s :: post -> covers g s = true ->
            Forall (fun s' => covers g s' = false) post ->
            Some (fold_left (fun acc s0 => if covers g s0 then snd s0 else acc) xy (Fin 0))
            = Some (snd s)).
  { intros pre s post -> Hs Hpost. rewrite fold_left_app. cbn [fold_left].
    rewrite Hs. rewrite fold_uncovered by exact Hpost. reflexivity. }
  split; [|split].
  - intros H. rewrite fold_uncovered by exact H. reflexivity.
  - exact Hlast.
  - intros s Hsorted Hin Hs Hmin.
    destruct (in_split _ _ Hin) as (pre & post & Hxy).
    apply (Hlast pre s post Hxy Hs).
    assert (Hbelow : Forall (fun s' => X.ltb (fst s') (fst s) = true) post).
    { rewrite Hxy in Hsorted. clear -Hsorted.
      induction pre as [|a pre IH]; cbn [app] in Hsorted.
      - apply StronglySorted_inv in Hsorted. tauto.
      - apply StronglySorted_inv in Hsorted. tauto. }
    rewrite List.Forall_forall in Hbelow |- *. intros s' Hs'.
    destruct (covers g s') eqn:Hc; [|reflexivity].
    assert (Hle : X.leb (fst s) (fst s') = true).
    { apply Hmin; [|exact Hc]. rewrite Hxy. apply in_or_app. right. right. exact Hs'. }
    rewrite (xltb_not_leb _ _ (Hbelow s' Hs')) in Hle. discriminate.
Qed.

Lemma interp_steps_last_covering_witness :
  capacity_space !! 1%nat = Some (2000 / 99)
  /\ interp_steps capacity_space (voltage_profile Scenario.path3) !! 1%nat
     = Some (Fin (6 # 60)).
Proof.
  split; [reflexivity|].
  destruct (interp_steps_last_covering capacity_space
              (voltage_profile Scenario.path3) 1 (2000 / 99) eq_refl)
    as (_ & H & _).
  apply (H [] (Fin (53602 # 20), Fin (6 # 60)) [(Fin 0.0, Fin (2 # 2))]).
  - reflexivity.
  - reflexivity.
  - constructor; [reflexivity|constructor].
Defined.

(** The samples of the first path of the scenario are (2680.1, 0.1) and
    (0, 1).  At the grid point 2000/99 the largest-capacity sample at or
    below it is (0, 1), voltage 1; [interp_steps] assigns 0.1. *)
Lemma interp_steps_counterexample :
  exists g v,
    capacity_space !! 1%nat = Some g
    /\ interp_steps capacity_space (voltage_profile Scenario.path3) !! 1%nat = Some v
    /\ spec_step_value g (voltage_profile Scenario.path3) = Some (Fin (2 # 2))
    /\ X.eqb v (Fin 0.1) = true
    /\ X.eqb v (Fin (2 # 2)) = false.
Proof.
  eexists _, _. split; [reflexivity|]. split; [vm_compute; reflexivity|].
  repeat split; vm_compute; reflexivity.
Qed.

(** ** C5: the trial cap of the sampler *)

Lemma stoichiometry_eqb_refl st : stoichiometry_eqb st st = true.
Proof.
  induction st as [|[e n] st IH]; simpl; [reflexivity|].
  rewrite String.eqb_refl, Z.eqb_refl, IH. reflexivity.
Qed.

Lemma Qeq_bool_refl q : Qeq_bool q q = true.
Proof. apply Qeq_bool_iff. reflexivity. Qed.

Lemma same_refl a : X.same a a = true.
Proof. destruct a; simpl; auto using Qeq_bool_refl. Qed.

Lemma doc_eqb_refl d : doc_eqb d d = true.
Proof.
  unfold doc_eqb.
  rewrite !String.eqb_refl, stoichiometry_eqb_refl, Z.eqb_refl, !Qeq_bool_refl.
  destruct (enthalpy_per_b d), (stoich d), (num_a d), (hull_distance d), (capacity d);
    simpl; rewrite ?Qeq_bool_refl, ?same_refl; reflexivity.
Qed.

Definition advance (g : rng) : rng := mkRng (draws g) (S (pos g)).

Lemma lone_candidate_pick fuel reference_cathode b g :
  num_a reference_cathode = Some PInf ->
  num_a b = Some (Fin 0) ->
  pick_loop (S fuel) [b] reference_cathode g = Ok (b, advance g).
Proof.
  intros Href Hb. cbn [pick_loop]. unfold randint. cbn [length Nat.eqb rbind fst snd].
  rewrite Nat.mod_1_r. cbn [lookup list_lookup of_option rbind].
  rewrite Hb, Href. reflexivity.
Qed.

(** With the B endpoint as the only candidate, the path goes from the
    reference cathode straight to it and records no segment. *)
Lemma lone_candidate_path mu0 reference_cathode b g :
  num_a reference_cathode = Some PInf ->
  num_a b = Some (Fin 0) ->
  sample_path mu0 reference_cathode [b] g
  = Ok (mkPath reference_cathode [] [] [b] (advance g)).
Proof.
  intros Href Hb. unfold sample_path. rewrite path_loop_step.
  assert (Hpick : pick_metastable_structure [b] reference_cathode g = Ok (b, advance g)).
  { unfold pick_metastable_structure. change 1000%nat with (S 999).
    apply lone_candidate_pick; assumption. }
  unfold path_step. cbn [prev path_structures gen voltage_profile visited].
  rewrite Hpick. cbn [rbind fst snd index_of]. rewrite doc_eqb_refl.
  cbn [rbind]. rewrite Href, Hb. reflexivity.
Qed.

Definition zeros : list xnum := map (fun _ => Fin 0) capacity_space.
Definition ones : list xnum := map (fun _ => Fin 1) capacity_space.

Definition idle (g : rng) : sampler_state :=
  mkSampler zeros zeros ones [] false false 0 0 g.

Lemma ones_not_converged :
  X.ltb (X.sum (map X.abs ones)) (Fin tolerance) = false.
Proof. vm_compute. reflexivity. Qed.

Lemma lone_candidate_iter num_trials mu0 reference_cathode b g :
  num_a reference_cathode = Some PInf ->
  num_a b = Some (Fin 0) ->
  sampler_iter num_trials mu0 reference_cathode [b] (idle g)
  = Ok (inl (idle (advance g))).
Proof.
  intros Href Hb. unfold sampler_iter, idle.
  cbn [diff_average_profile num_converged num_contribs last_converged sgen
       running_average_profile advanced_average_profile all_voltage_profiles].
  rewrite ones_not_converged. cbn [andb].
  replace (num_trials <? 0)%nat with false by (symmetry; apply Nat.ltb_ge; lia).
  rewrite (lone_candidate_path _ _ _ _ Href Hb). reflexivity.
Qed.

Lemma lone_candidate_loop fuel num_trials mu0 reference_cathode b g :
  num_a reference_cathode = Some PInf ->
  num_a b = Some (Fin 0) ->
  exists g', sampler_loop fuel num_trials mu0 reference_cathode [b] (idle g)
             = Running (idle g').
Proof.
  intros Href Hb. revert g. induction fuel as [|fuel IH]; intros g.
  - exists g. reflexivity.
  - cbn [sampler_loop]. rewrite (lone_candidate_iter _ _ _ _ _ Href Hb). apply IH.
Qed.

(** C5 on a failing input.  For the system of [Scenario.hull0], where no
    compound lies within the cutoff, the candidate list of the sampler is
    the B endpoint alone.  Whatever the random draws and however many
    passes the outer loop is given, it is still running: every path is
    empty, so [num_contribs] stays 0 and neither the convergence test nor
    the test [num_contribs > num_trials] ever fires. *)
Theorem trial_cap_never_reached get_capacities get_molar_mass (fuel : nat) (g : rng) :
  exists s,
    metastable_voltage_profile get_capacities get_molar_mass fuel
      (hull_cursor Scenario.hull0) (mu_enthalpy Scenario.hull0) Scenario.elements g
    = Running s
    /\ num_contribs s = 0%nat /\ converged s = false.
Proof.
  unfold metastable_voltage_profile.
  cbn [Scenario.hull0 hull_cursor mu_enthalpy Scenario.elements lookup list_lookup
       of_option rbind removelast map_result num_a set_capacity np_max fold_left
       last fst snd].
  destruct (lone_candidate_loop fuel num_trials_default (-1)
              (List.last (hull_cursor Scenario.hull0) Scenario.A_ref)
              (set_capacity (get_capacities (Fin 0) (get_molar_mass "B"%string))
                            (List.hd Scenario.A_ref (hull_cursor Scenario.hull0)))
              g eq_refl eq_refl) as [g' Hg'].
  exists (idle g'). split; [|split; reflexivity].
  exact Hg'.
Qed.

(** ** Binary search *)

Lemma Qltb_lt a b : Qltb a b = true <-> a < b.
Proof.
  unfold Qltb. rewrite negb_true_iff. split.
  - intros H. apply Qnot_le_lt. intros Hle. apply Qle_bool_iff in Hle. congruence.
  - intros H. destruct (Qle_bool b a) eqn:E; [|reflexivity].
    apply Qle_bool_iff in E. lra.
Qed.

Lemma Qltb_ge a b : Qltb a b = false <-> b <= a.
Proof.
  unfold Qltb. rewrite negb_false_iff. apply Qle_bool_iff.
Qed.

Lemma strictly_increasing_adjacent l i :
  strictly_increasing l = true -> (S i < length l)%nat ->
  nth i l 0 < nth (S i) l 0.
Proof.
  revert i. induction l as [|a l IH]; intros i H Hi; [simpl in Hi; lia|].
  destruct l as [|b l]; [simpl in Hi; lia|].
  cbn [strictly_increasing] in H. apply andb_true_iff in H. destruct H as [Hab Hrest].
  destruct i as [|i].
  - apply Qltb_lt. exact Hab.
  - change (nth i (b :: l) 0 < nth (S i) (b :: l) 0). apply IH; [exact Hrest|].
    simpl in Hi |- *. lia.
Qed.

Lemma strictly_increasing_nth l i j :
  strictly_increasing l = true -> (i < j < length l)%nat ->
  nth i l 0 < nth j l 0.
Proof.
  intros H [Hij Hj]. induction j as [|j IH]; [lia|].
  destruct (Nat.eq_dec i j) as [->|Hne].
  - apply strictly_increasing_adjacent; assumption.
  - apply Qlt_trans with (nth j l 0).
    + apply IH; lia.
    + apply strictly_increasing_adjacent; assumption.
Qed.

Lemma bisect_loop_spec fuel a x lo hi :
  strictly_increasing a = true ->
  (hi - lo <= fuel)%nat -> (lo <= hi <= length a)%nat ->
  (forall j, (j < lo)%nat -> nth j a 0 < x) ->
  (forall j, (hi <= j < length a)%nat -> x <= nth j a 0) ->
  let r := bisect_loop fuel a x lo hi in
  (r <= length a)%nat
  /\ (forall j, (j < r)%nat -> nth j a 0 < x)
  /\ (forall j, (r <= j < length a)%nat -> x <= nth j a 0).
Proof.
  intros Hsorted. revert lo hi.
  induction fuel as [|fuel IH]; intros lo hi Hfuel Hrange Hlo Hhi; cbn [bisect_loop].
  - assert (lo = hi) as -> by lia. cbv zeta. repeat split; auto; lia.
  - destruct (lo <? hi)%nat eqn:Hlt.
    + apply Nat.ltb_lt in Hlt.
      set (mid := ((lo + hi) / 2)%nat).
      assert (Hmid : (lo <= mid < hi)%nat).
      { unfold mid. split.
        - apply Nat.div_le_lower_bound; lia.
        - apply Nat.Div0.div_lt_upper_bound; lia. }
      cbv zeta. fold mid.
      destruct (Qltb (nth mid a 0) x) eqn:Hcmp.
      * apply Qltb_lt in Hcmp. apply IH; try lia; [|exact Hhi].
        intros j Hj. destruct (Nat.eq_dec j mid) as [->|Hne]; [exact Hcmp|].
        apply Qlt_trans with (nth mid a 0); [|exact Hcmp].
        apply strictly_increasing_nth; [exact Hsorted|lia].
      * apply Qltb_ge in Hcmp. apply IH; try lia; [exact Hlo|].
        intros j Hj. destruct (Nat.eq_dec j mid) as [->|Hne]; [exact Hcmp|].
        apply Qle_trans with (nth mid a 0); [exact Hcmp|].
        apply Qlt_le_weak. apply strictly_increasing_nth; [exact Hsorted|lia].
    + apply Nat.ltb_ge in Hlt. assert (lo = hi) as -> by lia.
      cbv zeta. repeat split; auto; lia.
Qed.

(** [bisect_left] on a strictly increasing list: everything before the
    returned index is below [x], everything from it on is at or above. *)
Lemma bisect_left_spec a x :
  strictly_increasing a = true ->
  let r := bisect_left a x in
  (r <= length a)%nat
  /\ (forall j, (j < r)%nat -> nth j a 0 < x)
  /\ (forall j, (r <= j < length a)%nat -> x <= nth j a 0).
Proof.
  intros Hsorted. unfold bisect_left.
  apply bisect_loop_spec; try assumption; try lia.
Qed.

(** ** Indexing *)

Lemma np_index_nat {A} (a : list A) (i : nat) :
  np_index a (Z.of_nat i) = of_option IndexError (a !! i).
Proof.
  unfold np_index. replace (0 <=? Z.of_nat i)%Z with true by (symmetry; apply Z.leb_le; lia).
  rewrite Nat2Z.id. reflexivity.
Qed.

Lemma np_index_pred {A} (a : list A) (i : nat) :
  (0 < i)%nat ->
  np_index a (Z.of_nat i - 1) = of_option IndexError (a !! (i - 1)%nat).
Proof.
  intros Hi. replace (Z.of_nat i - 1)%Z with (Z.of_nat (i - 1)) by lia.
  apply np_index_nat.
Qed.

(** [a[-1]] is the last element. *)
Lemma np_index_minus_one {A} (a : list A) :
  (0 < length a)%nat ->
  np_index a (Z.of_nat 0 - 1) = of_option IndexError (a !! (length a - 1)%nat).
Proof.
  intros Hlen. unfold np_index.
  change (Z.of_nat 0 - 1)%Z with (-1)%Z. change (0 <=? -1)%Z with false. cbv iota.
  replace (- Z.of_nat (length a) <=? -1)%Z with true by (symmetry; apply Z.leb_le; lia).
  replace (Z.to_nat (Z.of_nat (length a) + -1)) with (length a - 1)%nat by lia.
  reflexivity.
Qed.

Lemma edges_lookup {A} (l : list A) (i : nat) (a b : A) :
  l !! i = Some a -> l !! S i = Some b -> In (a, b) (edges l).
Proof.
  revert i. induction l as [|x l IH]; intros i Ha Hb; [discriminate|].
  destruct l as [|y l]; [destruct i; discriminate|].
  destruct i as [|i].
  - injection Ha as <-. injection Hb as <-. left. reflexivity.
  - right. apply (IH i); assumption.
Qed.

Lemma edges_In {A} (l : list A) (a b : A) : In (a, b) (edges l) -> In a l /\ In b l.
Proof.
  induction l as [|x l IH]; [contradiction|].
  destruct l as [|y l]; [contradiction|].
  intros [H|H].
  - injection H as <- <-. split; [left|right; left]; reflexivity.
  - destruct (IH H) as [Ha Hb]. split; right; assumption.
Qed.

Lemma last_nth {A} (l : list A) (d e : A) :
  l <> [] -> List.last l d = nth (length l - 1) l e.
Proof.
  induction l as [|a l IH]; [congruence|]. intros _.
  destruct l as [|b l]; [reflexivity|].
  change (List.last (a :: b :: l) d) with (List.last (b :: l) d).
  rewrite IH by discriminate. simpl. rewrite Nat.sub_0_r. reflexivity.
Qed.

Lemma In_nth_lt {A} (l : list A) (i : nat) (d : A) : (i < length l)%nat -> In (nth i l d) l.
Proof. apply nth_In. Qed.

(** ** The line through a bracketing pair *)

(** The distance computed from [gradient] and [intercept], times the width
    of the bracket, is the signed area [line_gap]. *)
Lemma line_dist_gap c0 e0 c1 e1 x y :
  ~ c1 - c0 == 0 ->
  (y + - ((e1 - e0) / (c1 - c0) * x
          + ((e1 + e0) + - ((e1 - e0) / (c1 - c0) * (c1 + c0))) / 2))
  * (c1 - c0)
  == line_gap (c0, e0) (c1, e1) (x, y).
Proof. intros H. unfold line_gap. cbn [fst snd]. field. exact H. Qed.

Lemma xdiv_fin a b : ~ b == 0 -> X.div (Fin a) (Fin b) = Fin (a / b).
Proof.
  intros Hb. unfold X.div.
  destruct (Qeq_bool b 0) eqn:E; [|reflexivity].
  apply Qeq_bool_iff in E. contradiction.
Qed.

Lemma hull_dist_at_value comps energies p i c0 e0 c1 e1 :
  bisect_left comps (fst p) = i ->
  np_index energies (Z.of_nat i - 1) = Ok e0 ->
  np_index energies (Z.of_nat i) = Ok e1 ->
  np_index comps (Z.of_nat i - 1) = Ok c0 ->
  np_index comps (Z.of_nat i) = Ok c1 ->
  ~ c1 - c0 == 0 ->
  exists q, hull_dist_at comps energies p = Ok (Fin q)
            /\ q * (c1 - c0) == line_gap (c0, e0) (c1, e1) p.
Proof.
  intros Hi He0 He1 Hc0 Hc1 Hne. unfold hull_dist_at.
  rewrite Hi, He0, He1, Hc0, Hc1. cbn [rbind].
  rewrite (xdiv_fin _ _ Hne). cbn [X.mul X.sub X.add X.opp].
  rewrite xdiv_fin by (intros H2; discriminate H2).
  eexists. split; [reflexivity|].
  destruct p as [x y]. cbn [fst snd]. apply line_dist_gap. exact Hne.
Qed.

(** ** The bracket found for a point *)

Lemma lower_hull_ok_spec pts chain :
  lower_hull_ok pts chain = true ->
  strictly_increasing (map fst chain) = true
  /\ forall p, In p pts ->
       spans chain p = true
       /\ forall a b, In (a, b) (edges chain) -> 0 <= line_gap a b p.
Proof.
  unfold lower_hull_ok. intros H. apply andb_true_iff in H. destruct H as [Hinc Hall].
  split; [exact Hinc|]. intros p Hp.
  rewrite forallb_forall in Hall. specialize (Hall p Hp).
  apply andb_true_iff in Hall. destruct Hall as [Hspan Hedges].
  split; [exact Hspan|]. intros a b Hab.
  rewrite forallb_forall in Hedges. specialize (Hedges (a, b) Hab).
  apply Qle_bool_iff in Hedges. exact Hedges.
Qed.

Lemma spans_spec chain p :
  spans chain p = true ->
  (0 < length chain)%nat
  /\ nth 0 (map fst chain) 0 <= fst p
  /\ fst p <= nth (length chain - 1) (map fst chain) 0.
Proof.
  unfold spans. destruct chain as [|a chain]; [discriminate|].
  intros H. apply andb_true_iff in H. destruct H as [H1 H2].
  apply Qle_bool_iff in H1, H2.
  split; [simpl; lia|]. split; [exact H1|].
  rewrite (last_nth _ a (0, 0)) in H2 by discriminate.
  change 0 with (fst (0, 0)) at 1. rewrite map_nth. exact H2.
Qed.

Lemma spans_two_points chain p0 p1 :
  spans chain p0 = true -> spans chain p1 = true -> fst p0 < fst p1 ->
  (2 <= length chain)%nat.
Proof.
  intros H0 H1 Hlt.
  destruct (spans_spec _ _ H0) as (Hlen & Hlo & _).
  destruct (spans_spec _ _ H1) as (_ & _ & Hhi).
  destruct (Nat.eq_dec (length chain) 1%nat) as [E|E]; [|lia].
  rewrite E in Hhi. change (1 - 1)%nat with 0%nat in Hhi. lra.
Qed.

Lemma nth_map_fst (chain : list (Q * Q)) j :
  nth j (map fst chain) 0 = fst (nth j chain (0, 0)).
Proof. change 0 with (fst (0, 0)) at 1. apply map_nth. Qed.

Lemma hull_dist_bracket chain p d :
  strictly_increasing (map fst chain) = true ->
  spans chain p = true ->
  (2 <= length chain)%nat ->
  hull_dist_at (map fst chain) (map snd chain) p = Ok d ->
  exists a b q,
    d = Fin q /\ In a chain /\ In b chain
    /\ ~ fst b - fst a == 0
    /\ q * (fst b - fst a) == line_gap a b p
    /\ ((In (a, b) (edges chain) /\ fst a < fst p /\ fst p <= fst b)
        \/ (chain !! 0%nat = Some b /\ fst p == fst b)).
Proof.
  intros Hinc Hspan Hlen Hd.
  destruct (spans_spec _ _ Hspan) as (_ & Hlo & Hhi).
  destruct (bisect_left_spec (map fst chain) (fst p) Hinc) as (Hr & Hbelow & Habove).
  set (i := bisect_left (map fst chain) (fst p)) in *.
  rewrite length_map in Hr, Habove.
  assert (Hnth : forall j, nth j (map fst chain) 0 = fst (nth j chain (0, 0))).
  { intros j. change 0 with (fst (0, 0)) at 1. apply map_nth. }
  assert (Hlk : forall j, (j < length chain)%nat ->
            chain !! j = Some (nth j chain (0, 0))).
  { intros j Hj. apply lookup_nth_lt. exact Hj. }
  assert (Hlkc : forall j, (j < length chain)%nat ->
            of_option IndexError (map fst chain !! j) = Ok (fst (nth j chain (0, 0)))).
  { intros j Hj. rewrite lookup_map, Hlk by exact Hj. reflexivity. }
  assert (Hlke : forall j, (j < length chain)%nat ->
            of_option IndexError (map snd chain !! j) = Ok (snd (nth j chain (0, 0)))).
  { intros j Hj. rewrite lookup_map, Hlk by exact Hj. reflexivity. }
  assert (Hi : (i < length chain)%nat).
  { destruct (Nat.eq_dec i (length chain)) as [E|E]; [|lia].
    assert (H := Hbelow (length chain - 1)%nat). rewrite E in H.
    specialize (H ltac:(lia)). lra. }
  destruct (Nat.eq_dec i 0%nat) as [Hi0|Hi0].
  - (* the point sits at the first vertex: the pair wraps around *)
    set (a := nth (length chain - 1) chain (0, 0)).
    set (b := nth 0 chain (0, 0)).
    assert (Hab : fst b < fst a).
    { unfold a, b. rewrite <- !Hnth. apply strictly_increasing_nth; [exact Hinc|].
      rewrite length_map. lia. }
    assert (Hpx : fst p == fst b).
    { unfold b. rewrite <- Hnth. apply Qle_antisym; [|exact Hlo].
      apply Habove. lia. }
    destruct (hull_dist_at_value (map fst chain) (map snd chain) p i
                (fst a) (snd a) (fst b) (snd b)) as (q & Hq & Hgap).
    + reflexivity.
    + rewrite Hi0, np_index_minus_one by (rewrite length_map; lia).
      rewrite length_map. apply Hlke. lia.
    + rewrite Hi0, np_index_nat. apply Hlke. lia.
    + rewrite Hi0, np_index_minus_one by (rewrite length_map; lia).
      rewrite length_map. apply Hlkc. lia.
    + rewrite Hi0, np_index_nat. apply Hlkc. lia.
    + lra.
    + rewrite Hq in Hd. injection Hd as <-.
      exists a, b, q. split; [reflexivity|].
      split; [apply nth_In; lia|]. split; [apply nth_In; lia|].
      split; [lra|]. split; [destruct a, b; exact Hgap|].
      right. split; [apply Hlk; lia | exact Hpx].
  - set (a := nth (i - 1) chain (0, 0)).
    set (b := nth i chain (0, 0)).
    assert (Hab : fst a < fst b).
    { unfold a, b. rewrite <- !Hnth. apply strictly_increasing_nth; [exact Hinc|].
      rewrite length_map. lia. }
    assert (Hax : fst a < fst p).
    { unfold a. rewrite <- Hnth. apply Hbelow. lia. }
    assert (Hxb : fst p <= fst b).
    { unfold b. rewrite <- Hnth. apply Habove. lia. }
    destruct (hull_dist_at_value (map fst chain) (map snd chain) p i
                (fst a) (snd a) (fst b) (snd b)) as (q & Hq & Hgap).
    + reflexivity.
    + rewrite np_index_pred by lia. apply Hlke. lia.
    + rewrite np_index_nat. apply Hlke. lia.
    + rewrite np_index_pred by lia. apply Hlkc. lia.
    + rewrite np_index_nat. apply Hlkc. lia.
    + lra.
    + rewrite Hq in Hd. injection Hd as <-.
      exists a, b, q. split; [reflexivity|].
      split; [apply nth_In; lia|]. split; [apply nth_In; lia|].
      split; [lra|]. split; [destruct a, b; exact Hgap|].
      left. split; [|split; assumption].
      apply (edges_lookup chain (i - 1)); [apply Hlk; lia|].
      replace (S (i - 1)) with i by lia. apply Hlk. lia.
Qed.

Lemma Qmult_pos_nonneg d t : 0 < d -> 0 <= d * t -> 0 <= t.
Proof.
  intros Hd H. destruct (Qlt_le_dec t 0) as [Hneg|Hok]; [|exact Hok].
  exfalso. assert (d * t < 0) by nra. lra.
Qed.

Lemma Qmult_cancel_nonzero d q t : ~ d == 0 -> q * d == d * t -> q == t.
Proof.
  intros Hd H. apply (Qmult_inj_r q t d Hd). rewrite H. ring.
Qed.

(** No point of the set is below the line that [hull_dist_at] draws for it. *)
Lemma hull_dist_nonneg pts chain p d :
  lower_hull_ok pts chain = true ->
  In p pts ->
  (2 <= length chain)%nat ->
  hull_dist_at (map fst chain) (map snd chain) p = Ok d ->
  exists a b q,
    d = Fin q /\ In a chain /\ In b chain /\ ~ fst b - fst a == 0
    /\ q * (fst b - fst a) == line_gap a b p
    /\ ((In (a, b) (edges chain) /\ fst a < fst p /\ fst p <= fst b)
        \/ (chain !! 0%nat = Some b /\ fst p == fst b))
    /\ 0 <= q.
Proof.
  intros Hok Hp Hlen Hd.
  destruct (lower_hull_ok_spec _ _ Hok) as [Hinc Hpts].
  destruct (Hpts p Hp) as [Hspan Hsupp].
  destruct (hull_dist_bracket chain p d Hinc Hspan Hlen Hd)
    as (a & b & q & -> & Ha & Hb & Hne & Hgap & Hcase).
  exists a, b, q. do 6 (split; [first [reflexivity | assumption]|]).
  destruct Hcase as [(Hedge & Hax & Hxb)|(Hfirst & Hpx)].
  - apply (Qmult_pos_nonneg (fst b - fst a)); [lra|].
    rewrite Qmult_comm, Hgap. apply Hsupp. exact Hedge.
  - assert (Hq : q == snd p - snd b).
    { apply (Qmult_cancel_nonzero (fst b - fst a)); [exact Hne|].
      rewrite Hgap. unfold line_gap. rewrite Hpx. ring. }
    destruct (chain !! 1%nat) as [b'|] eqn:Hb'.
    + assert (Hedge : In (b, b') (edges chain)) by (apply (edges_lookup chain 0); assumption).
      assert (Hlt : fst b < fst b').
      { assert (H := strictly_increasing_nth (map fst chain) 0 1 Hinc).
        rewrite length_map in H. specialize (H ltac:(lia)).
        rewrite !nth_map_fst in H.
        rewrite (nth_lookup_Some _ _ _ _ Hfirst), (nth_lookup_Some _ _ _ _ Hb') in H.
        exact H. }
      specialize (Hsupp b b' Hedge). unfold line_gap in Hsupp.
      rewrite Hq. apply (Qmult_pos_nonneg (fst b' - fst b)); [lra|].
      assert (E : (fst b' - fst b) * (snd p - snd b)
                  == (fst b' - fst b) * (snd p - snd b)
                     - (snd b' - snd b) * (fst p - fst b)).
      { rewrite Hpx. ring. }
      rewrite E. exact Hsupp.
    + apply lookup_ge_None in Hb'. lia.
Qed.

(** ** The point set and the chain of a run *)

Lemma map_fst_combine {A B} (l1 : list A) (l2 : list B) :
  length l1 = length l2 -> map fst (combine l1 l2) = l1.
Proof.
  revert l2. induction l1 as [|a l1 IH]; intros [|b l2] H; simpl in *;
    try discriminate; [reflexivity|]. f_equal. apply IH. lia.
Qed.

Lemma map_snd_combine {A B} (l1 : list A) (l2 : list B) :
  length l1 = length l2 -> map snd (combine l1 l2) = l2.
Proof.
  revert l2. induction l1 as [|a l1 IH]; intros [|b l2] H; simpl in *;
    try discriminate; [reflexivity|]. f_equal. apply IH. lia.
Qed.

Lemma combine_snoc {A B} (l1 : list A) (l2 : list B) a b :
  length l1 = length l2 ->
  combine (l1 ++ [a]) (l2 ++ [b]) = combine l1 l2 ++ [(a, b)].
Proof.
  revert l2. induction l1 as [|x l1 IH]; intros [|y l2] H; simpl in *;
    try discriminate; [reflexivity|]. f_equal. apply IH. lia.
Qed.

(** The point set holds the two endpoints (0, 0) and (1, 0). *)
Lemma structures_endpoints CH cutoff x_elem one_minus_x_elem mus cur h :
  binary_hull_body CH cutoff x_elem one_minus_x_elem mus cur = Ok h ->
  In (0, 0) (structures h) /\ In (1, 0) (structures h).
Proof.
  intros H. destruct (binary_hull_body_inv _ _ _ _ _ _ _ H) as (rows & _ & Hs & _).
  rewrite Hs. cbn [app combine]. split; [left; reflexivity|].
  right. rewrite combine_snoc by (rewrite !length_map; reflexivity).
  apply in_or_app. right. left. reflexivity.
Qed.

(** The distances of a run of the body of [binary_hull]. *)
Lemma body_hull_distance CH cutoff x_elem one_minus_x_elem mus cur h :
  binary_hull_body CH cutoff x_elem one_minus_x_elem mus cur = Ok h ->
  lower_hull_ok (structures h) (hull_chain h) = true ->
  length (hull_dist h) = length (structures h)
  /\ forall ind p, structures h !! ind = Some p ->
       exists a b q,
         hull_dist h !! ind = Some (Fin q)
         /\ In a (hull_chain h) /\ In b (hull_chain h)
         /\ ~ fst b - fst a == 0
         /\ ((In (a, b) (edges (hull_chain h)) /\ fst a < fst p /\ fst p <= fst b)
             \/ (hull_chain h !! 0%nat = Some b /\ fst p == fst b))
         /\ q == snd p - (snd a + (snd b - snd a) / (fst b - fst a) * (fst p - fst a))
         /\ 0 <= q.
Proof.
  intros Hbody Hok.
  destruct (binary_hull_body_inv _ _ _ _ _ _ _ Hbody)
    as (rows & _ & _ & _ & Hdist & Hlen & _).
  destruct (structures_endpoints _ _ _ _ _ _ _ Hbody) as [H0 H1].
  assert (Hlen2 : (2 <= length (hull_chain h))%nat).
  { destruct (lower_hull_ok_spec _ _ Hok) as [_ Hpts].
    apply (spans_two_points _ (0, 0) (1, 0)).
    - apply Hpts. exact H0.
    - apply Hpts. exact H1.
    - reflexivity. }
  assert (Hdl := map_result_length _ _ _ Hdist).
  split; [exact Hdl|].
  intros ind p Hp.
  destruct (hull_dist h !! ind) as [d|] eqn:Hd.
  2:{ apply lookup_ge_None in Hd. apply lookup_lt_Some in Hp. lia. }
  destruct (map_result_lookup _ _ _ _ _ Hdist Hd) as (p' & Hp' & Hat).
  rewrite Hp in Hp'. injection Hp' as <-.
  unfold hull_chain in *.
  rewrite <- (map_fst_combine (hull_comp h) (hull_energy h) Hlen) in Hat at 1.
  rewrite <- (map_snd_combine (hull_comp h) (hull_energy h) Hlen) in Hat at 2.
  destruct (hull_dist_nonneg _ _ p d Hok)
    as (a & b' & q & -> & Ha & Hb & Hne & Hgap & Hcase & Hq);
    [eapply list_elem_of_In, list_elem_of_lookup_2; exact Hp | exact Hlen2 | exact Hat |].
  exists a, b', q. split; [reflexivity|]. split; [exact Ha|]. split; [exact Hb|].
  split; [exact Hne|]. split; [exact Hcase|]. split; [|exact Hq].
  apply (Qmult_inj_r _ _ (fst b' - fst a) Hne). rewrite Hgap. unfold line_gap.
  field. exact Hne.
Qed.

(** ** The chain is made of hull vertices *)

Lemma insert_key_In p l x : In x (insert_key p l) <-> x = p \/ In x l.
Proof.
  induction l as [|q l IH]; simpl.
  - intuition.
  - destruct (Qltb (fst p) (fst q)); simpl; [intuition|].
    rewrite IH. intuition.
Qed.

Lemma argsort_range a i : In i (argsort a) -> (i < length a)%nat.
Proof.
  unfold argsort. intros H. apply in_map_iff in H. destruct H as ([k j] & <- & Hin).
  cbn [snd].
  assert (Hgen : forall l acc x,
            In x (fold_left (fun acc p => insert_key p acc) l acc) -> In x l \/ In x acc).
  { induction l as [|p l IH]; intros acc x Hx; simpl in Hx; [right; exact Hx|].
    apply IH in Hx. destruct Hx as [Hx|Hx]; [left; right; exact Hx|].
    apply insert_key_In in Hx. destruct Hx as [->|Hx]; [left; left; reflexivity|].
    right. exact Hx. }
  apply Hgen in Hin. destruct Hin as [Hin|[]].
  apply in_combine_r in Hin. apply in_seq in Hin. lia.
Qed.

Lemma combine_gather a b idx :
  combine (gather a idx) (gather b idx) = map (fun i => (nth i a 0, nth i b 0)) idx.
Proof. induction idx as [|i idx IH]; simpl; [reflexivity|]. f_equal. exact IH. Qed.

Lemma select_vertices_spec (structs : list (Q * Q)) (enth : list Q) vs acc r :
  fold_result (fun acc v =>
                 let* s := of_option IndexError (structs !! v) in
                 if Qle_bool (snd s) 0
                 then let* h := of_option IndexError (enth !! v) in
                      Ok (acc ++ [(snd s, h, fst s)])
                 else Ok acc) vs acc = Ok r ->
  forall t, In t r ->
    In t acc \/ exists v, In v vs /\ structs !! v = Some (snd t, fst (fst t))
                          /\ fst (fst t) <= 0.
Proof.
  revert acc. induction vs as [|v vs IH]; intros acc Hr t Ht; cbn [fold_result] in Hr.
  - injection Hr as <-. left. exact Ht.
  - destruct (structs !! v) as [s|] eqn:Hs; cbn [of_option rbind] in Hr; [|discriminate].
    destruct (Qle_bool (snd s) 0) eqn:Hle.
    + destruct (enth !! v) as [hv|]; cbn [of_option rbind] in Hr; [|discriminate].
      destruct (IH _ Hr t Ht) as [Hacc|(v' & Hv' & Hs')].
      * apply in_app_or in Hacc. destruct Hacc as [Hacc|[<-|[]]]; [left; exact Hacc|].
        right. exists v. cbn [fst snd]. split; [left; reflexivity|].
        split; [destruct s; exact Hs | apply Qle_bool_iff; exact Hle].
      * right. exists v'. split; [right; exact Hv' | exact Hs'].
    + destruct (IH _ Hr t Ht) as [Hacc|(v' & Hv' & Hs')]; [left; exact Hacc|].
      right. exists v'. split; [right; exact Hv' | exact Hs'].
Qed.

Lemma binary_hull_body_chain CH cutoff x_elem one_minus_x_elem mus cur h c e :
  binary_hull_body CH cutoff x_elem one_minus_x_elem mus cur = Ok h ->
  In (c, e) (hull_chain h) ->
  exists v, In v (vertices h) /\ structures h !! v = Some (c, e) /\ e <= 0.
Proof.
  unfold binary_hull_body. intros H.
  bind_inv H. rename a into rows. bind_inv H. rename a into verts.
  bind_inv H. rename a into sel. bind_inv H. rename a into dist.
  injection H as <-. unfold hull_chain. cbn [structures vertices hull_comp hull_energy].
  assert (Hsel := select_vertices_spec _ _ _ _ _ E1).
  rewrite combine_gather. intros Hin. apply in_map_iff in Hin.
  destruct Hin as (i & Hi & Hperm). apply argsort_range in Hperm.
  rewrite length_map in Hperm.
  injection Hi as <- <-.
  destruct (Hsel (nth i sel (0, 0, 0))) as [[]|(v & Hv & Hs & Hle)];
    [apply nth_In; exact Hperm|].
  exists v. split; [exact Hv|].
  assert (H1 : nth i (map snd sel) 0 = snd (nth i sel (0, 0, 0)))
    by exact (map_nth snd sel (0, 0, 0) i).
  assert (H2 : nth i (map (fun t : Q * Q * Q => fst (fst t)) sel) 0
               = fst (fst (nth i sel (0, 0, 0))))
    by exact (map_nth (fun t : Q * Q * Q => fst (fst t)) sel (0, 0, 0) i).
  rewrite H1, H2. split; [exact Hs | exact Hle].
Qed.

(** ** C1: formation energies *)

(** The number of atoms of [elem], and of all atoms, in a formula unit. *)
Definition element_count (st : list (string * Z)) (elem : string) : Z :=
  fold_right (fun e acc => if String.eqb elem (fst e) then (snd e + acc)%Z else acc) 0%Z st.

Definition atom_count (st : list (string * Z)) : Z :=
  fold_right (fun e acc => (snd e + acc)%Z) 0%Z st.

(** The mole fraction of [elem] in the formula unit of a record. *)
Definition mole_fraction (d : doc) (elem : string) : Q :=
  inject_Z (element_count (stoichiometry d) elem) / inject_Z (atom_count (stoichiometry d)).

Lemma py_div_ok a b q : py_div a b = Ok q -> ~ b == 0 /\ q = a / b.
Proof.
  unfold py_div. destruct (Qeq_bool b 0) eqn:E; [discriminate|].
  intros [= <-]. split; [|reflexivity].
  intros H. apply Qeq_bool_iff in H. congruence.
Qed.

Lemma subtract_step apf (a : string) (e : string * Z) (epa f f' : Q) :
  (if String.eqb a (fst e)
   then let* share := py_div (epa * inject_Z (snd e)) (inject_Z apf) in Ok (f - share)
   else Ok f) = Ok f' ->
  f' == f - epa * (inject_Z (if String.eqb a (fst e) then snd e else 0) / inject_Z apf).
Proof.
  destruct (String.eqb a (fst e)); intros H.
  - bind_inv H. injection H as <-. apply py_div_ok in E. destruct E as [_ ->].
    unfold Qdiv. ring.
  - injection H as <-. change (inject_Z 0) with 0. unfold Qdiv. ring.
Qed.

Lemma subtract_mu_two apf e0 n0 e1 n1 f mu f' :
  subtract_mu apf [(e0, n0); (e1, n1)] f mu = Ok f' ->
  exists a, mu_elem mu = Ok a
    /\ f' == f - enthalpy_per_atom mu
                 * (inject_Z ((if String.eqb a e0 then n0 else 0)
                              + (if String.eqb a e1 then n1 else 0))
                    / inject_Z apf).
Proof.
  unfold subtract_mu. cbn [fold_result]. intros H.
  destruct (mu_elem mu) as [a|] eqn:Ha; cbn [rbind] in H; [|discriminate].
  exists a. split; [reflexivity|].
  bind_inv H. bind_inv H. injection H as <-.
  apply subtract_step in E, E0. cbn [fst snd] in E, E0.
  rewrite E0, E, inject_Z_plus. unfold Qdiv. ring.
Qed.

(** The formation energy computed for a record with a two-entry
    stoichiometry. *)
Lemma process_doc_formation x_elem one_minus_x_elem m0 m1 d r :
  length (stoichiometry d) = 2%nat ->
  process_doc x_elem one_minus_x_elem [m0; m1] d = Ok r ->
  exists a0 a1,
    mu_elem m0 = Ok a0 /\ mu_elem m1 = Ok a1
    /\ r_formation r
       == enthalpy_per_atom d
          - (enthalpy_per_atom m0 * mole_fraction d a0
             + enthalpy_per_atom m1 * mole_fraction d a1).
Proof.
  intros Hlen. unfold process_doc, mole_fraction.
  destruct (stoichiometry d) as [|[e0 n0] [|[e1 n1] [|? ?]]]; try discriminate.
  cbn [lookup list_lookup of_option rbind fst snd]. intros H.
  bind_inv H. bind_inv H. cbn [fold_result] in H.
  destruct (subtract_mu (n0 + n1) [(e0, n0); (e1, n1)] (enthalpy_per_atom d) m0)
    as [f0|] eqn:F0; cbn [rbind] in H; [|discriminate].
  destruct (subtract_mu (n0 + n1) [(e0, n0); (e1, n1)] f0 m1)
    as [f1|] eqn:F1; cbn [rbind] in H; [|discriminate].
  bind_inv H. injection H as <-. cbn [r_formation].
  destruct (subtract_mu_two _ _ _ _ _ _ _ _ F0) as (a0' & Ha0 & Hf0).
  destruct (subtract_mu_two _ _ _ _ _ _ _ _ F1) as (a1' & Ha1 & Hf1).
  exists a0', a1'. split; [exact Ha0|]. split; [exact Ha1|].
  rewrite Hf1, Hf0. cbn [element_count atom_count fold_right fst snd].
  rewrite !Z.add_0_r.
  assert (E0' : forall el, (if String.eqb el e0
                           then (n0 + (if String.eqb el e1 then n1 else 0))%Z
                           else if String.eqb el e1 then n1 else 0%Z)
                          = ((if String.eqb el e0 then n0 else 0)
                             + (if String.eqb el e1 then n1 else 0))%Z).
  { intros el. destruct (String.eqb el e0); [reflexivity|]. rewrite Z.add_0_l. reflexivity. }
  rewrite !E0'. ring.
Qed.

Lemma map_result_lookup_fwd {A B} (f : A -> result B) l r i x :
  map_result f l = Ok r -> l !! i = Some x ->
  exists y, r !! i = Some y /\ f x = Ok y.
Proof.
  intros H Hx.
  destruct (r !! i) as [y|] eqn:Hy.
  - destruct (map_result_lookup _ _ _ _ _ H Hy) as (x' & Hx' & Hf).
    rewrite Hx in Hx'. injection Hx' as <-. eauto.
  - apply lookup_ge_None in Hy. apply lookup_lt_Some in Hx.
    rewrite (map_result_length _ _ _ H) in Hy. lia.
Qed.

Lemma chain_in_structures CH cutoff x_elem one_minus_x_elem mus cur h a :
  binary_hull_body CH cutoff x_elem one_minus_x_elem mus cur = Ok h ->
  In a (hull_chain h) -> In a (structures h).
Proof.
  intros H Ha. destruct a as [c e].
  destruct (binary_hull_body_chain _ _ _ _ _ _ _ _ _ H Ha) as (v & _ & Hv & _).
  eapply list_elem_of_In, list_elem_of_lookup_2. exact Hv.
Qed.

(** Scenario 1 with any hull routine that returns the lower hull. *)
Lemma scenario1_vertex CH cutoff h :
  binary_hull_body CH cutoff "A" "B" (Scenario.A_ref, Scenario.B_ref) [Scenario.AB] = Ok h ->
  lower_hull_ok (structures h) (hull_chain h) = true ->
  structures h = [(0, 0); (1 # 2, -2 # 4); (1, 0)]
  /\ In 1%nat (vertices h)
  /\ In (1 # 2, -2 # 4) (hull_chain h)
  /\ exists q, hull_dist h !! 1%nat = Some (Fin q) /\ q == 0.
Proof.
  intros Hbody Hok.
  assert (Hs : structures h = [(0, 0); (1 # 2, -2 # 4); (1, 0)]).
  { destruct (binary_hull_body_inv _ _ _ _ _ _ _ Hbody) as (rows & Hrows & Hs & _).
    vm_compute in Hrows. injection Hrows as <-. rewrite Hs. reflexivity. }
  split; [exact Hs|].
  destruct (body_hull_distance _ _ _ _ _ _ _ Hbody Hok) as [_ Hall].
  destruct (Hall 1%nat (1 # 2, -2 # 4)) as (a & b & q & Hq & Ha & Hb & Hne & Hcase & Hval & _).
  { rewrite Hs. reflexivity. }
  destruct (lower_hull_ok_spec _ _ Hok) as [_ Hpts].
  assert (Hvert : forall c e, In (c, e) (hull_chain h) -> (c, e) = (1 # 2, -2 # 4) ->
            In 1%nat (vertices h)).
  { intros c e Hin Heq.
    destruct (binary_hull_body_chain _ _ _ _ _ _ _ _ _ Hbody Hin) as (v & Hv & Hlk & _).
    rewrite Hs, Heq in Hlk.
    destruct v as [|[|[|v]]]; try discriminate. exact Hv. }
  apply (chain_in_structures _ _ _ _ _ _ _ _ Hbody) in Ha as Ha'.
  apply (chain_in_structures _ _ _ _ _ _ _ _ Hbody) in Hb as Hb'.
  rewrite Hs in Ha', Hb'. cbn [In] in Ha', Hb'.
  destruct Hcase as [(Hedge & Hax & Hxb)|(Hfirst & Hpx)].
  - destruct Ha' as [<-|[<-|[<-|[]]]]; cbn [fst snd] in Hax; try lra.
    destruct Hb' as [<-|[<-|[<-|[]]]]; cbn [fst snd] in Hxb; try lra.
    + split; [apply (Hvert _ _ Hb eq_refl)|]. split; [exact Hb|].
      exists q. split; [exact Hq|]. rewrite Hval. reflexivity.
    + exfalso.
      destruct (Hpts (1 # 2, -2 # 4)) as [_ Hsupp]; [rewrite Hs; right; left; reflexivity|].
      specialize (Hsupp _ _ Hedge). unfold line_gap in Hsupp. cbn [fst snd] in Hsupp. lra.
  - exfalso.
    destruct (Hpts (0, 0)) as [Hspan _]; [rewrite Hs; left; reflexivity|].
    destruct (spans_spec _ _ Hspan) as (_ & Hlo & _).
    rewrite nth_map_fst in Hlo.
    rewrite (nth_lookup_Some _ _ _ _ Hfirst) in Hlo. cbn [fst] in Hlo, Hpx.
    destruct Hb' as [<-|[<-|[<-|[]]]]; cbn [fst snd] in Hpx, Hlo; lra.
Qed.

(** C1.  In a run of [binary_hull], the formation energy stored for a
    cursor record (with its two-entry stoichiometry) is its
    enthalpy per atom minus the sum, over the two chemical potentials, of
    the per-atom energy of the potential times the mole fraction of its
    element in the formula unit.  In scenario 1 (references A at -1 and B at
    -2, one compound AB with enthalpy per atom -2), for any hull routine
    that returns the lower hull, the compound sits at composition 1/2 with
    formation energy -1/2, it is a vertex of the hull and a point of the
    chain, and its hull distance is 0. *)
Theorem formation_energy :
  (forall CH repo cp cutoff elements cur h ind d,
      binary_hull CH repo cp cutoff elements cur = Ok (Some h) ->
      cur !! ind = Some d ->
      length (stoichiometry d) = 2%nat ->
      exists mu_a mu_b elem_a elem_b s f,
        get_chempots repo cp elements = Ok (mu_a, mu_b)
        /\ mu_elem mu_a = Ok elem_a /\ mu_elem mu_b = Ok elem_b
        /\ structures h !! S ind = Some (s, f)
        /\ f == enthalpy_per_atom d
                - (enthalpy_per_atom mu_a * mole_fraction d elem_a
                   + enthalpy_per_atom mu_b * mole_fraction d elem_b))
  /\ (forall CH cutoff h,
        binary_hull CH Scenario.repo_find None cutoff Scenario.elements [Scenario.AB]
        = Ok (Some h) ->
        lower_hull_ok (structures h) (hull_chain h) = true ->
        exists s f q,
          structures h !! 1%nat = Some (s, f)
          /\ s == 0.5 /\ f == -0.5
          /\ In 1%nat (vertices h)
          /\ In (s, f) (hull_chain h)
          /\ hull_dist h !! 1%nat = Some (Fin q) /\ q == 0).
Proof.
  split.
  - intros CH repo cp cutoff elements cur h ind d H Hd Hlen.
    destruct (binary_hull_inv _ _ _ _ _ _ _ H) as (x & b & [mu_a mu_b] & _ & Hmu & Hbody).
    destruct (binary_hull_body_inv _ _ _ _ _ _ _ Hbody) as (rows & Hrows & Hs & _).
    destruct (map_result_lookup_fwd _ _ _ _ _ Hrows Hd) as (r & Hr & Hproc).
    cbn [fst snd] in Hproc.
    destruct (process_doc_formation _ _ _ _ _ _ Hlen Hproc) as (a0 & a1 & Ha0 & Ha1 & Hf).
    exists mu_a, mu_b, a0, a1, (r_stoich r), (r_formation r).
    split; [exact Hmu|]. split; [exact Ha0|]. split; [exact Ha1|]. split; [|exact Hf].
    rewrite Hs. cbn [app combine lookup list_lookup].
    apply lookup_combine.
    + rewrite lookup_app_l by (rewrite length_map; eapply lookup_lt_Some; exact Hr).
      rewrite lookup_map, Hr. reflexivity.
    + rewrite lookup_app_l by (rewrite length_map; eapply lookup_lt_Some; exact Hr).
      rewrite lookup_map, Hr. reflexivity.
  - intros CH cutoff h H Hok.
    destruct (binary_hull_inv _ _ _ _ _ _ _ H) as (x & b & mus & Hel & Hmu & Hbody).
    injection Hel as <- <-. vm_compute in Hmu. injection Hmu as <-.
    destruct (scenario1_vertex _ _ _ Hbody Hok) as (Hs & Hv & Hc & q & Hq & Hq0).
    exists (1 # 2), (-2 # 4), q.
    split; [rewrite Hs; reflexivity|].
    split; [reflexivity|]. split; [reflexivity|].
    split; [exact Hv|]. split; [exact Hc|]. split; [exact Hq | exact Hq0].
Qed.

Lemma formation_energy_witness :
  binary_hull Qhull.convex_hull Scenario.repo_find None 0 Scenario.elements [Scenario.AB]
  = Ok (Some Scenario.hull1)
  /\ lower_hull_ok (structures Scenario.hull1) (hull_chain Scenario.hull1) = true
  /\ exists s f q,
       structures Scenario.hull1 !! 1%nat = Some (s, f)
       /\ s == 0.5 /\ f == -0.5
       /\ In 1%nat (vertices Scenario.hull1)
       /\ In (s, f) (hull_chain Scenario.hull1)
       /\ hull_dist Scenario.hull1 !! 1%nat = Some (Fin q) /\ q == 0.
Proof.
  split; [vm_compute; reflexivity|]. split; [vm_compute; reflexivity|].
  destruct formation_energy as [_ H].
  apply (H Qhull.convex_hull 0 Scenario.hull1).
  - vm_compute. reflexivity.
  - vm_compute. reflexivity.
Defined.

(** * Further properties of the hull code *)

(** ** The annotations written by the first loop of [binary_hull] *)

Lemma inject_Z_pos z : (0 < z)%Z -> 0 < inject_Z z.
Proof. intros H. change 0 with (inject_Z 0). rewrite <- Zlt_Qlt. exact H. Qed.

Lemma Qeq_bool_nonzero q : ~ q == 0 -> Qeq_bool q 0 = false.
Proof.
  intros H. destruct (Qeq_bool q 0) eqn:E; [|reflexivity].
  apply Qeq_bool_iff in E. contradiction.
Qed.

Lemma annotate_stoich_hit x_elem apf acc e :
  py_in x_elem (fst e) = true -> ~ inject_Z apf == 0 ->
  annotate_stoich x_elem apf acc e
  = Ok (inject_Z (snd e) / inject_Z apf,
        set_num_a (X.div (Fin (inject_Z (snd e) / inject_Z apf))
                         (Fin (1 - inject_Z (snd e) / inject_Z apf)))
                  (set_stoich (inject_Z (snd e) / inject_Z apf) (snd acc))).
Proof.
  intros Hin Hz. unfold annotate_stoich, py_div. rewrite Hin.
  destruct (Qeq_bool (inject_Z apf) 0) eqn:E; [|reflexivity].
  apply Qeq_bool_iff in E. contradiction.
Qed.

Lemma annotate_stoich_miss x_elem apf acc e :
  py_in x_elem (fst e) = false -> annotate_stoich x_elem apf acc e = Ok acc.
Proof. intros Hin. unfold annotate_stoich. rewrite Hin. reflexivity. Qed.

(** What [process_doc] returns for the two entries of a stoichiometry:
    the row is built from the last entry that [x_elem] matches. *)
Lemma process_doc_two x_elem one_minus_x_elem mus d e0 n0 e1 n1 r :
  stoichiometry d = [(e0, n0); (e1, n1)] ->
  process_doc x_elem one_minus_x_elem mus d = Ok r ->
  exists num_b sd,
    (if String.eqb e0 one_minus_x_elem then Ok n0
     else if String.eqb e1 one_minus_x_elem then Ok n1 else Raise SystemExit) = Ok num_b
    /\ py_div (enthalpy d) (inject_Z (num_b * num_fu d)) = Ok (r_enthalpy r)
    /\ fold_result (annotate_stoich x_elem (n0 + n1)) [(e0, n0); (e1, n1)]
                   (0, set_enthalpy_per_b (r_enthalpy r) d) = Ok sd
    /\ r_doc r = snd sd /\ r_stoich r = fst sd.
Proof.
  intros Hst. unfold process_doc. rewrite Hst.
  cbn [lookup list_lookup of_option rbind fst snd]. intros H.
  bind_inv H. rename a into num_b. bind_inv H. rename a into enth.
  bind_inv H. rename a into formation. bind_inv H. rename a into sd.
  injection H as <-. cbn [r_doc r_enthalpy r_stoich].
  exists num_b, sd. repeat split; assumption.
Qed.

(** X1.  A record of a compound A_na B_nb (positive counts, either order of
    the two entries, [x_elem] matching the A entry only) is annotated with
    the mole fraction [stoich = na/(na+nb)], strictly between 0 and 1, with
    [num_a = na/nb] (finite), and with [enthalpy_per_b] equal to the
    enthalpy divided by [nb * num_fu]. *)
Theorem compound_annotations x_elem one_minus_x_elem mus d ea na nb r :
  stoichiometry d = [(ea, na); (one_minus_x_elem, nb)]
  \/ stoichiometry d = [(one_minus_x_elem, nb); (ea, na)] ->
  py_in x_elem ea = true -> py_in x_elem one_minus_x_elem = false ->
  String.eqb ea one_minus_x_elem = false ->
  (0 < na)%Z -> (0 < nb)%Z ->
  process_doc x_elem one_minus_x_elem mus d = Ok r ->
  r_stoich r == inject_Z na / inject_Z (na + nb)
  /\ 0 < r_stoich r /\ r_stoich r < 1
  /\ stoich (r_doc r) = Some (r_stoich r)
  /\ (exists q, num_a (r_doc r) = Some (Fin q) /\ q == inject_Z na / inject_Z nb)
  /\ enthalpy_per_b (r_doc r) = Some (r_enthalpy r)
  /\ r_enthalpy r == enthalpy d / inject_Z (nb * num_fu d).
Proof.
  intros Hst Ha Hb Hne Hna Hnb Hr.
  assert (Hpa := inject_Z_pos _ Hna). assert (Hpb := inject_Z_pos _ Hnb).
  assert (Hsum : ~ inject_Z (na + nb) == 0) by (rewrite inject_Z_plus; lra).
  assert (Hfrac : 0 < inject_Z na / inject_Z (na + nb)
                  /\ inject_Z na / inject_Z (na + nb) < 1).
  { rewrite inject_Z_plus. split.
    - apply Qlt_shift_div_l; lra.
    - apply Qlt_shift_div_r; lra. }
  assert (Hone : ~ 1 - inject_Z na / inject_Z (na + nb) == 0) by lra.
  assert (Hq : inject_Z na / inject_Z (na + nb) / (1 - inject_Z na / inject_Z (na + nb))
               == inject_Z na / inject_Z nb).
  { rewrite inject_Z_plus. field. split; lra. }
  destruct Hst as [Hst|Hst];
    destruct (process_doc_two _ _ _ _ _ _ _ _ _ Hst Hr) as (num_b & sd & Hnum & Hdiv & Hsd & Hdoc & Hs);
    cbn [fold_result] in Hsd.
  - rewrite Hne, String.eqb_refl in Hnum. injection Hnum as <-.
    rewrite annotate_stoich_hit in Hsd by (cbn [fst]; assumption).
    cbn [rbind] in Hsd. rewrite annotate_stoich_miss in Hsd by (cbn [fst]; assumption).
    cbn [rbind] in Hsd. injection Hsd as <-. cbn [fst snd] in *.
    apply py_div_ok in Hdiv. destruct Hdiv as [_ Hdiv].
    rewrite Hs, Hdoc, (Qeq_bool_nonzero _ Hone).
    cbn [stoich num_a enthalpy_per_b set_num_a set_stoich set_enthalpy_per_b].
    split; [reflexivity|]. split; [tauto|]. split; [tauto|]. split; [reflexivity|].
    split; [eexists; split; [reflexivity|exact Hq]|]. split; [reflexivity|].
    rewrite Hdiv. reflexivity.
  - rewrite String.eqb_refl in Hnum. injection Hnum as <-.
    rewrite annotate_stoich_miss in Hsd by (cbn [fst]; assumption).
    cbn [rbind] in Hsd.
    replace (nb + na)%Z with (na + nb)%Z in Hsd by lia.
    rewrite annotate_stoich_hit in Hsd by (cbn [fst]; assumption).
    cbn [rbind] in Hsd. injection Hsd as <-. cbn [fst snd] in *.
    apply py_div_ok in Hdiv. destruct Hdiv as [_ Hdiv].
    rewrite Hs, Hdoc, (Qeq_bool_nonzero _ Hone).
    cbn [stoich num_a enthalpy_per_b set_num_a set_stoich set_enthalpy_per_b].
    split; [reflexivity|]. split; [tauto|]. split; [tauto|]. split; [reflexivity|].
    split; [eexists; split; [reflexivity|exact Hq]|]. split; [reflexivity|].
    rewrite Hdiv. reflexivity.
Qed.

Lemma compound_annotations_witness :
  exists r,
    process_doc "A" "B" [Scenario.A_ref; Scenario.B_ref] Scenario.A2B = Ok r
    /\ r_stoich r == 2 / 3
    /\ exists q, num_a (r_doc r) = Some (Fin q) /\ q == 2.
Proof.
  eexists. split; [vm_compute; reflexivity|].
  destruct (compound_annotations "A" "B" [Scenario.A_ref; Scenario.B_ref] Scenario.A2B
              "A" 2 1 _ (or_introl eq_refl) eq_refl eq_refl eq_refl eq_refl eq_refl eq_refl)
    as (Hs & _ & _ & _ & (q & Hq & Hq2) & _).
  split; [exact Hs|]. exists q. split; [exact Hq | exact Hq2].
Defined.

(** X2.  The test [x_elem in elem[0]] is a substring test.  When the name
    of element A occurs inside both element names of a record (as "C" in
    "C" and in "Cl"), both entries match and the later one wins: [stoich]
    is the share of the second entry, whichever element that is. *)
Theorem substring_match_takes_last x_elem one_minus_x_elem mus d e0 n0 e1 n1 r :
  stoichiometry d = [(e0, n0); (e1, n1)] ->
  py_in x_elem e0 = true -> py_in x_elem e1 = true ->
  process_doc x_elem one_minus_x_elem mus d = Ok r ->
  r_stoich r = inject_Z n1 / inject_Z (n0 + n1)
  /\ stoich (r_doc r) = Some (inject_Z n1 / inject_Z (n0 + n1)).
Proof.
  intros Hst H0 H1 Hr.
  destruct (process_doc_two _ _ _ _ _ _ _ _ _ Hst Hr) as (num_b & sd & _ & _ & Hsd & Hdoc & Hs).
  cbn [fold_result] in Hsd. unfold annotate_stoich in Hsd. cbn [fst snd] in Hsd.
  rewrite H0, H1 in Hsd.
  destruct (py_div (inject_Z n0) (inject_Z (n0 + n1))) as [s0|]; cbn [rbind] in Hsd;
    [|discriminate].
  destruct (py_div (inject_Z n1) (inject_Z (n0 + n1))) as [s1|] eqn:E1; cbn [rbind] in Hsd;
    [|discriminate].
  injection Hsd as <-. apply py_div_ok in E1. destruct E1 as [_ ->].
  rewrite Hs, Hdoc. split; reflexivity.
Qed.

Lemma substring_match_takes_last_witness :
  exists r,
    process_doc "C" "Cl"
      [Scenario.mk "C" [("C"%string, 1%Z)] (-1) (-1);
       Scenario.mk "Cl" [("Cl"%string, 1%Z)] (-2) (-2)]
      (Scenario.mk "CCl3" [("C"%string, 1%Z); ("Cl"%string, 3%Z)] (-8) (-2)) = Ok r
    /\ r_stoich r = inject_Z 3 / inject_Z (1 + 3).
Proof.
  eexists. split; [vm_compute; reflexivity|].
  apply (substring_match_takes_last "C" "Cl"
           [Scenario.mk "C" [("C"%string, 1%Z)] (-1) (-1);
            Scenario.mk "Cl" [("Cl"%string, 1%Z)] (-2) (-2)]
           (Scenario.mk "CCl3" [("C"%string, 1%Z); ("Cl"%string, 3%Z)] (-8) (-2))
           "C" 1 "Cl" 3 _ eq_refl eq_refl eq_refl eq_refl).
Defined.

(** X3.  A record neither of whose first two stoichiometry entries names
    element B makes the first loop call [exit()]; a record whose B count
    times [num_fu] is zero raises [ZeroDivisionError].  Either way
    [binary_hull] stops at that record when it is the first of the
    cursor. *)
Theorem record_without_b_exits CH cutoff x_elem one_minus_x_elem mus d cur
    e0 n0 e1 n1 rest :
  stoichiometry d = (e0, n0) :: (e1, n1) :: rest ->
  (String.eqb e0 one_minus_x_elem = false ->
   String.eqb e1 one_minus_x_elem = false ->
   process_doc x_elem one_minus_x_elem [fst mus; snd mus] d = Raise SystemExit
   /\ binary_hull_body CH cutoff x_elem one_minus_x_elem mus (d :: cur) = Raise SystemExit)
  /\ (String.eqb e0 one_minus_x_elem = true -> (n0 * num_fu d = 0)%Z ->
      process_doc x_elem one_minus_x_elem [fst mus; snd mus] d = Raise ZeroDivisionError
      /\ binary_hull_body CH cutoff x_elem one_minus_x_elem mus (d :: cur)
         = Raise ZeroDivisionError).
Proof.
  intros Hst. split.
  - intros H0 H1.
    assert (Hp : process_doc x_elem one_minus_x_elem [fst mus; snd mus] d = Raise SystemExit).
    { unfold process_doc. rewrite Hst. cbn [lookup list_lookup of_option rbind fst snd].
      rewrite H0, H1. reflexivity. }
    split; [exact Hp|]. unfold binary_hull_body. cbn [map_result]. rewrite Hp. reflexivity.
  - intros H0 Hz.
    assert (Hp : process_doc x_elem one_minus_x_elem [fst mus; snd mus] d
                 = Raise ZeroDivisionError).
    { unfold process_doc. rewrite Hst. cbn [lookup list_lookup of_option rbind fst snd].
      rewrite H0. cbn [rbind]. rewrite Hz. reflexivity. }
    split; [exact Hp|]. unfold binary_hull_body. cbn [map_result]. rewrite Hp. reflexivity.
Qed.

Lemma record_without_b_exits_witness :
  binary_hull_body Qhull.convex_hull 0 "A" "B" (Scenario.A_ref, Scenario.B_ref)
    [Scenario.mk "AC" [("A"%string, 1%Z); ("C"%string, 1%Z)] (-2) (-1); Scenario.AB]
  = Raise SystemExit.
Proof.
  destruct (record_without_b_exits Qhull.convex_hull 0 "A" "B"
              (Scenario.A_ref, Scenario.B_ref)
              (Scenario.mk "AC" [("A"%string, 1%Z); ("C"%string, 1%Z)] (-2) (-1))
              [Scenario.AB] "A" 1 "C" 1 [] eq_refl) as [H _].
  apply H; reflexivity.
Defined.

(** ** The near-hull list *)

Lemma annotate_fold_identity x_elem apf st acc sd :
  fold_result (annotate_stoich x_elem apf) st acc = Ok sd ->
  text_id (snd sd) = text_id (snd acc)
  /\ stoichiometry (snd sd) = stoichiometry (snd acc)
  /\ enthalpy_per_atom (snd sd) = enthalpy_per_atom (snd acc)
  /\ enthalpy_per_b (snd sd) = enthalpy_per_b (snd acc).
Proof.
  revert acc. induction st as [|e st IH]; intros acc H; cbn [fold_result] in H.
  - injection H as <-. repeat split.
  - bind_inv H. rename a into acc'. destruct (IH _ H) as (H1 & H2 & H3 & H4).
    rewrite H1, H2, H3, H4. unfold annotate_stoich in E.
    destruct (py_in x_elem (fst e)).
    + bind_inv E. injection E as <-. repeat split.
    + injection E as <-. repeat split.
Qed.

(** The first loop changes none of the stored keys of a record. *)
Lemma process_doc_identity x_elem one_minus_x_elem mus d r :
  process_doc x_elem one_minus_x_elem mus d = Ok r ->
  text_id (r_doc r) = text_id d
  /\ stoichiometry (r_doc r) = stoichiometry d
  /\ enthalpy_per_atom (r_doc r) = enthalpy_per_atom d
  /\ enthalpy_per_b (r_doc r) = Some (r_enthalpy r).
Proof.
  unfold process_doc. intros H.
  bind_inv H. bind_inv H. bind_inv H. bind_inv H. bind_inv H. bind_inv H.
  injection H as <-. cbn [r_doc r_enthalpy].
  destruct (annotate_fold_identity _ _ _ _ _ E4) as (H1 & H2 & H3 & H4).
  rewrite H1, H2, H3, H4. repeat split.
Qed.

Lemma lookup_combine_inv {A B} (l1 : list A) (l2 : list B) i a b :
  combine l1 l2 !! i = Some (a, b) -> l1 !! i = Some a /\ l2 !! i = Some b.
Proof.
  revert l2 i. induction l1 as [|x l1 IH]; intros [|y l2] [|i]; simpl;
    try discriminate.
  - intros [= <- <-]. split; reflexivity.
  - apply IH.
Qed.

Lemma lookup_removelast {A} (l : list A) i x :
  removelast l !! i = Some x <-> l !! i = Some x /\ (S i < length l)%nat.
Proof.
  revert i. induction l as [|a l IH]; intros i.
  - simpl. split; [discriminate | intros [H _]; discriminate].
  - destruct l as [|b l].
    + simpl. split; [discriminate|]. intros [_ H]. simpl in H. lia.
    + change (removelast (a :: b :: l)) with (a :: removelast (b :: l)).
      destruct i as [|i].
      * simpl. split; [intros H; split; [exact H | lia] | tauto].
      * change ((a :: removelast (b :: l)) !! S i) with (removelast (b :: l) !! i).
        change ((a :: b :: l) !! S i) with ((b :: l) !! i).
        rewrite IH. cbn [length]. split; intros [H1 H2]; (split; [exact H1 | lia]).
Qed.

Lemma lookup_tl {A} (l : list A) i : tl l !! i = l !! S i.
Proof. destruct l; reflexivity. Qed.

Lemma near_hull_In cutoff dcs d :
  In d (near_hull cutoff dcs) <->
  exists dist rdoc, In (dist, rdoc) dcs
    /\ X.leb dist (Fin (cutoff + 1e-12)) = true
    /\ d = set_hull_distance dist rdoc.
Proof.
  unfold near_hull. rewrite in_map_iff. split.
  - intros ([dist rdoc] & <- & Hin). apply list_elem_of_In, list_elem_of_filter in Hin.
    destruct Hin as [Hle Hin]. exists dist, rdoc. cbn [fst snd] in *.
    split; [apply list_elem_of_In; exact Hin|]. split; [exact Hle | reflexivity].
  - intros (dist & rdoc & Hin & Hle & ->). exists (dist, rdoc). split; [reflexivity|].
    apply list_elem_of_In, list_elem_of_filter. split; [exact Hle|].
    apply list_elem_of_In. exact Hin.
Qed.

(** X4.  Between the two endpoints, [hull_cursor] holds exactly the cursor
    records whose hull distance is at most the cutoff plus 1e-12, each
    with its annotations and with [hull_distance] set to that distance. *)
Theorem hull_cursor_within_cutoff CH cutoff x_elem one_minus_x_elem mus cur h :
  binary_hull_body CH cutoff x_elem one_minus_x_elem mus cur = Ok h ->
  exists mid,
    hull_cursor h = annotate_chempot (Fin 0) (snd mus) :: mid
                    ++ [annotate_chempot PInf (fst mus)]
    /\ forall d,
         In d mid <->
         exists ind d0 r dist,
           cur !! ind = Some d0
           /\ process_doc x_elem one_minus_x_elem [fst mus; snd mus] d0 = Ok r
           /\ hull_dist h !! S ind = Some dist
           /\ X.leb dist (Fin (cutoff + 1e-12)) = true
           /\ d = set_hull_distance dist (r_doc r).
Proof.
  intros H.
  destruct (binary_hull_body_inv _ _ _ _ _ _ _ H)
    as (rows & Hrows & Hs & _ & Hdist & _ & Hcur & _).
  assert (Hlen_rows := map_result_length _ _ _ Hrows).
  assert (Hlen_dist : length (hull_dist h) = (length rows + 2)%nat).
  { rewrite (map_result_length _ _ _ Hdist), Hs. cbn [app].
    rewrite length_combine. cbn [length]. rewrite !length_app, !length_map. cbn [length]. lia. }
  eexists. split; [exact Hcur|].
  intros d. rewrite near_hull_In. split.
  - intros (dist & rdoc & Hin & Hle & ->).
    apply list_elem_of_In, list_elem_of_lookup in Hin. destruct Hin as [ind Hind].
    apply lookup_combine_inv in Hind. destruct Hind as [Hd Hr].
    apply lookup_removelast in Hd. destruct Hd as [Hd _]. rewrite lookup_tl in Hd.
    rewrite lookup_map in Hr. destruct (rows !! ind) as [r|] eqn:Hrow; [|discriminate].
    injection Hr as <-.
    destruct (map_result_lookup _ _ _ _ _ Hrows Hrow) as (d0 & Hd0 & Hp).
    exists ind, d0, r, dist. repeat split; assumption.
  - intros (ind & d0 & r & dist & Hd0 & Hp & Hd & Hle & ->).
    destruct (map_result_lookup_fwd _ _ _ _ _ Hrows Hd0) as (r' & Hrow & Hp').
    rewrite Hp in Hp'. injection Hp' as <-.
    exists dist, (r_doc r). split; [|split; [exact Hle | reflexivity]].
    apply list_elem_of_In. apply (list_elem_of_lookup_2 _ ind).
    apply lookup_combine.
    + apply lookup_removelast. rewrite lookup_tl. split; [exact Hd|].
      destruct (hull_dist h) as [|x0 l]; [discriminate|]. cbn [tl length] in *.
      apply lookup_lt_Some in Hrow. lia.
    + rewrite lookup_map, Hrow. reflexivity.
Qed.

Lemma hull_cursor_within_cutoff_witness :
  exists mid,
    hull_cursor Scenario.hull3
    = annotate_chempot (Fin 0) Scenario.B_ref :: mid ++ [annotate_chempot PInf Scenario.A_ref]
    /\ length mid = 3%nat.
Proof.
  destruct (hull_cursor_within_cutoff Qhull.convex_hull 0.3 "A" "B"
              (Scenario.A_ref, Scenario.B_ref)
              [Scenario.AB; Scenario.AB_high; Scenario.A2B] Scenario.hull3)
    as (mid & Hmid & _).
  - vm_compute. reflexivity.
  - exists mid. split; [exact Hmid|].
    apply (f_equal (@length doc)) in Hmid. cbn [fst snd] in Hmid.
    change (length (hull_cursor Scenario.hull3)) with 5%nat in Hmid.
    cbn [length] in Hmid. rewrite length_app in Hmid. cbn [length] in Hmid. lia.
Defined.

Lemma xleb_fin_mono x a b : X.leb x (Fin a) = true -> a <= b -> X.leb x (Fin b) = true.
Proof.
  unfold X.leb. destruct x as [p| | |]; cbn [X.ltb X.eqb]; try (intros; assumption).
  intros H Hab. apply orb_true_iff in H. apply orb_true_iff.
  assert (Hp : p <= a).
  { destruct H as [H|H]; [apply Qltb_lt in H; lra | apply Qeq_bool_iff in H; lra]. }
  destruct (Qlt_le_dec p b) as [Hlt|Hge].
  - left. apply Qltb_lt. exact Hlt.
  - right. apply Qeq_bool_iff. lra.
Qed.

(** Two runs that differ in the cutoff only share everything but the
    near-hull selection. *)
Lemma two_cutoffs CH c1 c2 x_elem one_minus_x_elem mus cur h1 h2 :
  binary_hull_body CH c1 x_elem one_minus_x_elem mus cur = Ok h1 ->
  binary_hull_body CH c2 x_elem one_minus_x_elem mus cur = Ok h2 ->
  structures h1 = structures h2
  /\ hull_dist h1 = hull_dist h2
  /\ hull_comp h1 = hull_comp h2
  /\ hull_energy h1 = hull_energy h2
  /\ exists inner,
       hull_cursor h1 = [annotate_chempot (Fin 0) (snd mus)] ++ near_hull c1 inner
                        ++ [annotate_chempot PInf (fst mus)]
       /\ hull_cursor h2 = [annotate_chempot (Fin 0) (snd mus)] ++ near_hull c2 inner
                           ++ [annotate_chempot PInf (fst mus)].
Proof.
  unfold binary_hull_body. intros H1 H2.
  bind_inv H1. cbn [rbind] in H2.
  bind_inv H1. cbn [rbind] in H2.
  bind_inv H1. cbn [rbind] in H2.
  bind_inv H1. cbn [rbind] in H2.
  injection H1 as <-. injection H2 as <-.
  cbn [structures hull_dist hull_comp hull_energy hull_cursor].
  repeat (split; [reflexivity|]). eexists. split; reflexivity.
Qed.

(** X5.  Raising the cutoff never removes a record from [hull_cursor], and
    the hull distances themselves do not depend on the cutoff. *)
Theorem cutoff_monotone CH c1 c2 x_elem one_minus_x_elem mus cur h1 h2 :
  binary_hull_body CH c1 x_elem one_minus_x_elem mus cur = Ok h1 ->
  binary_hull_body CH c2 x_elem one_minus_x_elem mus cur = Ok h2 ->
  c1 <= c2 ->
  hull_dist h1 = hull_dist h2
  /\ forall d, In d (hull_cursor h1) -> In d (hull_cursor h2).
Proof.
  intros H1 H2 Hc.
  destruct (two_cutoffs _ _ _ _ _ _ _ _ _ H1 H2) as (_ & Hd & _ & _ & inner & Hc1 & Hc2).
  split; [exact Hd|]. intros d. rewrite Hc1, Hc2. rewrite !in_app_iff.
  intros [H|[H|H]]; [left; exact H | right; left | right; right; exact H].
  apply near_hull_In in H. destruct H as (dist & rdoc & Hin & Hle & ->).
  apply near_hull_In. exists dist, rdoc. split; [exact Hin|]. split; [|reflexivity].
  apply (xleb_fin_mono _ (c1 + 1e-12)); [exact Hle | lra].
Qed.

Lemma cutoff_monotone_witness :
  hull_dist Scenario.hull1 = hull_dist (Scenario.run 0.3 [Scenario.AB])
  /\ forall d, In d (hull_cursor Scenario.hull1) ->
               In d (hull_cursor (Scenario.run 0.3 [Scenario.AB])).
Proof.
  apply (cutoff_monotone Qhull.convex_hull 0 0.3 "A" "B"
           (Scenario.A_ref, Scenario.B_ref) [Scenario.AB]).
  - vm_compute. reflexivity.
  - vm_compute. reflexivity.
  - apply Qle_bool_iff. vm_compute. reflexivity.
Defined.

(** ** Points outside the span of the hull *)

Lemma np_index_raises {A} (a : list A) i e : np_index a i = Raise e -> e = IndexError.
Proof.
  unfold np_index. destruct (0 <=? i)%Z.
  - destruct (a !! Z.to_nat i); simpl; congruence.
  - destruct (- Z.of_nat (length a) <=? i)%Z; [|congruence].
    destruct (a !! Z.to_nat (Z.of_nat (length a) + i)); simpl; congruence.
Qed.

(** X6.  [hull_dist_at] outside the span of the hull compositions.  A point
    to the right of every hull composition makes [bisect_left] return the
    length of the array and the lookup [hull_comp[i]] raise [IndexError].
    A point to the left of every hull composition raises nothing: index 0
    wraps to the last vertex, and the distance is measured from the line
    through the last and the first vertex of the hull. *)
Theorem hull_dist_out_of_span comps energies p :
  strictly_increasing comps = true ->
  ((forall j, (j < length comps)%nat -> nth j comps 0 < fst p) ->
   hull_dist_at comps energies p = Raise IndexError)
  /\ ((2 <= length comps)%nat -> length energies = length comps ->
      fst p < nth 0 comps 0 ->
      exists q,
        hull_dist_at comps energies p = Ok (Fin q)
        /\ q * (nth 0 comps 0 - nth (length comps - 1) comps 0)
           == line_gap (nth (length comps - 1) comps 0, nth (length comps - 1) energies 0)
                       (nth 0 comps 0, nth 0 energies 0) p).
Proof.
  intros Hinc.
  destruct (bisect_left_spec comps (fst p) Hinc) as (Hr & Hbelow & Habove).
  split.
  - intros Hall.
    assert (Hi : bisect_left comps (fst p) = length comps).
    { destruct (Nat.eq_dec (bisect_left comps (fst p)) (length comps)) as [E|E]; [exact E|].
      exfalso. assert (H1 := Habove (bisect_left comps (fst p)) ltac:(lia)).
      assert (H2 := Hall (bisect_left comps (fst p)) ltac:(lia)). lra. }
    unfold hull_dist_at. rewrite Hi.
    assert (Hc1 : np_index comps (Z.of_nat (length comps)) = Raise IndexError).
    { rewrite np_index_nat. rewrite (proj2 (lookup_ge_None comps (length comps))) by lia.
      reflexivity. }
    destruct (np_index energies (Z.of_nat (length comps) - 1)) as [e0|x] eqn:E0;
      cbn [rbind]; [|f_equal; eapply np_index_raises; exact E0].
    destruct (np_index energies (Z.of_nat (length comps))) as [e1|x] eqn:E1;
      cbn [rbind]; [|f_equal; eapply np_index_raises; exact E1].
    destruct (np_index comps (Z.of_nat (length comps) - 1)) as [c0|x] eqn:E2;
      cbn [rbind]; [|f_equal; eapply np_index_raises; exact E2].
    rewrite Hc1. reflexivity.
  - intros Hlen Hlen_e Hleft.
    assert (Hi : bisect_left comps (fst p) = 0%nat).
    { destruct (Nat.eq_dec (bisect_left comps (fst p)) 0%nat) as [E|E]; [exact E|].
      exfalso. assert (H1 := Hbelow 0%nat ltac:(lia)). lra. }
    assert (Hlast : nth 0 comps 0 < nth (length comps - 1) comps 0).
    { apply strictly_increasing_nth; [exact Hinc | lia]. }
    apply (hull_dist_at_value comps energies p 0).
    + exact Hi.
    + rewrite np_index_minus_one by lia. rewrite Hlen_e.
      rewrite (lookup_nth_lt energies _ 0) by lia. reflexivity.
    + rewrite np_index_nat. rewrite (lookup_nth_lt energies _ 0) by lia. reflexivity.
    + rewrite np_index_minus_one by lia.
      rewrite (lookup_nth_lt comps _ 0) by lia. reflexivity.
    + rewrite np_index_nat. rewrite (lookup_nth_lt comps _ 0) by lia. reflexivity.
    + lra.
Qed.

Lemma hull_dist_out_of_span_witness :
  hull_dist_at [0; 1 # 2] [0; -1] (1, 0) = Raise IndexError
  /\ exists q, hull_dist_at [1 # 4; 1 # 2] [0; -1] (0, 0) = Ok (Fin q).
Proof.
  split.
  - destruct (hull_dist_out_of_span [0; 1 # 2] [0; -1] (1, 0) eq_refl) as [H _].
    apply H. intros [|[|j]] Hj; cbn in Hj |- *; [reflexivity | reflexivity | lia].
  - destruct (hull_dist_out_of_span [1 # 4; 1 # 2] [0; -1] (0, 0) eq_refl) as [_ H].
    destruct H as (q & Hq & _); [cbn; lia | reflexivity | reflexivity |].
    exists q. exact Hq.
Defined.

(** ** When [voltage_curve] succeeds *)

Lemma rev_seq_S m : rev (seq 1 (S m)) = S m :: rev (seq 1 m).
Proof. rewrite seq_S, rev_app_distr. reflexivity. Qed.

Lemma voltage_at_ok E nums mu0 i :
  (1 <= i)%nat -> (i < length E)%nat -> (i < length nums)%nat ->
  voltage_at E nums mu0 i
  = Ok (X.add (X.div (X.opp (Fin (nth i E 0 - nth (i - 1) E 0)))
                     (Fin (nth i nums 0 - nth (i - 1) nums 0))) (Fin mu0),
        nth i nums 0).
Proof.
  intros H1 HE HN. unfold voltage_at.
  rewrite (lookup_nth_lt E i 0), (lookup_nth_lt E (i - 1) 0) by lia.
  rewrite (lookup_nth_lt nums i 0), (lookup_nth_lt nums (i - 1) 0) by lia.
  reflexivity.
Qed.

(** With two stable points or more and an enthalpy for each, only the
    lookup of the second element name is left to fail. *)
Lemma voltage_curve_prefix get_capacities get_molar_mass
    (stable_enthalpy_per_b stable_comp : list Q) (mu : Q * Q) (elements : list string) :
  (2 <= length stable_comp)%nat ->
  (length stable_comp <= length stable_enthalpy_per_b)%nat ->
  exists V x,
    length V = length stable_comp /\ length x = length stable_comp
    /\ voltage_curve get_capacities get_molar_mass stable_enthalpy_per_b stable_comp
                     mu elements
       = (let* elem_b := of_option IndexError (elements !! 1%nat) in
          Ok (mkCurve V x (map (fun n => get_capacities (Fin n) (get_molar_mass elem_b)) x))).
Proof.
  intros Hn2 HE.
  remember (length stable_comp) as n eqn:Hn.
  unfold voltage_curve. rewrite length_map, <- Hn.
  set (nums := map stable_num_of stable_comp).
  assert (Hnums : length nums = n) by (unfold nums; rewrite length_map; lia).
  set (g := fun i => (X.add (X.div (X.opp (Fin (nth i stable_enthalpy_per_b 0
                                            - nth (i - 1) stable_enthalpy_per_b 0)))
                             (Fin (nth i nums 0 - nth (i - 1) nums 0))) (Fin (fst mu)),
                      nth i nums 0)).
  assert (Hmap : map_result (voltage_at stable_enthalpy_per_b nums (fst mu))
                            (rev (seq 1 (n - 1)))
                 = Ok (map g (rev (seq 1 (n - 1))))).
  { apply map_result_total. intros i Hi. apply in_rev, in_seq in Hi.
    apply voltage_at_ok; lia. }
  rewrite Hmap. cbn [rbind].
  assert (Hlast : last (map fst (map g (rev (seq 1 (n - 1))))) = Some (fst (g 1%nat))).
  { replace (n - 1)%nat with (S (n - 2)) by lia.
    cbn [seq rev]. rewrite !map_app. cbn [map]. apply last_snoc. }
  rewrite Hlast. cbn [of_option rbind].
  eexists _, _. split; [|split; [|reflexivity]].
  - rewrite length_app, !length_map, length_rev, length_seq. cbn [length]. lia.
  - rewrite length_app, !length_map, length_rev, length_seq. cbn [length]. lia.
Qed.

(** X7.  [voltage_curve] returns a curve exactly when there are at least
    two stable compositions, an enthalpy for each of them, and a second
    element name; the curve then has one voltage per stable composition.
    In every other case it raises [IndexError] (from [V[-1]] on an empty
    list, from a missing enthalpy, or from [elements[1]]). *)
Theorem voltage_curve_succeeds_iff get_capacities get_molar_mass
    (stable_enthalpy_per_b stable_comp : list Q) (mu : Q * Q) (elements : list string) :
  let n := length stable_comp in
  let ok := (2 <= n)%nat /\ (n <= length stable_enthalpy_per_b)%nat
            /\ (2 <= length elements)%nat in
  (ok -> exists c,
      voltage_curve get_capacities get_molar_mass stable_enthalpy_per_b stable_comp
                    mu elements = Ok c
      /\ length (voltages c) = n /\ length (curve_x c) = n
      /\ length (curve_Q c) = n)
  /\ (~ ok ->
      voltage_curve get_capacities get_molar_mass stable_enthalpy_per_b stable_comp
                    mu elements = Raise IndexError).
Proof.
  intros n ok.
  assert (Hn : n = length stable_comp) by reflexivity. clearbody n.
  destruct (le_lt_dec 2 n) as [Hn2|Hn1].
  2:{ unfold voltage_curve. rewrite length_map, <- Hn.
      assert (Hidx : (n - 1 = 0)%nat) by lia. rewrite Hidx. cbn.
      split; [intros (H & _); lia | reflexivity]. }
  destruct (le_lt_dec n (length stable_enthalpy_per_b)) as [HE|HE].
  2:{ unfold voltage_curve. rewrite length_map, <- Hn.
      split; [intros (_ & H & _); lia|]. intros _.
      replace (n - 1)%nat with (S (n - 2)) by lia. rewrite rev_seq_S.
      cbn [map_result]. unfold voltage_at at 1.
      rewrite (proj2 (lookup_ge_None stable_enthalpy_per_b (S (n - 2)))) by lia.
      reflexivity. }
  destruct (voltage_curve_prefix get_capacities get_molar_mass stable_enthalpy_per_b
              stable_comp mu elements) as (V & x & HV & Hx & ->); [lia | lia |].
  destruct (elements !! 1%nat) as [elem_b|] eqn:Hel; cbn [of_option rbind].
  - split; [|intros Hno; exfalso; apply Hno; apply lookup_lt_Some in Hel; unfold ok; lia].
    intros _. eexists. split; [reflexivity|]. cbn [voltages curve_x curve_Q].
    rewrite length_map. repeat split; lia.
  - apply lookup_ge_None in Hel.
    split; [intros (_ & _ & H); lia | reflexivity].
Qed.

Lemma voltage_curve_succeeds_iff_witness :
  (exists c, voltage_curve Scenario.get_capacities Scenario.get_molar_mass
               [-2; -4; -1] [0; 1 # 2; 1] (-1, -2) Scenario.elements = Ok c
             /\ length (voltages c) = 3%nat)
  /\ voltage_curve Scenario.get_capacities Scenario.get_molar_mass
       [-2] [0] (-1, -2) Scenario.elements = Raise IndexError.
Proof.
  split.
  - destruct (voltage_curve_succeeds_iff Scenario.get_capacities Scenario.get_molar_mass
                [-2; -4; -1] [0; 1 # 2; 1] (-1, -2) Scenario.elements) as [H _].
    destruct H as (c & Hc & Hv & _); [cbn; lia|]. exists c. split; [exact Hc | exact Hv].
  - destruct (voltage_curve_succeeds_iff Scenario.get_capacities Scenario.get_molar_mass
                [-2] [0] (-1, -2) Scenario.elements) as [_ H].
    apply H. cbn. lia.
Defined.

(** ** Sorting an array that is sorted already *)

Lemma insert_key_length p l : length (insert_key p l) = S (length l).
Proof.
  induction l as [|q l IH]; simpl; [reflexivity|].
  destruct (Qltb (fst p) (fst q)); simpl; [reflexivity|]. rewrite IH. reflexivity.
Qed.

Lemma argsort_length a : length (argsort a) = length a.
Proof.
  unfold argsort. rewrite length_map.
  assert (Hgen : forall l acc,
            length (fold_left (fun acc p => insert_key p acc) l acc)
            = (length l + length acc)%nat).
  { induction l as [|p l IH]; intros acc; simpl; [reflexivity|].
    rewrite IH, insert_key_length. lia. }
  rewrite Hgen, length_combine, length_seq. simpl. lia.
Qed.

Lemma insert_key_above p l :
  Forall (fun q => fst q < fst p) l -> insert_key p l = l ++ [p].
Proof.
  induction 1 as [|q l Hq _ IH]; simpl; [reflexivity|].
  replace (Qltb (fst p) (fst q)) with false by (symmetry; apply Qltb_ge; lra).
  rewrite IH. reflexivity.
Qed.

Lemma fold_insert_sorted l acc :
  strictly_increasing (map fst (acc ++ l)) = true ->
  fold_left (fun acc p => insert_key p acc) l acc = acc ++ l.
Proof.
  revert acc. induction l as [|p l IH]; intros acc H; simpl.
  - rewrite app_nil_r. reflexivity.
  - rewrite insert_key_above.
    + rewrite IH; rewrite <- app_assoc; [reflexivity | exact H].
    + apply List.Forall_forall. intros q Hq.
      apply (In_nth _ _ (0, 0%nat)) in Hq. destruct Hq as (j & Hj & <-).
      assert (Hlt := strictly_increasing_nth (map fst (acc ++ p :: l)) j (length acc) H).
      rewrite length_map, length_app in Hlt. cbn [length] in Hlt.
      specialize (Hlt ltac:(lia)).
      change 0 with (fst (0, 0%nat)) in Hlt at 1 2. rewrite !map_nth in Hlt.
      rewrite app_nth1 in Hlt by lia. rewrite app_nth2 in Hlt by lia.
      rewrite Nat.sub_diag in Hlt. exact Hlt.
Qed.

Lemma gather_seq a : gather a (seq 0 (length a)) = a.
Proof.
  unfold gather. apply (nth_ext _ _ 0 0).
  - rewrite length_map, length_seq. reflexivity.
  - intros i Hi. rewrite length_map, length_seq in Hi.
    rewrite (nth_indep _ 0 ((fun i => nth i a 0) 0%nat))
      by (rewrite length_map, length_seq; exact Hi).
    rewrite (map_nth (fun i => nth i a 0)).
    rewrite seq_nth by lia. reflexivity.
Qed.

(** Sorting a strictly increasing array changes nothing. *)
Lemma argsort_sorted a :
  strictly_increasing a = true -> argsort a = seq 0 (length a).
Proof.
  intros H. unfold argsort. rewrite fold_insert_sorted.
  - cbn [app]. apply map_snd_combine. rewrite length_seq. reflexivity.
  - cbn [app]. rewrite map_fst_combine by (rewrite length_seq; reflexivity). exact H.
Qed.

Lemma binary_hull_body_stable CH cutoff x_elem one_minus_x_elem mus cur h :
  binary_hull_body CH cutoff x_elem one_minus_x_elem mus cur = Ok h ->
  stable_comp h = gather (hull_comp h) (argsort (hull_comp h))
  /\ length (stable_enthalpy_per_b h) = length (hull_comp h).
Proof.
  unfold binary_hull_body. intros H.
  bind_inv H. bind_inv H. bind_inv H. bind_inv H. injection H as <-.
  cbn [stable_comp stable_enthalpy_per_b hull_comp].
  split; [reflexivity|]. rewrite !gather_length, !argsort_length, gather_length.
  rewrite argsort_length. reflexivity.
Qed.

(** ** The sampler: picking a structure *)

Lemma pick_loop_none_eligible fuel structs last b g :
  structs <> [] ->
  num_a last = Some b ->
  Forall (fun d => exists a, num_a d = Some a /\ X.ltb a b = false) structs ->
  pick_loop fuel structs last g = Raise SystemExit.
Proof.
  intros Hne Hlast Hall. revert g.
  induction fuel as [|fuel IH]; intros g; cbn [pick_loop]; [reflexivity|].
  unfold randint.
  destruct (length structs =? 0)%nat eqn:Hlen.
  { apply Nat.eqb_eq in Hlen. destruct structs; [congruence | discriminate]. }
  apply Nat.eqb_neq in Hlen. cbn [rbind fst snd].
  assert (Hi : (draws g (pos g) mod length structs < length structs)%nat)
    by (apply Nat.mod_upper_bound; exact Hlen).
  rewrite (lookup_nth_lt structs _ last Hi). cbn [of_option rbind].
  rewrite List.Forall_forall in Hall.
  destruct (Hall (nth (draws g (pos g) mod length structs) structs last))
    as (a & Ha & Hlt); [apply nth_In; exact Hi|].
  rewrite Ha, Hlast. cbn [of_option rbind]. rewrite Hlt. apply IH.
Qed.

(** X9.  [pick_metastable_structure] on its failure paths: an empty
    candidate list raises [ValueError] in [np.random.randint(0, 0)]; a
    list in which no candidate has a [num_a] below that of the last
    structure makes the loop give up with [exit()], whatever the random
    draws. *)
Theorem pick_fails structs last g :
  (structs = [] -> pick_metastable_structure structs last g = Raise ValueError)
  /\ (forall b,
        structs <> [] -> num_a last = Some b ->
        Forall (fun d => exists a, num_a d = Some a /\ X.ltb a b = false) structs ->
        pick_metastable_structure structs last g = Raise SystemExit).
Proof.
  split.
  - intros ->. unfold pick_metastable_structure. change 1000%nat with (S 999).
    cbn [pick_loop]. reflexivity.
  - intros b Hne Hlast Hall. unfold pick_metastable_structure.
    apply (pick_loop_none_eligible _ _ _ b); assumption.
Qed.

Lemma pick_fails_witness :
  pick_metastable_structure [annotate_chempot (Fin 0) Scenario.B_ref]
                            (annotate_chempot (Fin 0) Scenario.B_ref) Scenario.stream
  = Raise SystemExit.
Proof.
  destruct (pick_fails [annotate_chempot (Fin 0) Scenario.B_ref]
              (annotate_chempot (Fin 0) Scenario.B_ref) Scenario.stream) as [_ H].
  apply (H (Fin 0)); [discriminate | reflexivity |].
  constructor; [|constructor]. exists (Fin 0). split; reflexivity.
Defined.

(** ** The sampler: a finished path *)

Lemma path_step_next mu0 s r :
  path_step mu0 s = Ok r ->
  exists next n_next s',
    visited s' = visited s ++ [next]
    /\ num_a next = Some n_next
    /\ (length (path_structures s') < length (path_structures s))%nat
    /\ (r = inl s' /\ X.eqb n_next (Fin 0) = false
        \/ r = inr s' /\ X.eqb n_next (Fin 0) = true).
Proof.
  unfold path_step. intros H.
  bind_inv H. destruct a as [next g']. cbn [fst snd] in H.
  bind_inv H. rename a into idx. apply index_of_lt in E0.
  bind_inv H. bind_inv H. bind_inv H. rename a1 into n_next.
  apply of_option_ok in E3.
  destruct (X.eqb n_next (Fin 0)) eqn:Hz; injection H as <-.
  - exists next, n_next,
      (mkPath (prev s) (take idx (path_structures s)) a0 (visited s ++ [next]) g').
    cbn [visited path_structures].
    split; [reflexivity|]. split; [exact E3|]. split; [rewrite length_take; lia|].
    right. split; [reflexivity | exact Hz].
  - exists next, n_next,
      (mkPath next (take idx (path_structures s)) a0 (visited s ++ [next]) g').
    cbn [visited path_structures].
    split; [reflexivity|]. split; [exact E3|]. split; [rewrite length_take; lia|].
    left. split; [reflexivity | exact Hz].
Qed.

(** X10.  A finished path ends at a structure with [num_a == 0], every
    structure accepted before it has a non-zero [num_a], and the path
    accepts at most as many structures as there are candidates. *)
Theorem path_ends_delithiated mu0 reference_cathode structs g p :
  sample_path mu0 reference_cathode structs g = Ok p ->
  (length (visited p) <= length structs)%nat
  /\ exists before final n_final,
       visited p = before ++ [final]
       /\ num_a final = Some n_final /\ X.eqb n_final (Fin 0) = true
       /\ Forall (fun d => exists n, num_a d = Some n /\ X.eqb n (Fin 0) = false) before.
Proof.
  unfold sample_path. intros Hp.
  pose (Inv := fun s : path_state =>
    (length (visited s) + length (path_structures s) <= length structs)%nat
    /\ Forall (fun d => exists n, num_a d = Some n /\ X.eqb n (Fin 0) = false) (visited s)).
  destruct (path_loop_inv mu0 Inv) with (s := mkPath reference_cathode structs [] [] g) (p := p)
    as (s0 & [Hlen0 Hall0] & Hlaststep).
  - intros s s' [Hlen Hall] Hs.
    destruct (path_step_next _ _ _ Hs) as (next & n & s1 & Hv & Hn & Hsh & Hcase).
    destruct Hcase as [[Heq Hz]|[Heq _]]; [|discriminate]. injection Heq as <-.
    split.
    + rewrite Hv, length_app. cbn [length]. lia.
    + rewrite Hv. apply Forall_app. split; [exact Hall|].
      constructor; [|constructor]. exists n. split; assumption.
  - split; [cbn; lia | constructor].
  - exact Hp.
  - destruct (path_step_next _ _ _ Hlaststep) as (next & n & s1 & Hv & Hn & Hsh & Hcase).
    destruct Hcase as [[Heq _]|[Heq Hz]]; [discriminate|]. injection Heq as <-.
    split.
    + rewrite Hv, length_app. cbn [length]. lia.
    + exists (visited s0), next, n. repeat split; assumption.
Qed.

Lemma path_ends_delithiated_witness :
  (length (visited Scenario.path3) <= length (Scenario.candidates Scenario.hull3))%nat.
Proof.
  apply (path_ends_delithiated (-1) (Scenario.reference Scenario.hull3)
           (Scenario.candidates Scenario.hull3) Scenario.stream Scenario.path3).
  vm_compute. reflexivity.
Defined.

(** ** The sampler: voltages along a path *)

Lemma segment_finite mu0 structure_new structure_old a b :
  num_a structure_new = Some (Fin a) -> num_a structure_old = Some (Fin b) ->
  a < b ->
  forall v, get_voltage_profile_segment mu0 structure_new structure_old = Ok v ->
  exists e_new e_old,
    enthalpy_per_b structure_new = Some e_new
    /\ enthalpy_per_b structure_old = Some e_old
    /\ v = Fin (- (e_new - e_old) / (a + - b) + mu0).
Proof.
  intros Hn Ho Hlt v. unfold get_voltage_profile_segment. intros H.
  bind_inv H. bind_inv H. apply of_option_ok in E, E0.
  rewrite Hn, Ho in H. cbn [of_option rbind X.sub X.opp X.add X.eqb] in H.
  rewrite xdiv_fin in H by lra. cbn [X.add] in H. injection H as <-.
  exists a0, a1. repeat split; assumption.
Qed.

(** X11.  When the reference cathode has [num_a = +inf] and every candidate
    has a finite [num_a], every segment recorded along a sampled path has
    a finite voltage: the strict decrease of [num_a] keeps the denominator
    of the finite difference away from zero. *)
Theorem path_voltages_finite mu0 reference_cathode structs g p :
  num_a reference_cathode = Some PInf ->
  Forall (fun d => exists q, num_a d = Some (Fin q)) structs ->
  sample_path mu0 reference_cathode structs g = Ok p ->
  Forall (fun seg => exists v, snd seg = Fin v) (voltage_profile p).
Proof.
  intros Href Hfin Hp. unfold sample_path in Hp.
  pose (Inv := fun s : path_state =>
    Forall (fun seg : xnum * xnum => exists v, snd seg = Fin v) (voltage_profile s)
    /\ (num_a (prev s) = Some PInf \/ exists q, num_a (prev s) = Some (Fin q))
    /\ forall d, In d (path_structures s) -> exists q, num_a d = Some (Fin q)).
  assert (Hstep : forall s r s', Inv s -> path_step mu0 s = Ok r ->
            r = inl s' \/ r = inr s' ->
            Forall (fun seg : xnum * xnum => exists v, snd seg = Fin v) (voltage_profile s')
            /\ (r = inl s' -> exists q, num_a (prev s') = Some (Fin q))
            /\ forall d, In d (path_structures s') -> exists q, num_a d = Some (Fin q)).
  { intros s r s' (Hvp & Hprev & Hcand) Hr Hs'.
    destruct (path_step_spec _ _ _ Hr)
      as (next & s1 & Hcase & [idx Hidx] & Hin & Hlt & _ & Hseg).
    assert (s1 = s') as ->.
    { destruct Hcase as [[-> _]| ->]; destruct Hs' as [Hs'|Hs']; congruence. }
    destruct (Hcand next Hin) as [a Ha].
    split; [|split].
    - destruct Hprev as [Hinf|[b Hb]].
      + specialize (Hseg _ Hinf). cbn in Hseg. rewrite Hseg. exact Hvp.
      + specialize (Hseg _ Hb). cbn [X.eqb] in Hseg.
        destruct Hseg as (c & v & _ & Hv & ->).
        apply Forall_app. split; [exact Hvp|]. constructor; [|constructor].
        unfold num_a_ltb in Hlt. rewrite Ha, Hb in Hlt. cbn [X.ltb] in Hlt.
        apply Qltb_lt in Hlt.
        destruct (segment_finite _ _ _ _ _ Ha Hb Hlt v Hv) as (e1 & e0 & _ & _ & ->).
        eexists. reflexivity.
    - intros ->. destruct Hcase as [[_ Hp']|?]; [|discriminate].
      rewrite Hp'. exists a. exact Ha.
    - intros d Hd. rewrite Hidx in Hd. apply Hcand.
      apply list_elem_of_In. apply list_elem_of_In in Hd.
      exact (subseteq_take idx _ _ Hd). }
  destruct (path_loop_inv mu0 Inv) with (s := mkPath reference_cathode structs [] [] g) (p := p)
    as (s0 & HI0 & Hlaststep).
  - intros s s' HI Hs.
    destruct (Hstep s (inl s') s' HI Hs (or_introl eq_refl)) as (H1 & H2 & H3).
    split; [exact H1|]. split; [right; apply H2; reflexivity | exact H3].
  - split; [constructor|]. split; [left; exact Href|].
    cbn [path_structures]. rewrite List.Forall_forall in Hfin. exact Hfin.
  - exact Hp.
  - destruct (Hstep s0 (inr p) p HI0 Hlaststep (or_intror eq_refl)) as (H1 & _). exact H1.
Qed.

Lemma path_voltages_finite_witness :
  Forall (fun seg => exists v, snd seg = Fin v) (voltage_profile Scenario.path3).
Proof.
  apply (path_voltages_finite (-1) (Scenario.reference Scenario.hull3)
           (Scenario.candidates Scenario.hull3) Scenario.stream Scenario.path3).
  - reflexivity.
  - repeat constructor; eexists; reflexivity.
  - vm_compute. reflexivity.
Defined.

(** ** The sampler: the trial cap on contributing paths *)

Lemma sampler_iter_contribs num_trials mu0 reference_cathode structs s r :
  sampler_iter num_trials mu0 reference_cathode structs s = Ok r ->
  (exists s', r = inr s' /\ num_contribs s' = num_contribs s)
  \/ (exists s', r = inl s'
        /\ (num_contribs s <= num_trials)%nat
        /\ (num_contribs s <= num_contribs s' <= S (num_contribs s))%nat).
Proof.
  unfold sampler_iter. intros H.
  destruct (X.ltb _ _ && (convergence_window <? num_converged s)%nat).
  { injection H as <-. left. eexists. split; reflexivity. }
  destruct (num_trials <? num_contribs s)%nat eqn:Hcap.
  { injection H as <-. left. eexists. split; reflexivity. }
  apply Nat.ltb_ge in Hcap.
  bind_inv H. destruct (voltage_profile a); injection H as <-;
    right; eexists; (split; [reflexivity|]); cbn [num_contribs]; lia.
Qed.

Lemma sampler_loop_contribs fuel num_trials mu0 reference_cathode structs s :
  (num_contribs s <= S num_trials)%nat ->
  match sampler_loop fuel num_trials mu0 reference_cathode structs s with
  | Exited s' | Running s' => (num_contribs s' <= S num_trials)%nat
  | Crashed _ => True
  end.
Proof.
  revert s. induction fuel as [|fuel IH]; intros s Hs; cbn [sampler_loop]; [exact Hs|].
  destruct (sampler_iter num_trials mu0 reference_cathode structs s) as [r|e] eqn:Hr;
    [|exact I].
  destruct (sampler_iter_contribs _ _ _ _ _ _ Hr) as [(s' & -> & Hc)|(s' & -> & Hcap & Hc)].
  - lia.
  - apply IH. lia.
Qed.

(** X12.  The hard stop of the sampler bounds the number of contributing
    paths: however long the outer loop runs, [num_contribs] never exceeds
    the trial count plus one (100001), and once it exceeds the trial
    count the next pass leaves the loop. *)
Theorem contributions_bounded get_capacities get_molar_mass fuel hull_cur mu
    elements g :
  match metastable_voltage_profile get_capacities get_molar_mass fuel hull_cur mu
                                   elements g with
  | Exited s | Running s => (num_contribs s <= S num_trials_default)%nat
  | Crashed _ => True
  end
  /\ forall num_trials mu0 reference_cathode structs s,
       (num_trials < num_contribs s)%nat ->
       exists s',
         sampler_loop (S fuel) num_trials mu0 reference_cathode structs s = Exited s'
         /\ num_contribs s' = num_contribs s.
Proof.
  split.
  - unfold metastable_voltage_profile.
    destruct (let* elem_b := _ in _) as [[structs reference_cathode]|e]; [|exact I].
    apply sampler_loop_contribs. cbn [num_contribs]. lia.
  - intros nt mu0 ref structs s Hs. cbn [sampler_loop].
    unfold sampler_iter.
    destruct (X.ltb _ _ && (convergence_window <? num_converged s)%nat).
    + eexists. split; reflexivity.
    + replace (nt <? num_contribs s)%nat with true by (symmetry; apply Nat.ltb_lt; exact Hs).
      eexists. split; reflexivity.
Qed.

Lemma contributions_bounded_witness :
  exists s',
    sampler_loop 1 3 (-1) (Scenario.reference Scenario.hull3)
                 (Scenario.candidates Scenario.hull3)
                 (mkSampler zeros zeros ones [] false false 5 0 Scenario.stream)
    = Exited s'
    /\ num_contribs s' = 5%nat.
Proof.
  destruct (contributions_bounded Scenario.get_capacities Scenario.get_molar_mass
              0 [] (0, 0) [] Scenario.stream) as [_ H].
  apply H. cbn [num_contribs]. lia.
Defined.

(** ** Chemical potentials *)

(** X13.  Explicit chemical potentials of either sign: after the sign
    flip of [__init__], [get_chempots] wraps them, without consulting the
    database, into two references named after the two elements, with
    [num_fu = 1] and a per-atom energy equal to minus the absolute value
    of what was supplied, hence never positive. *)
Theorem custom_chempots_nonpositive repo_find (p0 p1 : Q) (elem_a elem_b : string) :
  exists mu_a mu_b,
    get_chempots repo_find (init_chem_pots (Some [p0; p1])) [elem_a; elem_b]
    = Ok (mu_a, mu_b)
    /\ enthalpy_per_atom mu_a == - Qabs p0 /\ enthalpy_per_atom mu_b == - Qabs p1
    /\ enthalpy_per_atom mu_a <= 0 /\ enthalpy_per_atom mu_b <= 0
    /\ mu_elem mu_a = Ok elem_a /\ mu_elem mu_b = Ok elem_b
    /\ num_fu mu_a = 1%Z /\ num_fu mu_b = 1%Z.
Proof.
  assert (Hflip : forall p, (if Qltb 0 p then -1 * p else p) == - Qabs p
                            /\ (if Qltb 0 p then -1 * p else p) <= 0).
  { intros p. destruct (Qltb 0 p) eqn:E.
    - apply Qltb_lt in E. rewrite Qabs_pos by lra. split; lra.
    - apply Qltb_ge in E. rewrite Qabs_neg by exact E. split; lra. }
  eexists _, _. split; [reflexivity|].
  cbn [custom_chempot enthalpy_per_atom num_fu mu_elem stoichiometry].
  destruct (Hflip p0) as [H0 H0'], (Hflip p1) as [H1 H1'].
  repeat split; assumption.
Qed.

(** X14.  Without explicit chemical potentials, an element for which the
    database holds no single-element record stops [binary_hull] with
    [exit()] before any cursor record is read, whatever the cursor holds;
    with a record for each element the two references are those
    records. *)
Theorem missing_chempot_exits CH repo_find cutoff elem_a elem_b cur :
  (repo_find elem_a = None \/ repo_find elem_b = None ->
   binary_hull CH repo_find None cutoff [elem_a; elem_b] cur = Raise SystemExit)
  /\ (forall mu_a mu_b,
        repo_find elem_a = Some mu_a -> repo_find elem_b = Some mu_b ->
        get_chempots repo_find None [elem_a; elem_b] = Ok (mu_a, mu_b)).
Proof.
  split.
  - intros H. unfold binary_hull, get_chempots. cbn [map_result].
    destruct (repo_find elem_a) as [ma|]; cbn [of_option rbind]; [|reflexivity].
    destruct (repo_find elem_b) as [mb|]; cbn [of_option rbind]; [|reflexivity].
    destruct H; discriminate.
  - intros ma mb Ha Hb. unfold get_chempots. cbn [map_result].
    rewrite Ha, Hb. reflexivity.
Qed.

Lemma missing_chempot_exits_witness :
  binary_hull Qhull.convex_hull Scenario.repo_find None 0 ["A"; "X"]%string [Scenario.A_ref]
  = Raise SystemExit.
Proof.
  destruct (missing_chempot_exits Qhull.convex_hull Scenario.repo_find 0 "A" "X"
              [Scenario.A_ref]) as [H _].
  apply H. right. reflexivity.
Defined.

(** ** [volume_curve] *)

Lemma removelast_length {A} (l : list A) : length (removelast l) = (length l - 1)%nat.
Proof.
  induction l as [|a l IH]; [reflexivity|].
  destruct l as [|b l]; [reflexivity|].
  change (removelast (a :: b :: l)) with (a :: removelast (b :: l)).
  cbn [length] in *. rewrite IH. lia.
Qed.

Lemma lookup_removelast_lt {A} (l : list A) i d :
  (S i < length l)%nat -> removelast l !! i = Some (nth i l d).
Proof.
  intros H. apply lookup_removelast. split; [apply lookup_nth_lt; lia | exact H].
Qed.

Lemma num_a_increasing c c' : c < c' -> c' < 1 -> c / (1 - c) < c' / (1 - c').
Proof.
  intros H H1. apply Qlt_shift_div_l; [lra|].
  assert (E : c / (1 - c) * (1 - c') == c * (1 - c') / (1 - c)) by (field; lra).
  rewrite E. apply Qlt_shift_div_r; [lra|]. nra.
Qed.

(** X15.  For strictly increasing stable compositions that end at or below
    1 and at least as many volumes ([binary_hull] may append volumes of
    near-hull structures after those of the hull), [volume_curve] returns
    one point per stable composition but the last: its [x] values are the
    finite ratios [c/(1-c)] (dropping the pure-A endpoint removes the only
    possible division by zero), strictly increasing, and its volumes are
    the leading input volumes. *)
Theorem volume_curve_finite (stable_comp stable_vol : list Q) :
  strictly_increasing stable_comp = true ->
  (length stable_comp <= length stable_vol)%nat ->
  (forall j, (j < length stable_comp)%nat -> nth j stable_comp 0 <= 1) ->
  exists x v,
    volume_curve stable_comp stable_vol = Ok (x, v)
    /\ length x = (length stable_comp - 1)%nat
    /\ v = take (length stable_comp - 1) stable_vol
    /\ (forall i, (S i < length stable_comp)%nat ->
          nth i stable_comp 0 < 1
          /\ x !! i = Some (Fin (nth i stable_comp 0 / (1 - nth i stable_comp 0))))
    /\ (forall i j, (i < j)%nat -> (S j < length stable_comp)%nat ->
          nth i stable_comp 0 / (1 - nth i stable_comp 0)
          < nth j stable_comp 0 / (1 - nth j stable_comp 0)).
Proof.
  intros Hinc Hlen Hle.
  assert (Hlt1 : forall i, (S i < length stable_comp)%nat -> nth i stable_comp 0 < 1).
  { intros i Hi. apply Qlt_le_trans with (nth (S i) stable_comp 0).
    - apply strictly_increasing_nth; [exact Hinc | lia].
    - apply Hle. lia. }
  set (g := fun i => (Fin (nth i stable_comp 0 / (1 - nth i stable_comp 0)),
                      nth i stable_vol 0)).
  assert (Hmap : map_result
                   (fun i => let* c := of_option IndexError (removelast stable_comp !! i) in
                             let* v := of_option IndexError (removelast stable_vol !! i) in
                             Ok (X.div (Fin c) (Fin (1 - c)), v))
                   (seq 0 (length (removelast stable_comp)))
                 = Ok (map g (seq 0 (length (removelast stable_comp))))).
  { apply map_result_total. intros i Hi. apply in_seq in Hi.
    rewrite removelast_length in Hi.
    rewrite (lookup_removelast_lt stable_comp i 0) by lia.
    rewrite (lookup_removelast_lt stable_vol i 0) by lia.
    cbn [of_option rbind]. rewrite xdiv_fin; [reflexivity|].
    specialize (Hlt1 i ltac:(lia)). lra. }
  unfold volume_curve. rewrite Hmap. cbn [rbind].
  eexists _, _. split; [reflexivity|].
  split; [rewrite !length_map, length_seq; apply removelast_length|].
  split.
  - rewrite map_map. cbn [g snd].
    apply (nth_ext _ _ 0 0).
    + rewrite length_map, length_seq, removelast_length, length_take. lia.
    + intros i Hi. rewrite length_map, length_seq, removelast_length in Hi.
      rewrite (nth_indep _ 0 ((fun i => nth i stable_vol 0) 0%nat))
        by (rewrite length_map, length_seq, removelast_length; exact Hi).
      rewrite (map_nth (fun i => nth i stable_vol 0)).
      rewrite seq_nth by (rewrite removelast_length; exact Hi).
      rewrite nth_firstn.
      replace (i <? length stable_comp - 1)%nat with true
        by (symmetry; apply Nat.ltb_lt; exact Hi).
      reflexivity.
  - split.
    + intros i Hi. split; [apply Hlt1; exact Hi|].
      rewrite !lookup_map, lookup_seq_lt by (rewrite removelast_length; lia).
      reflexivity.
    + intros i j Hij Hj. apply num_a_increasing.
      * apply strictly_increasing_nth; [exact Hinc | lia].
      * apply Hlt1. exact Hj.
Qed.

Lemma volume_curve_finite_witness :
  exists x v, volume_curve [0; 1 # 2; 1] [10; 12; 20] = Ok (x, v) /\ length x = 2%nat.
Proof.
  destruct (volume_curve_finite [0; 1 # 2; 1] [10; 12; 20] eq_refl)
    as (x & v & H & Hx & _).
  - cbn [length]. lia.
  - intros [|[|[|j]]] Hj; cbn in Hj |- *; try lia; apply Qle_bool_iff; reflexivity.
  - exists x, v. split; [exact H | exact Hx].
Defined.

(** ** The shape of the point set *)

(** X16.  The point set and the distance array of a run hold one entry per
    cursor record, framed by the two chemical potentials: the first point
    is (0, 0), the last is (1, 0), and the record at cursor index [ind] is
    the point at index [ind + 1]. *)
Theorem point_set_shape CH cutoff x_elem one_minus_x_elem mus cur h :
  binary_hull_body CH cutoff x_elem one_minus_x_elem mus cur = Ok h ->
  length (structures h) = (length cur + 2)%nat
  /\ length (hull_dist h) = (length cur + 2)%nat
  /\ structures h !! 0%nat = Some (0, 0)
  /\ structures h !! S (length cur) = Some (1, 0)
  /\ forall ind d0,
       cur !! ind = Some d0 ->
       exists r, process_doc x_elem one_minus_x_elem [fst mus; snd mus] d0 = Ok r
                 /\ structures h !! S ind = Some (r_stoich r, r_formation r).
Proof.
  intros H.
  destruct (binary_hull_body_inv _ _ _ _ _ _ _ H) as (rows & Hrows & Hs & _ & Hdist & _).
  assert (Hlen := map_result_length _ _ _ Hrows).
  assert (Hls : length (structures h) = (length cur + 2)%nat).
  { rewrite Hs. cbn [app]. rewrite length_combine. cbn [length].
    rewrite !length_app, !length_map. cbn [length]. lia. }
  split; [exact Hls|].
  split; [rewrite (map_result_length _ _ _ Hdist); exact Hls|].
  assert (Hs' : structures h
                = (0, 0) :: (combine (map r_stoich rows) (map r_formation rows)
                             ++ [(1, 0)])).
  { rewrite Hs. cbn [app combine].
    rewrite combine_snoc by (rewrite !length_map; reflexivity). reflexivity. }
  split; [rewrite Hs'; reflexivity|].
  split.
  - rewrite Hs', lookup_cons.
    rewrite lookup_app_r by (rewrite length_combine, !length_map; lia).
    rewrite length_combine, !length_map.
    replace (length cur - length rows `min` length rows)%nat with 0%nat by lia.
    reflexivity.
  - intros ind d0 Hd.
    destruct (map_result_lookup_fwd _ _ _ _ _ Hrows Hd) as (r & Hr & Hp).
    exists r. split; [exact Hp|].
    rewrite Hs', lookup_cons.
    rewrite lookup_app_l
      by (rewrite length_combine, !length_map; apply lookup_lt_Some in Hr; lia).
    apply lookup_combine; rewrite lookup_map, Hr; reflexivity.
Qed.

Lemma point_set_shape_witness :
  length (structures Scenario.hull3) = (3 + 2)%nat
  /\ structures Scenario.hull3 !! 4%nat = Some (1, 0).
Proof.
  destruct (point_set_shape Qhull.convex_hull 0.3 "A" "B" (Scenario.A_ref, Scenario.B_ref)
              [Scenario.AB; Scenario.AB_high; Scenario.A2B] Scenario.hull3)
    as (H1 & _ & _ & H2 & _).
  - vm_compute. reflexivity.
  - split; [exact H1 | exact H2].
Defined.

(** ** Hull vertices are at distance zero *)

Lemma fold_insert_In l acc (x : Q * nat) :
  In x (fold_left (fun acc p => insert_key p acc) l acc) <-> In x l \/ In x acc.
Proof.
  revert acc. induction l as [|p l IH]; intros acc; simpl.
  - tauto.
  - rewrite IH, insert_key_In. split.
    + intros [H|[->|H]]; [left; right; exact H | left; left; reflexivity | right; exact H].
    + intros [[->|H]|H]; [right; left; reflexivity | left; exact H | right; right; exact H].
Qed.

(** [np.argsort] returns every index of the array. *)
Lemma argsort_complete a i : (i < length a)%nat -> In i (argsort a).
Proof.
  intros Hi. unfold argsort. apply in_map_iff. exists (nth i a 0, i).
  split; [reflexivity|]. apply fold_insert_In. left.
  apply list_elem_of_In, (list_elem_of_lookup_2 _ i). apply lookup_combine.
  - apply lookup_nth_lt. exact Hi.
  - apply lookup_seq_lt. exact Hi.
Qed.

(** The selection loop keeps every vertex whose energy is not positive. *)
Lemma select_vertices_complete (structs : list (Q * Q)) (enth : list Q) vs acc r :
  fold_result (fun acc v =>
                 let* s := of_option IndexError (structs !! v) in
                 if Qle_bool (snd s) 0
                 then let* h := of_option IndexError (enth !! v) in
                      Ok (acc ++ [(snd s, h, fst s)])
                 else Ok acc) vs acc = Ok r ->
  (forall t, In t acc -> In t r)
  /\ forall v s, In v vs -> structs !! v = Some s -> snd s <= 0 ->
       exists hv, In (snd s, hv, fst s) r.
Proof.
  revert acc. induction vs as [|v vs IH]; intros acc Hr; cbn [fold_result] in Hr.
  - injection Hr as <-. split; [auto|]. intros v s [].
  - destruct (structs !! v) as [s|] eqn:Hs; cbn [of_option rbind] in Hr; [|discriminate].
    destruct (Qle_bool (snd s) 0) eqn:Hle.
    + destruct (enth !! v) as [hv|]; cbn [of_option rbind] in Hr; [|discriminate].
      destruct (IH _ Hr) as [Hmono Hall]. split.
      * intros t Ht. apply Hmono, in_or_app. left. exact Ht.
      * intros v' s' [<-|Hv'] Hs' Hneg.
        -- rewrite Hs in Hs'. injection Hs' as <-. exists hv.
           apply Hmono, in_or_app. right. left. reflexivity.
        -- exact (Hall v' s' Hv' Hs' Hneg).
    + destruct (IH _ Hr) as [Hmono Hall]. split; [exact Hmono|].
      intros v' s' [<-|Hv'] Hs' Hneg.
      * rewrite Hs in Hs'. injection Hs' as <-.
        apply Qle_bool_iff in Hneg. congruence.
      * exact (Hall v' s' Hv' Hs' Hneg).
Qed.

Lemma binary_hull_body_vertex CH cutoff x_elem one_minus_x_elem mus cur h v p :
  binary_hull_body CH cutoff x_elem one_minus_x_elem mus cur = Ok h ->
  In v (vertices h) -> structures h !! v = Some p -> snd p <= 0 ->
  In p (hull_chain h).
Proof.
  unfold binary_hull_body. intros H.
  bind_inv H. rename a into rows. bind_inv H. rename a into verts.
  bind_inv H. rename a into sel. bind_inv H. rename a into dist.
  injection H as <-. unfold hull_chain. cbn [structures vertices hull_comp hull_energy].
  intros Hv Hp Hneg.
  destruct (select_vertices_complete _ _ _ _ _ E1) as [_ Hall].
  destruct (Hall v p Hv Hp Hneg) as (hv & Hin).
  apply (In_nth _ _ (0, 0, 0)) in Hin. destruct Hin as (k & Hk & Hnth).
  rewrite combine_gather. apply in_map_iff. exists k. split.
  - assert (H1 : nth k (map snd sel) 0 = snd (nth k sel (0, 0, 0)))
      by exact (map_nth snd sel (0, 0, 0) k).
    assert (H2 : nth k (map (fun t : Q * Q * Q => fst (fst t)) sel) 0
                 = fst (fst (nth k sel (0, 0, 0))))
      by exact (map_nth (fun t : Q * Q * Q => fst (fst t)) sel (0, 0, 0) k).
    rewrite H1, H2, Hnth. destruct p; reflexivity.
  - apply argsort_complete. rewrite length_map. exact Hk.
Qed.

(** At a vertex of the chain the bracket found by [bisect_left] ends at the
    vertex itself (or wraps around to it), so the line passes through it. *)
Lemma hull_dist_at_vertex chain j p :
  strictly_increasing (map fst chain) = true -> (2 <= length chain)%nat ->
  chain !! j = Some p ->
  exists q, hull_dist_at (map fst chain) (map snd chain) p = Ok (Fin q) /\ q == 0.
Proof.
  intros Hinc Hlen Hj.
  assert (Hjl := lookup_lt_Some _ _ _ Hj).
  destruct (bisect_left_spec (map fst chain) (fst p) Hinc) as (Hr & Hbelow & Habove).
  rewrite length_map in Hr, Habove.
  assert (Hpj : nth j (map fst chain) 0 = fst p).
  { rewrite nth_map_fst, (nth_lookup_Some _ _ _ _ Hj). reflexivity. }
  assert (Hi : bisect_left (map fst chain) (fst p) = j).
  { set (i := bisect_left (map fst chain) (fst p)) in *.
    destruct (lt_eq_lt_dec i j) as [[Hlt|Heq]|Hgt]; [|exact Heq|].
    - exfalso. assert (H1 := Habove i ltac:(lia)).
      assert (H2 := strictly_increasing_nth (map fst chain) i j Hinc).
      rewrite length_map in H2. specialize (H2 ltac:(lia)). rewrite Hpj in H2. lra.
    - exfalso. assert (H1 := Hbelow j Hgt). rewrite Hpj in H1. lra. }
  assert (Hlk : forall k, (k < length chain)%nat ->
            chain !! k = Some (nth k chain (0, 0))).
  { intros k Hk. apply lookup_nth_lt. exact Hk. }
  assert (Hlkc : forall k, (k < length chain)%nat ->
            of_option IndexError (map fst chain !! k) = Ok (fst (nth k chain (0, 0)))).
  { intros k Hk. rewrite lookup_map, Hlk by exact Hk. reflexivity. }
  assert (Hlke : forall k, (k < length chain)%nat ->
            of_option IndexError (map snd chain !! k) = Ok (snd (nth k chain (0, 0)))).
  { intros k Hk. rewrite lookup_map, Hlk by exact Hk. reflexivity. }
  assert (Hpn : nth j chain (0, 0) = p) by (apply nth_lookup_Some; exact Hj).
  set (k := match j with O => (length chain - 1)%nat | S j' => j' end).
  assert (Hk : (k < length chain)%nat) by (unfold k; destruct j; lia).
  assert (Hkj : ~ fst p - fst (nth k chain (0, 0)) == 0).
  { assert (Hneq : k <> j) by (unfold k; destruct j; lia).
    rewrite <- Hpn, <- !nth_map_fst.
    destruct (lt_eq_lt_dec k j) as [[Hlt|Heq]|Hgt]; [|contradiction|].
    - assert (H := strictly_increasing_nth (map fst chain) k j Hinc).
      rewrite length_map in H. specialize (H ltac:(lia)). lra.
    - assert (H := strictly_increasing_nth (map fst chain) j k Hinc).
      rewrite length_map in H. specialize (H ltac:(lia)). lra. }
  assert (Hprev : forall {A} (a : list A), length a = length chain ->
            np_index a (Z.of_nat j - 1) = of_option IndexError (a !! k)).
  { intros A a Ha. unfold k. destruct j as [|j'].
    - rewrite np_index_minus_one by lia. rewrite Ha. reflexivity.
    - rewrite np_index_pred by lia. f_equal. f_equal. lia. }
  destruct (hull_dist_at_value (map fst chain) (map snd chain) p j
              (fst (nth k chain (0, 0))) (snd (nth k chain (0, 0))) (fst p) (snd p))
    as (q & Hq & Hgap).
  - exact Hi.
  - rewrite Hprev by apply length_map. apply Hlke. exact Hk.
  - rewrite np_index_nat, <- Hpn. apply Hlke. exact Hjl.
  - rewrite Hprev by apply length_map. apply Hlkc. exact Hk.
  - rewrite np_index_nat, <- Hpn. apply Hlkc. exact Hjl.
  - exact Hkj.
  - exists q. split; [exact Hq|].
    apply (Qmult_cancel_nonzero (fst p - fst (nth k chain (0, 0)))); [exact Hkj|].
    rewrite Hgap. unfold line_gap. cbn [fst snd]. ring.
Qed.

(** X17.  In a run of [binary_hull] whose hull routine returned the lower
    hull, every vertex reported by the routine whose formation energy is
    not positive is a point of the chain and has hull distance exactly 0;
    when it is a cursor record and the cutoff is not negative, the record
    is kept in [hull_cursor] with [hull_distance] 0. *)
Theorem hull_vertices_at_distance_zero CH cutoff x_elem one_minus_x_elem mus cur h :
  binary_hull_body CH cutoff x_elem one_minus_x_elem mus cur = Ok h ->
  lower_hull_ok (structures h) (hull_chain h) = true ->
  forall v p, In v (vertices h) -> structures h !! v = Some p -> snd p <= 0 ->
    In p (hull_chain h)
    /\ (exists q, hull_dist h !! v = Some (Fin q) /\ q == 0)
    /\ forall ind d0, v = S ind -> cur !! ind = Some d0 -> 0 <= cutoff ->
         exists d q, In d (hull_cursor h) /\ text_id d = text_id d0
                     /\ hull_distance d = Some (Fin q) /\ q == 0.
Proof.
  intros Hbody Hok v p Hv Hp Hneg.
  assert (Hchain := binary_hull_body_vertex _ _ _ _ _ _ _ _ _ Hbody Hv Hp Hneg).
  destruct (binary_hull_body_inv _ _ _ _ _ _ _ Hbody)
    as (rows & Hrows & Hs & _ & Hdist & Hlen & Hcur & _).
  destruct (structures_endpoints _ _ _ _ _ _ _ Hbody) as [H0 H1].
  destruct (lower_hull_ok_spec _ _ Hok) as [Hinc Hpts].
  assert (Hlen2 : (2 <= length (hull_chain h))%nat).
  { apply (spans_two_points _ (0, 0) (1, 0)); [apply Hpts, H0 | apply Hpts, H1 | reflexivity]. }
  assert (Hj : exists j, hull_chain h !! j = Some p)
    by (apply list_elem_of_lookup, list_elem_of_In; exact Hchain).
  destruct Hj as [j Hj].
  destruct (hull_dist_at_vertex _ j p Hinc Hlen2 Hj) as (q & Hq & Hq0).
  unfold hull_chain in Hq.
  rewrite (map_fst_combine _ _ Hlen), (map_snd_combine _ _ Hlen) in Hq.
  destruct (map_result_lookup_fwd _ _ _ _ _ Hdist Hp) as (dq & Hdq & Hat).
  rewrite Hq in Hat. injection Hat as <-.
  split; [exact Hchain|]. split; [exists q; split; assumption|].
  intros ind d0 -> Hd0 Hcut.
  destruct (map_result_lookup_fwd _ _ _ _ _ Hrows Hd0) as (r & Hr & Hproc).
  assert (Hlen_dist : length (hull_dist h) = (length rows + 2)%nat).
  { rewrite (map_result_length _ _ _ Hdist), Hs. cbn [app].
    rewrite length_combine. cbn [length]. rewrite !length_app, !length_map. cbn [length]. lia. }
  exists (set_hull_distance (Fin q) (r_doc r)), q.
  split; [|split; [|split; [reflexivity | exact Hq0]]].
  - rewrite Hcur. apply in_or_app. right. apply in_or_app. left.
    apply near_hull_In. exists (Fin q), (r_doc r). split; [|split; [|reflexivity]].
    + apply list_elem_of_In, (list_elem_of_lookup_2 _ ind). apply lookup_combine.
      * apply lookup_removelast. rewrite lookup_tl. split; [exact Hdq|].
        destruct (hull_dist h) as [|x0 l]; [discriminate|]. cbn [tl length] in *.
        apply lookup_lt_Some in Hr. lia.
      * rewrite lookup_map, Hr. reflexivity.
    + assert (Heps : 0 <= 1e-12) by (apply Qle_bool_iff; vm_compute; reflexivity).
      apply (xleb_fin_mono _ q); [|lra].
      unfold X.leb. cbn [X.ltb X.eqb]. apply orb_true_iff. right.
      apply Qeq_bool_iff. reflexivity.
  - destruct (process_doc_identity _ _ _ _ _ Hproc) as (Hid & _). exact Hid.
Qed.

Lemma hull_vertices_at_distance_zero_witness :
  (exists q, hull_dist Scenario.hull3 !! 3%nat = Some (Fin q) /\ q == 0)
  /\ exists d, In d (hull_cursor Scenario.hull3) /\ text_id d = text_id Scenario.A2B.
Proof.
  assert (Hbody : binary_hull_body Qhull.convex_hull 0.3 "A" "B"
                    (Scenario.A_ref, Scenario.B_ref)
                    [Scenario.AB; Scenario.AB_high; Scenario.A2B] = Ok Scenario.hull3)
    by (vm_compute; reflexivity).
  assert (Hok : lower_hull_ok (structures Scenario.hull3) (hull_chain Scenario.hull3) = true)
    by (vm_compute; reflexivity).
  assert (Hv : In 3%nat (vertices Scenario.hull3))
    by (right; right; left; reflexivity).
  assert (Hneg : snd (2 # 3, -33 # 90) <= 0) by (apply Qle_bool_iff; reflexivity).
  destruct (hull_vertices_at_distance_zero _ _ _ _ _ _ _ Hbody Hok 3%nat (2 # 3, -33 # 90)
              Hv eq_refl Hneg) as (_ & Hq & Hc).
  split; [exact Hq|].
  destruct (Hc 2%nat Scenario.A2B eq_refl eq_refl) as (d & q & Hd & Hid & _).
  - apply Qle_bool_iff. reflexivity.
  - exists d. split; assumption.
Defined.

(** * The lower hull from the vertices of the hull routine *)

(** ** Plane geometry of [line_gap] *)

Lemma gap_same a b p : fst p == fst a -> snd p == snd a -> line_gap a b p == 0.
Proof. intros Hx Hy. unfold line_gap. rewrite Hx, Hy. ring. Qed.

Lemma gap_degenerate a b p : fst b == fst a -> snd b == snd a -> line_gap a b p == 0.
Proof. intros Hx Hy. unfold line_gap. rewrite Hx, Hy. ring. Qed.

Lemma gap_cone a b t p :
  line_gap a b t * (fst p - fst a)
  == line_gap t a p * (fst b - fst a) + line_gap a b p * (fst t - fst a).
Proof. unfold line_gap. ring. Qed.

Lemma gap_combo c c' a s wL wR wa ws :
  (wL + wR + wa + ws) * fst c == wR + wa * fst a + ws * fst s ->
  (wL + wR + wa + ws) * snd c == wa * snd a + ws * snd s ->
  wL * line_gap c c' (0, 0) + wR * line_gap c c' (1, 0)
  + wa * line_gap c c' a + ws * line_gap c c' s == 0.
Proof.
  intros Hx Hy. unfold line_gap. cbn [fst snd].
  transitivity ((fst c' - fst c) * ((wa * snd a + ws * snd s) - (wL + wR + wa + ws) * snd c)
                - (snd c' - snd c)
                  * ((wR + wa * fst a + ws * fst s) - (wL + wR + wa + ws) * fst c));
    [ring|].
  rewrite Hx, Hy. ring.
Qed.

Lemma Qprod_zero w g : 0 < w -> 0 <= g -> w * g <= 0 -> g == 0.
Proof. intros Hw Hg H. nra. Qed.

Lemma argmin_exists (f : Q * Q -> Q) (l : list (Q * Q)) :
  l <> [] ->
  exists k, (k < length l)%nat
    /\ forall j, (j < length l)%nat -> f (nth k l (0, 0)) <= f (nth j l (0, 0)).
Proof.
  induction l as [|a l IH]; [congruence|]. intros _.
  destruct l as [|b l].
  - exists 0%nat. split; [simpl; lia|]. intros [|j] Hj; simpl in Hj; [apply Qle_refl | lia].
  - destruct IH as (k & Hk & Hmin); [discriminate|].
    destruct (Qlt_le_dec (f a) (f (nth k (b :: l) (0, 0)))) as [Hlt|Hge].
    + exists 0%nat. split; [simpl; lia|]. intros [|j] Hj; [apply Qle_refl|].
      change (f a <= f (nth j (b :: l) (0, 0))).
      apply Qle_trans with (f (nth k (b :: l) (0, 0))); [lra|].
      apply Hmin. simpl in Hj |- *. lia.
    + exists (S k). split; [simpl in Hk |- *; lia|]. intros [|j] Hj.
      * exact Hge.
      * change (f (nth k (b :: l) (0, 0)) <= f (nth j (b :: l) (0, 0))).
        apply Hmin. simpl in Hj |- *. lia.
Qed.

Section CcwHull.

Variable pts : list (Q * Q).
Variable cyc : list (Q * Q).

Local Abbreviation m := (length cyc).
Local Abbreviation q k := (nth k cyc (0, 0)).

Hypothesis Hm : (3 <= m)%nat.
Hypothesis Hin : forall k, (k < m)%nat -> In (q k) pts.
Hypothesis Hleft :
  forall k p, (k < m)%nat -> In p pts -> 0 <= line_gap (q k) (q (cnext m k)) p.
Hypothesis Hstrict :
  forall k j, (k < m)%nat -> (j < m)%nat -> j <> k -> j <> cnext m k ->
    0 < line_gap (q k) (q (cnext m k)) (q j).
Hypothesis HL : In (0, 0) pts.
Hypothesis HR : In (1, 0) pts.
Hypothesis Hbox :
  forall p, In p pts -> p = (0, 0) \/ p = (1, 0) \/ (0 < fst p /\ fst p < 1).

Lemma cnext_lt k : (k < m)%nat -> (cnext m k < m)%nat.
Proof. unfold cnext. destruct (Nat.eqb_spec (S k) m); lia. Qed.

Lemma cnext_neq k : (k < m)%nat -> cnext m k <> k.
Proof. unfold cnext. destruct (Nat.eqb_spec (S k) m); lia. Qed.

Lemma cprev_spec k :
  (k < m)%nat ->
  (cprev m k < m)%nat /\ cnext m (cprev m k) = k
  /\ cprev m k <> k /\ cprev m k <> cnext m k.
Proof.
  intros Hk. unfold cprev, cnext. destruct k as [|k'].
  - destruct (Nat.eqb_spec (S (m - 1)) m); destruct (Nat.eqb_spec 1 m); lia.
  - destruct (Nat.eqb_spec (S k') m); destruct (Nat.eqb_spec (S (S k')) m); lia.
Qed.

Lemma box_range p : In p pts -> 0 <= fst p /\ fst p <= 1.
Proof.
  intros Hp. destruct (Hbox p Hp) as [->|[->|[H0 H1]]]; cbn [fst]; split; lra.
Qed.

Lemma box_left p : In p pts -> fst p <= 0 -> p = (0, 0).
Proof.
  intros Hp H. destruct (Hbox p Hp) as [->|[->|[H0 H1]]]; cbn [fst] in *;
    [reflexivity | lra | lra].
Qed.

Lemma box_right p : In p pts -> 1 <= fst p -> p = (1, 0).
Proof.
  intros Hp H. destruct (Hbox p Hp) as [->|[->|[H0 H1]]]; cbn [fst] in *;
    [lra | reflexivity | lra].
Qed.

(** Two positions of the cycle hold two different points. *)
Lemma vertices_distinct k j :
  (k < m)%nat -> (j < m)%nat -> k <> j ->
  fst (q k) == fst (q j) -> snd (q k) == snd (q j) -> False.
Proof.
  intros Hk Hj Hne Hx Hy.
  destruct (Nat.eq_dec j (cnext m k)) as [E|E].
  - destruct (cprev_spec k Hk) as (Hp & _ & Hpk & Hpn).
    assert (H := Hstrict k (cprev m k) Hk Hp Hpk Hpn).
    rewrite gap_degenerate in H; [lra | |]; rewrite <- E; symmetry; assumption.
  - assert (H := Hstrict k j Hk Hj ltac:(congruence) E).
    rewrite gap_same in H; [lra | |]; symmetry; assumption.
Qed.

Lemma cyc_nonempty : cyc <> [].
Proof. intros E. rewrite E in Hm. simpl in Hm. lia. Qed.

(** The leftmost and the rightmost point of the set are vertices. *)
Lemma left_end_is_vertex : exists k, (k < m)%nat /\ q k = (0, 0).
Proof.
  destruct (argmin_exists fst cyc cyc_nonempty) as (k & Hk & Hmin).
  exists k. split; [exact Hk|].
  destruct (cprev_spec k Hk) as (Hp & Hpn & Hpk & Hpne).
  assert (Hb := Hmin (cnext m k) (cnext_lt k Hk)).
  assert (Ht := Hmin (cprev m k) Hp).
  assert (HD := Hstrict k (cprev m k) Hk Hp Hpk Hpne).
  assert (H1 := Hleft k (0, 0) Hk HL).
  assert (H2 := Hleft (cprev m k) (0, 0) Hp HL). rewrite Hpn in H2.
  assert (Hc := gap_cone (q k) (q (cnext m k)) (q (cprev m k)) (0, 0)).
  cbn [fst] in Hc.
  apply box_left; [apply Hin; exact Hk|].
  set (D := line_gap (q k) (q (cnext m k)) (q (cprev m k))) in *.
  set (g1 := line_gap (q k) (q (cnext m k)) (0, 0)) in *.
  set (g2 := line_gap (q (cprev m k)) (q k) (0, 0)) in *.
  nra.
Qed.

Lemma right_end_is_vertex : exists k, (k < m)%nat /\ q k = (1, 0).
Proof.
  destruct (argmin_exists (fun p => - fst p) cyc cyc_nonempty) as (k & Hk & Hmin).
  exists k. split; [exact Hk|].
  destruct (cprev_spec k Hk) as (Hp & Hpn & Hpk & Hpne).
  assert (Hb := Hmin (cnext m k) (cnext_lt k Hk)).
  assert (Ht := Hmin (cprev m k) Hp).
  assert (HD := Hstrict k (cprev m k) Hk Hp Hpk Hpne).
  assert (H1 := Hleft k (1, 0) Hk HR).
  assert (H2 := Hleft (cprev m k) (1, 0) Hp HR). rewrite Hpn in H2.
  assert (Hc := gap_cone (q k) (q (cnext m k)) (q (cprev m k)) (1, 0)).
  cbn [fst] in Hc.
  apply box_right; [apply Hin; exact Hk|].
  set (D := line_gap (q k) (q (cnext m k)) (q (cprev m k))) in *.
  set (g1 := line_gap (q k) (q (cnext m k)) (1, 0)) in *.
  set (g2 := line_gap (q (cprev m k)) (q k) (1, 0)) in *.
  nra.
Qed.

(** A vertex strictly between the two ends is no combination of points of
    the set that gives positive weight to both ends. *)
Lemma no_interior_vertex k a s wL wR wa ws :
  (k < m)%nat -> In a pts -> In s pts ->
  0 < wL -> 0 < wR -> 0 <= wa -> 0 <= ws ->
  0 < fst (q k) -> fst (q k) < 1 ->
  (wL + wR + wa + ws) * fst (q k) == wR + wa * fst a + ws * fst s ->
  (wL + wR + wa + ws) * snd (q k) == wa * snd a + ws * snd s ->
  False.
Proof.
  intros Hk Ha Hs HwL HwR Hwa Hws H0 H1 Hx Hy.
  assert (Hc := gap_combo (q k) (q (cnext m k)) a s wL wR wa ws Hx Hy).
  assert (GL := Hleft k (0, 0) Hk HL). assert (GR := Hleft k (1, 0) Hk HR).
  assert (Ga := Hleft k a Hk Ha). assert (Gs := Hleft k s Hk Hs).
  set (gL := line_gap (q k) (q (cnext m k)) (0, 0)) in *.
  set (gR := line_gap (q k) (q (cnext m k)) (1, 0)) in *.
  set (ga := line_gap (q k) (q (cnext m k)) a) in *.
  set (gs := line_gap (q k) (q (cnext m k)) s) in *.
  assert (Pa : 0 <= wa * ga) by (apply Qmult_le_0_compat; assumption).
  assert (Ps : 0 <= ws * gs) by (apply Qmult_le_0_compat; assumption).
  assert (PL : 0 <= wL * gL) by (apply Qmult_le_0_compat; lra).
  assert (PR : 0 <= wR * gR) by (apply Qmult_le_0_compat; lra).
  assert (ZL : gL == 0) by (apply (Qprod_zero wL); [assumption | assumption | lra]).
  assert (ZR : gR == 0) by (apply (Qprod_zero wR); [assumption | assumption | lra]).
  destruct left_end_is_vertex as (i & Hi & HqL).
  destruct right_end_is_vertex as (j & Hj & HqR).
  assert (Hik : i <> k) by (intros ->; rewrite HqL in H0; cbn in H0; lra).
  assert (Hjk : j <> k) by (intros ->; rewrite HqR in H1; cbn in H1; lra).
  destruct (Nat.eq_dec i (cnext m k)) as [E|E].
  - assert (Hjn : j <> cnext m k).
    { intros E'. rewrite <- E, <- E' in *. rewrite HqL in HqR. discriminate HqR. }
    assert (H := Hstrict k j Hk Hj Hjk Hjn). rewrite HqR in H. change (0 < gR) in H. lra.
  - assert (H := Hstrict k i Hk Hi Hik E). rewrite HqL in H. change (0 < gL) in H. lra.
Qed.

(** A vertex strictly between the two ends lies strictly below the base
    line. *)
Lemma interior_vertex_below k :
  (k < m)%nat -> 0 < fst (q k) -> fst (q k) < 1 -> snd (q k) <= 0 -> snd (q k) < 0.
Proof.
  intros Hk H0 H1 Hy.
  destruct (Qlt_le_dec (snd (q k)) 0) as [Hlt|Hge]; [exact Hlt|]. exfalso.
  apply (no_interior_vertex k (0, 0) (0, 0) (1 - fst (q k)) (fst (q k)) 0 0 Hk HL HL);
    cbn [fst snd]; lra.
Qed.

(** Two vertices at or below the base line have different compositions. *)
Lemma lower_above k j :
  (k < m)%nat -> (j < m)%nat ->
  fst (q k) == fst (q j) -> snd (q k) < snd (q j) -> snd (q j) <= 0 -> False.
Proof.
  intros Hk Hj Hx Hlt Hy.
  assert (Hka := Hin k Hk). assert (Hja := Hin j Hj).
  destruct (Qlt_le_dec 0 (fst (q j))) as [H0|H0].
  2:{ rewrite (box_left _ Hja H0) in Hx, Hlt.
      rewrite (box_left (q k) Hka) in Hlt by (cbn [fst] in Hx; lra). cbn in Hlt. lra. }
  destruct (Qlt_le_dec (fst (q j)) 1) as [H1|H1].
  2:{ rewrite (box_right _ Hja H1) in Hx, Hlt.
      rewrite (box_right (q k) Hka) in Hlt by (cbn [fst] in Hx; lra). cbn in Hlt. lra. }
  apply (no_interior_vertex j (q k) (q k)
           ((snd (q j) - snd (q k)) * (1 - fst (q j)))
           ((snd (q j) - snd (q k)) * fst (q j))
           (- snd (q j)) 0 Hj Hka Hka);
    first [lra | apply Qmult_lt_0_compat; lra | rewrite Hx; ring].
Qed.

Lemma lower_x_distinct k j :
  (k < m)%nat -> (j < m)%nat -> k <> j ->
  snd (q k) <= 0 -> snd (q j) <= 0 -> fst (q k) == fst (q j) -> False.
Proof.
  intros Hk Hj Hne Hyk Hyj Hx.
  destruct (Q_dec (snd (q k)) (snd (q j))) as [[Hlt|Hgt]|Heq].
  - exact (lower_above k j Hk Hj Hx Hlt Hyj).
  - apply (lower_above j k Hj Hk); [symmetry; exact Hx | exact Hgt | exact Hyk].
  - exact (vertices_distinct k j Hk Hj Hne Hx Heq).
Qed.

(** The vertex after one at or below the base line, other than the right
    end, is further right and again at or below the base line. *)
Lemma next_lower k :
  (k < m)%nat -> snd (q k) <= 0 -> fst (q k) < 1 ->
  fst (q k) < fst (q (cnext m k)) /\ snd (q (cnext m k)) <= 0.
Proof.
  intros Hk Hy H1.
  assert (Hn := cnext_lt k Hk).
  assert (Hka := Hin k Hk). assert (Hsa := Hin _ Hn).
  destruct (box_range _ Hka) as [Ha0 _]. destruct (box_range _ Hsa) as [Hs0 Hs1].
  assert (GL := Hleft k (0, 0) Hk HL). assert (GR := Hleft k (1, 0) Hk HR).
  assert (Hdist := vertices_distinct k (cnext m k) Hk Hn
                     (fun E => cnext_neq k Hk (eq_sym E))).
  assert (Hbelow := interior_vertex_below k Hk).
  unfold line_gap in GL, GR. cbn [fst snd] in GL, GR.
  assert (Hsy : snd (q (cnext m k)) <= 0).
  { destruct (Qlt_le_dec 0 (snd (q (cnext m k)))) as [Hpos|Hok]; [|exact Hok].
    exfalso. nra. }
  split; [|exact Hsy].
  destruct (Qlt_le_dec 0 (fst (q k))) as [Hpos|Hzero].
  - specialize (Hbelow Hpos H1 Hy).
    assert (E : (1 - fst (q k))
                * ((fst (q (cnext m k)) - fst (q k)) * (0 - snd (q k))
                   - (snd (q (cnext m k)) - snd (q k)) * (0 - fst (q k)))
                + fst (q k)
                  * ((fst (q (cnext m k)) - fst (q k)) * (0 - snd (q k))
                     - (snd (q (cnext m k)) - snd (q k)) * (1 - fst (q k)))
                == (- snd (q k)) * (fst (q (cnext m k)) - fst (q k))) by ring.
    assert (Hge : 0 <= fst (q (cnext m k)) - fst (q k)).
    { apply (Qmult_pos_nonneg (- snd (q k))); [lra|]. rewrite <- E.
      assert (P1 := Qmult_le_0_compat _ _ (Qlt_le_weak _ _ (proj1 (Qlt_minus_iff _ _) H1)) GL).
      assert (P2 := Qmult_le_0_compat _ _ Ha0 GR).
      lra. }
    destruct (Qlt_le_dec (fst (q k)) (fst (q (cnext m k)))) as [Hlt|Hle]; [exact Hlt|].
    exfalso. assert (Ex : fst (q k) == fst (q (cnext m k))) by lra.
    apply Hdist; [exact Ex|].
    assert (Z : fst (q (cnext m k)) - fst (q k) == 0) by lra.
    rewrite Z in GL, GR. nra.
  - assert (Ea := box_left _ Hka Hzero).
    destruct (Qlt_le_dec 0 (fst (q (cnext m k)))) as [Hlt|Hle]; [rewrite Ea; exact Hlt|].
    exfalso. assert (Es := box_left _ Hsa Hle).
    apply Hdist; rewrite Ea, Es; reflexivity.
Qed.

(** Two vertices at or below the base line with no such vertex between
    their compositions are joined by an edge of the hull: no point of the
    set is below the line through them. *)
Lemma adjacent_lower_edge k j :
  (k < m)%nat -> (j < m)%nat ->
  snd (q k) <= 0 -> snd (q j) <= 0 -> fst (q k) < fst (q j) ->
  (forall i, (i < m)%nat -> snd (q i) <= 0 ->
             fst (q k) < fst (q i) -> fst (q i) < fst (q j) -> False) ->
  forall p, In p pts -> 0 <= line_gap (q k) (q j) p.
Proof.
  intros Hk Hj Hyk Hyj Hlt Hbetween p Hp.
  assert (Hka := Hin k Hk). assert (Hja := Hin j Hj).
  destruct (box_range _ Hka) as [Ha0 _]. destruct (box_range _ Hja) as [_ Hb1].
  assert (Hn := cnext_lt k Hk). assert (Hsa := Hin _ Hn).
  destruct (box_range _ Hsa) as [_ Hs1].
  destruct (next_lower k Hk Hyk ltac:(lra)) as [Hks Hys].
  destruct (Nat.eq_dec (cnext m k) j) as [E|E].
  { rewrite <- E. apply Hleft; assumption. }
  exfalso.
  destruct (Qlt_le_dec (fst (q (cnext m k))) (fst (q j))) as [Hsj|Hjs].
  { exact (Hbetween _ Hn Hys Hks Hsj). }
  destruct (Qlt_le_dec (fst (q j)) (fst (q (cnext m k)))) as [Hjs'|Hsj'].
  2:{ apply (lower_x_distinct (cnext m k) j Hn Hj E Hys Hyj). lra. }
  assert (Hjk : j <> k) by (intros ->; lra).
  assert (Hg := Hstrict k j Hk Hj Hjk (fun E' => E (eq_sym E'))).
  apply (no_interior_vertex j (q k) (q (cnext m k))
           (line_gap (q k) (q (cnext m k)) (q j) * (1 - fst (q j)))
           (line_gap (q k) (q (cnext m k)) (q j) * fst (q j))
           ((- snd (q j)) * (fst (q (cnext m k)) - fst (q j)))
           ((- snd (q j)) * (fst (q j) - fst (q k)))
           Hj Hka Hsa);
    first [lra | apply Qmult_lt_0_compat; lra | apply Qmult_le_0_compat; lra
          | unfold line_gap; ring].
Qed.

End CcwHull.

(** ** The sort of the hull vertices *)

Lemma insert_key_perm p l : Permutation (insert_key p l) (p :: l).
Proof.
  induction l as [|x l IH]; simpl; [reflexivity|].
  destruct (Qltb (fst p) (fst x)); [reflexivity|].
  rewrite IH. apply perm_swap.
Qed.

Lemma insert_key_sorted p l :
  StronglySorted (fun a b : Q * nat => fst a <= fst b) l ->
  StronglySorted (fun a b : Q * nat => fst a <= fst b) (insert_key p l).
Proof.
  induction l as [|x l IH]; intros H; simpl.
  - repeat constructor.
  - apply StronglySorted_inv in H as H'. destruct H' as [Hs Hall].
    destruct (Qltb (fst p) (fst x)) eqn:E.
    + apply Qltb_lt in E. constructor; [exact H|].
      constructor; [lra|]. eapply List.Forall_impl; [|exact Hall].
      intros y Hy. cbn beta in Hy |- *. lra.
    + apply Qltb_ge in E. constructor; [apply IH; exact Hs|].
      apply List.Forall_forall. intros y Hy. apply insert_key_In in Hy.
      destruct Hy as [->|Hy]; [exact E|].
      rewrite List.Forall_forall in Hall. apply Hall. exact Hy.
Qed.

Lemma fold_insert_perm_sorted l acc :
  StronglySorted (fun a b : Q * nat => fst a <= fst b) acc ->
  StronglySorted (fun a b : Q * nat => fst a <= fst b)
                 (fold_left (fun acc p => insert_key p acc) l acc)
  /\ Permutation (fold_left (fun acc p => insert_key p acc) l acc) (l ++ acc).
Proof.
  revert acc. induction l as [|p l IH]; intros acc Hacc; simpl.
  - split; [exact Hacc | reflexivity].
  - destruct (IH (insert_key p acc) (insert_key_sorted p acc Hacc)) as [Hs Hp].
    split; [exact Hs|]. rewrite Hp, insert_key_perm.
    symmetry. apply Permutation_middle.
Qed.

Lemma combine_seq_key (a : list Q) k x i :
  In (x, i) (combine a (seq k (length a))) -> x = nth (i - k) a 0.
Proof.
  revert k. induction a as [|y a IH]; intros k H; simpl in H; [contradiction|].
  destruct H as [H|H].
  - injection H as -> ->. rewrite Nat.sub_diag. reflexivity.
  - assert (Hi : (S k <= i)%nat).
    { apply in_combine_r in H. apply in_seq in H. lia. }
    rewrite (IH _ H). replace (i - k)%nat with (S (i - S k)) by lia. reflexivity.
Qed.

Lemma sorted_map_fst (l : list (Q * nat)) :
  StronglySorted (fun a b : Q * nat => fst a <= fst b) l -> StronglySorted Qle (map fst l).
Proof.
  induction 1 as [|a l Hs IH Hall]; simpl; constructor; [exact IH|].
  apply List.Forall_forall. intros y Hy. apply in_map_iff in Hy.
  destruct Hy as (b & <- & Hb). rewrite List.Forall_forall in Hall. exact (Hall b Hb).
Qed.

(** [np.argsort] returns a permutation of the indices that puts the keys in
    non-decreasing order. *)
Lemma argsort_perm_sorted a :
  Permutation (argsort a) (seq 0 (length a))
  /\ StronglySorted Qle (gather a (argsort a)).
Proof.
  unfold argsort, gather.
  destruct (fold_insert_perm_sorted (combine a (seq 0 (length a))) [])
    as [Hs Hp]; [constructor|].
  rewrite app_nil_r in Hp.
  set (S := fold_left (fun acc p => insert_key p acc) (combine a (seq 0 (length a))) [])
    in *.
  split.
  - rewrite (Permutation_map snd Hp).
    rewrite map_snd_combine by (rewrite length_seq; reflexivity). reflexivity.
  - rewrite map_map.
    rewrite (map_ext_in (fun x : Q * nat => nth (snd x) a 0) fst).
    + apply sorted_map_fst. exact Hs.
    + intros [x i] Hx. cbn [fst snd].
      apply (Permutation_in _ Hp) in Hx. apply combine_seq_key in Hx.
      rewrite Nat.sub_0_r in Hx. symmetry. exact Hx.
Qed.

Lemma map_seq_combine (a b : list Q) :
  length a = length b ->
  map (fun i => (nth i a 0, nth i b 0)) (seq 0 (length a)) = combine a b.
Proof.
  intros Hlen. apply (nth_ext _ _ (0, 0) (0, 0)).
  - rewrite length_map, length_seq, length_combine. lia.
  - intros i Hi. rewrite length_map, length_seq in Hi.
    rewrite (nth_indep _ (0, 0) ((fun i => (nth i a 0, nth i b 0)) 0%nat))
      by (rewrite length_map, length_seq; exact Hi).
    rewrite (map_nth (fun i => (nth i a 0, nth i b 0))).
    rewrite seq_nth by exact Hi. rewrite combine_nth by exact Hlen. reflexivity.
Qed.

Lemma combine_map {A} (f g : A -> Q) (l : list A) :
  combine (map f l) (map g l) = map (fun x => (f x, g x)) l.
Proof. induction l as [|x l IH]; simpl; [reflexivity|]. f_equal. exact IH. Qed.

(** The selection loop is a filter on the vertices. *)
Lemma select_vertices_filter (structs : list (Q * Q)) (enth : list Q) vs acc r :
  fold_result (fun acc v =>
                 let* s := of_option IndexError (structs !! v) in
                 if Qle_bool (snd s) 0
                 then let* h := of_option IndexError (enth !! v) in
                      Ok (acc ++ [(snd s, h, fst s)])
                 else Ok acc) vs acc = Ok r ->
  map (fun t : Q * Q * Q => (snd t, fst (fst t))) r
  = map (fun t : Q * Q * Q => (snd t, fst (fst t))) acc
    ++ List.filter (fun p => Qle_bool (snd p) 0) (map (fun v => nth v structs (0, 0)) vs).
Proof.
  revert acc. induction vs as [|v vs IH]; intros acc Hr; cbn [fold_result] in Hr.
  - injection Hr as <-. simpl. rewrite app_nil_r. reflexivity.
  - destruct (structs !! v) as [s|] eqn:Hs; cbn [of_option rbind] in Hr; [|discriminate].
    cbn [map List.filter]. rewrite (nth_lookup_Some _ _ (0, 0) _ Hs).
    destruct (Qle_bool (snd s) 0) eqn:Hle.
    + destruct (enth !! v) as [hv|]; cbn [of_option rbind] in Hr; [|discriminate].
      rewrite (IH _ Hr), map_app. cbn [map fst snd]. rewrite <- app_assoc.
      destruct s; reflexivity.
    + exact (IH _ Hr).
Qed.

(** The chain of a run: the vertices at or below the base line, in
    non-decreasing order of composition. *)
Lemma hull_chain_sorted CH cutoff x_elem one_minus_x_elem mus cur h :
  binary_hull_body CH cutoff x_elem one_minus_x_elem mus cur = Ok h ->
  Permutation (hull_chain h)
              (List.filter (fun p => Qle_bool (snd p) 0)
                           (map (fun v => nth v (structures h) (0, 0)) (vertices h)))
  /\ StronglySorted Qle (map fst (hull_chain h)).
Proof.
  unfold binary_hull_body. intros H.
  bind_inv H. rename a into rows. bind_inv H. rename a into verts.
  bind_inv H. rename a into sel. bind_inv H. rename a into dist.
  injection H as <-. unfold hull_chain. cbn [structures vertices hull_comp hull_energy].
  assert (Hsel := select_vertices_filter _ _ _ _ _ E1).
  change (map (fun t : Q * Q * Q => (snd t, fst (fst t))) []) with (@nil (Q * Q)) in Hsel.
  rewrite app_nil_l in Hsel.
  destruct (argsort_perm_sorted (map snd sel)) as [Hperm Hsorted].
  split.
  - rewrite combine_gather, (Permutation_map _ Hperm).
    rewrite map_seq_combine by (rewrite !length_map; reflexivity).
    rewrite combine_map. cbv beta. rewrite Hsel. reflexivity.
  - rewrite map_fst_combine by (rewrite !gather_length; reflexivity).
    exact Hsorted.
Qed.

(** ** From the contract of the hull routine to the chain *)

Lemma ccw_hull_ok_spec pts verts :
  ccw_hull_ok pts verts = true ->
  let cyc := map (fun v => nth v pts (0, 0)) verts in
  (3 <= length cyc)%nat
  /\ (forall k, (k < length cyc)%nat -> In (nth k cyc (0, 0)) pts)
  /\ (forall k p, (k < length cyc)%nat -> In p pts ->
        0 <= line_gap (nth k cyc (0, 0)) (nth (cnext (length cyc) k) cyc (0, 0)) p)
  /\ (forall k j, (k < length cyc)%nat -> (j < length cyc)%nat ->
        j <> k -> j <> cnext (length cyc) k ->
        0 < line_gap (nth k cyc (0, 0)) (nth (cnext (length cyc) k) cyc (0, 0))
                     (nth j cyc (0, 0))).
Proof.
  intros H cyc. unfold ccw_hull_ok in H.
  apply andb_true_iff in H. destruct H as [H Hedges].
  apply andb_true_iff in H. destruct H as [Hm Hvalid].
  apply Nat.leb_le in Hm.
  rewrite forallb_forall in Hvalid. rewrite forallb_forall in Hedges.
  assert (Hlen : length cyc = length verts) by apply length_map.
  assert (Hq : forall k, (k < length verts)%nat ->
            nth k cyc (0, 0) = nth (nth k verts 0%nat) pts (0, 0)).
  { intros k Hk. unfold cyc.
    rewrite (nth_indep _ (0, 0) ((fun v => nth v pts (0, 0)) 0%nat))
      by (rewrite length_map; exact Hk).
    apply (map_nth (fun v => nth v pts (0, 0))). }
  assert (Hnext : forall k, (k < length verts)%nat ->
            (cnext (length verts) k < length verts)%nat).
  { intros k Hk. unfold cnext. destruct (Nat.eqb_spec (S k) (length verts)); lia. }
  rewrite Hlen. split; [exact Hm|]. split; [|split].
  - intros k Hk. rewrite Hq by exact Hk. apply nth_In. apply Nat.ltb_lt.
    apply Hvalid. apply nth_In. exact Hk.
  - intros k p Hk Hp.
    assert (He := Hedges k ltac:(apply in_seq; lia)).
    apply andb_true_iff in He. destruct He as [He _].
    rewrite forallb_forall in He. specialize (He p Hp). apply Qle_bool_iff in He.
    rewrite !Hq by auto. exact He.
  - intros k j Hk Hj Hjk Hjn.
    assert (He := Hedges k ltac:(apply in_seq; lia)).
    apply andb_true_iff in He. destruct He as [_ He].
    rewrite forallb_forall in He. specialize (He j ltac:(apply in_seq; lia)).
    apply orb_true_iff in He. destruct He as [He|He].
    + apply orb_true_iff in He.
      destruct He as [He|He]; apply Nat.eqb_eq in He; contradiction.
    + apply Qltb_lt in He. rewrite !Hq by auto. exact He.
Qed.

Lemma filter_lower_NoDupA (cyc : list (Q * Q)) :
  (forall k j, (k < length cyc)%nat -> (j < length cyc)%nat -> k <> j ->
     snd (nth k cyc (0, 0)) <= 0 -> snd (nth j cyc (0, 0)) <= 0 ->
     fst (nth k cyc (0, 0)) == fst (nth j cyc (0, 0)) -> False) ->
  NoDupA (fun a b : Q * Q => fst a == fst b)
         (List.filter (fun p => Qle_bool (snd p) 0) cyc).
Proof.
  induction cyc as [|a l IH]; intros H; cbn [List.filter]; [constructor|].
  assert (Hl : NoDupA (fun a b : Q * Q => fst a == fst b)
                      (List.filter (fun p => Qle_bool (snd p) 0) l)).
  { apply IH. intros k j Hk Hj Hne. apply (H (S k) (S j)); simpl; lia. }
  destruct (Qle_bool (snd a) 0) eqn:Ha; [|exact Hl].
  constructor; [|exact Hl].
  intros Hin. apply InA_alt in Hin. destruct Hin as (y & Hay & Hy).
  apply filter_In in Hy. destruct Hy as [Hy Hlow].
  apply (In_nth _ _ (0, 0)) in Hy. destruct Hy as (j & Hj & <-).
  apply (H 0%nat (S j)); simpl; try lia.
  - apply Qle_bool_iff. exact Ha.
  - apply Qle_bool_iff. exact Hlow.
  - exact Hay.
Qed.

Lemma sorted_distinct_strict (chain : list (Q * Q)) :
  StronglySorted Qle (map fst chain) ->
  NoDupA (fun a b : Q * Q => fst a == fst b) chain ->
  strictly_increasing (map fst chain) = true.
Proof.
  destruct chain as [|a chain]; [reflexivity|]. revert a.
  induction chain as [|b t IH]; intros a Hs Hnd; [reflexivity|].
  change (Qltb (fst a) (fst b) && strictly_increasing (map fst (b :: t)) = true).
  apply StronglySorted_inv in Hs. destruct Hs as [Hs Hall].
  inversion Hnd as [|? ? Hnot Hnd']; subst.
  apply andb_true_iff. split; [|apply IH; assumption].
  apply Qltb_lt. apply List.Forall_inv in Hall.
  destruct (Qlt_le_dec (fst a) (fst b)) as [Hlt|Hge]; [exact Hlt|].
  exfalso. apply Hnot. left. lra.
Qed.

Lemma edges_In_lookup {A} (l : list A) (a b : A) :
  In (a, b) (edges l) -> exists i, l !! i = Some a /\ l !! S i = Some b.
Proof.
  induction l as [|x l IH]; [contradiction|].
  destruct l as [|y l]; [contradiction|].
  intros [H|H].
  - injection H as <- <-. exists 0%nat. split; reflexivity.
  - destruct (IH H) as (i & Hi & Hi'). exists (S i). split; assumption.
Qed.

Lemma increasing_nth_le l i j :
  strictly_increasing l = true -> (i <= j)%nat -> (j < length l)%nat ->
  nth i l 0 <= nth j l 0.
Proof.
  intros H Hij Hj. destruct (Nat.eq_dec i j) as [->|Hne]; [apply Qle_refl|].
  apply Qlt_le_weak. apply strictly_increasing_nth; [exact H | lia].
Qed.

(** The vertices at or below the base line, sorted by composition, are the
    lower hull of the point set. *)
Lemma lower_hull_from_ccw pts verts chain :
  ccw_hull_ok pts verts = true ->
  In (0, 0) pts -> In (1, 0) pts ->
  (forall p, In p pts -> p = (0, 0) \/ p = (1, 0) \/ (0 < fst p /\ fst p < 1)) ->
  Permutation chain
              (List.filter (fun p => Qle_bool (snd p) 0)
                           (map (fun v => nth v pts (0, 0)) verts)) ->
  StronglySorted Qle (map fst chain) ->
  lower_hull_ok pts chain = true.
Proof.
  intros Hccw HL HR Hbox Hperm Hsorted.
  destruct (ccw_hull_ok_spec _ _ Hccw) as (Hm & Hin & Hleft & Hstrict).
  set (cyc := map (fun v => nth v pts (0, 0)) verts) in *.
  assert (Hmem : forall p, In p chain <->
            exists k, (k < length cyc)%nat /\ nth k cyc (0, 0) = p /\ snd p <= 0).
  { intros p. split.
    - intros Hp. apply (Permutation_in _ Hperm) in Hp. apply filter_In in Hp.
      destruct Hp as [Hp Hlow]. apply (In_nth _ _ (0, 0)) in Hp.
      destruct Hp as (k & Hk & Hkp). exists k. split; [exact Hk|].
      split; [exact Hkp | apply Qle_bool_iff; exact Hlow].
    - intros (k & Hk & <- & Hlow). apply (Permutation_in _ (Permutation_sym Hperm)).
      apply filter_In. split; [apply nth_In; exact Hk | apply Qle_bool_iff; exact Hlow]. }
  assert (Hinc : strictly_increasing (map fst chain) = true).
  { apply sorted_distinct_strict; [exact Hsorted|].
    apply (PermutationA_preserves_NoDupA (eqA := fun a b : Q * Q => fst a == fst b))
      with (l₁ := List.filter (fun p => Qle_bool (snd p) 0) cyc).
    - split; [intros x; reflexivity | intros x y H; symmetry; exact H
             | intros x y z H1 H2; rewrite H1; exact H2].
    - apply Permutation_PermutationA; [|symmetry; exact Hperm].
      split; [intros x; reflexivity | intros x y H; symmetry; exact H
             | intros x y z H1 H2; rewrite H1; exact H2].
    - apply filter_lower_NoDupA. intros k j Hk Hj Hne Hyk Hyj Hx.
      exact (lower_x_distinct pts cyc Hm Hin Hleft Hstrict HL HR Hbox k j Hk Hj Hne Hyk Hyj Hx). }
  assert (Hpos : forall p, In p chain ->
            exists i, (i < length chain)%nat /\ nth i chain (0, 0) = p).
  { intros p Hp. apply (In_nth _ _ (0, 0)) in Hp. exact Hp. }
  assert (Hle : forall i j, (i <= j)%nat -> (j < length chain)%nat ->
            fst (nth i chain (0, 0)) <= fst (nth j chain (0, 0))).
  { intros i j Hij Hj. rewrite <- !nth_map_fst.
    apply increasing_nth_le; [exact Hinc | exact Hij | rewrite length_map; exact Hj]. }
  assert (HLc : In (0, 0) chain).
  { destruct (left_end_is_vertex pts cyc Hm Hin Hleft Hstrict HL Hbox) as (k & Hk & Hq).
    apply Hmem. exists k. split; [exact Hk|]. split; [exact Hq | cbn; lra]. }
  assert (HRc : In (1, 0) chain).
  { destruct (right_end_is_vertex pts cyc Hm Hin Hleft Hstrict HR Hbox) as (k & Hk & Hq).
    apply Hmem. exists k. split; [exact Hk|]. split; [exact Hq | cbn; lra]. }
  unfold lower_hull_ok. apply andb_true_iff. split; [exact Hinc|].
  apply forallb_forall. intros p Hp. apply andb_true_iff. split.
  - (* the chain spans every composition of the set *)
    assert (Hrange : 0 <= fst p /\ fst p <= 1).
    { destruct (Hbox p Hp) as [->|[->|[H0 H1]]]; cbn [fst]; split; lra. }
    destruct (Hpos _ HLc) as (i & Hi & HiL). destruct (Hpos _ HRc) as (j & Hj & HjR).
    unfold spans. destruct chain as [|a rest] eqn:Hchain; [contradiction|].
    rewrite <- Hchain in *.
    apply andb_true_iff. split; apply Qle_bool_iff.
    + apply Qle_trans with 0; [|tauto].
      assert (H := Hle 0%nat i ltac:(lia) Hi). rewrite HiL in H.
      rewrite Hchain in H at 1. exact H.
    + apply Qle_trans with 1; [tauto|].
      rewrite (last_nth chain a (0, 0)) by (rewrite Hchain; discriminate).
      assert (H := Hle j (length chain - 1)%nat ltac:(lia) ltac:(lia)).
      rewrite HjR in H. exact H.
  - (* no point of the set is below the line through two neighbours *)
    apply forallb_forall. intros [a b] Hab. cbn [fst snd]. apply Qle_bool_iff.
    apply edges_In_lookup in Hab. destruct Hab as (i & Hia & Hib).
    assert (Hil := lookup_lt_Some _ _ _ Hib).
    assert (Hna : nth i chain (0, 0) = a) by (apply nth_lookup_Some; exact Hia).
    assert (Hnb : nth (S i) chain (0, 0) = b) by (apply nth_lookup_Some; exact Hib).
    assert (Hlt : fst a < fst b).
    { rewrite <- Hna, <- Hnb, <- !nth_map_fst.
      apply strictly_increasing_nth; [exact Hinc | rewrite length_map; lia]. }
    destruct (proj1 (Hmem a)) as (k & Hk & Hka & Hya).
    { rewrite <- Hna. apply nth_In. lia. }
    destruct (proj1 (Hmem b)) as (j & Hj & Hjb & Hyb).
    { rewrite <- Hnb. apply nth_In. lia. }
    rewrite <- Hka, <- Hjb.
    apply (adjacent_lower_edge pts cyc Hm Hin Hleft Hstrict HL HR Hbox k j Hk Hj);
      try (rewrite ?Hka, ?Hjb; assumption).
    intros i' Hi' Hy' H1 H2. rewrite Hka in H1. rewrite Hjb in H2.
    destruct (Hpos (nth i' cyc (0, 0))) as (t & Ht & Htq).
    { apply Hmem. exists i'. split; [exact Hi'|]. split; [reflexivity | exact Hy']. }
    rewrite <- Htq in H1, H2.
    destruct (le_lt_dec t i) as [Hti|Hti].
    + assert (H := Hle t i Hti ltac:(lia)). rewrite Hna in H. lra.
    + assert (H := Hle (S i) t ltac:(lia) Ht). rewrite Hnb in H. lra.
Qed.

(** ** Compounds of both elements *)

Lemma compound_stoich_range x_elem one_minus_x_elem mus d r :
  binary_compound x_elem one_minus_x_elem d ->
  process_doc x_elem one_minus_x_elem mus d = Ok r ->
  0 < r_stoich r /\ r_stoich r < 1.
Proof.
  intros (ea & na & nb & Hst & Ha & Hb & Hna & Hnb) Hr.
  assert (Hpa := inject_Z_pos _ Hna). assert (Hpb := inject_Z_pos _ Hnb).
  assert (Hsum : ~ inject_Z (na + nb) == 0) by (rewrite inject_Z_plus; lra).
  assert (Hfrac : 0 < inject_Z na / inject_Z (na + nb)
                  /\ inject_Z na / inject_Z (na + nb) < 1).
  { rewrite inject_Z_plus. split.
    - apply Qlt_shift_div_l; lra.
    - apply Qlt_shift_div_r; lra. }
  destruct Hst as [Hst|Hst];
    destruct (process_doc_two _ _ _ _ _ _ _ _ _ Hst Hr) as (num_b & sd & _ & _ & Hsd & _ & Hs);
    cbn [fold_result] in Hsd.
  - rewrite annotate_stoich_hit in Hsd by (cbn [fst]; assumption).
    cbn [rbind] in Hsd. rewrite annotate_stoich_miss in Hsd by (cbn [fst]; assumption).
    cbn [rbind] in Hsd. injection Hsd as <-. rewrite Hs. exact Hfrac.
  - rewrite annotate_stoich_miss in Hsd by (cbn [fst]; assumption).
    cbn [rbind] in Hsd.
    replace (nb + na)%Z with (na + nb)%Z in Hsd by lia.
    rewrite annotate_stoich_hit in Hsd by (cbn [fst]; assumption).
    cbn [rbind] in Hsd. injection Hsd as <-. rewrite Hs. exact Hfrac.
Qed.

(** With compounds of both elements only, every point of the set but the
    two ends lies strictly between them. *)
Lemma structures_box CH cutoff x_elem one_minus_x_elem mus cur h :
  binary_hull_body CH cutoff x_elem one_minus_x_elem mus cur = Ok h ->
  Forall (binary_compound x_elem one_minus_x_elem) cur ->
  forall p, In p (structures h) ->
    p = (0, 0) \/ p = (1, 0) \/ (0 < fst p /\ fst p < 1).
Proof.
  intros Hbody Hcur p Hp.
  destruct (binary_hull_body_inv _ _ _ _ _ _ _ Hbody) as (rows & Hrows & Hs & _).
  rewrite Hs in Hp. cbn [app combine] in Hp.
  rewrite combine_snoc in Hp by (rewrite !length_map; reflexivity).
  destruct Hp as [<-|Hp]; [left; reflexivity|].
  apply in_app_or in Hp. destruct Hp as [Hp|[<-|[]]]; [|right; left; reflexivity].
  right. right. rewrite combine_map in Hp. apply in_map_iff in Hp.
  destruct Hp as (r & <- & Hr). cbn [fst].
  apply list_elem_of_In, list_elem_of_lookup in Hr. destruct Hr as [i Hi].
  destruct (map_result_lookup _ _ _ _ _ Hrows Hi) as (d & Hd & Hproc).
  rewrite List.Forall_forall in Hcur.
  apply (compound_stoich_range x_elem one_minus_x_elem [fst mus; snd mus] d r);
    [|exact Hproc].
  apply Hcur. eapply list_elem_of_In, list_elem_of_lookup_2. exact Hd.
Qed.

(** The chain that [binary_hull] extracts from the vertices of the hull
    routine is the lower hull of the point set. *)
Lemma chain_is_lower_hull CH cutoff x_elem one_minus_x_elem mus cur h :
  binary_hull_body CH cutoff x_elem one_minus_x_elem mus cur = Ok h ->
  Forall (binary_compound x_elem one_minus_x_elem) cur ->
  ccw_hull_ok (structures h) (vertices h) = true ->
  lower_hull_ok (structures h) (hull_chain h) = true.
Proof.
  intros Hbody Hcur Hccw.
  destruct (structures_endpoints _ _ _ _ _ _ _ Hbody) as [H0 H1].
  destruct (hull_chain_sorted _ _ _ _ _ _ _ Hbody) as [Hperm Hsorted].
  apply (lower_hull_from_ccw _ (vertices h)); try assumption.
  exact (structures_box _ _ _ _ _ _ _ Hbody Hcur).
Qed.




(** ** From [binary_hull] to [voltage_curve] *)


